(** * Adaptable priority queue, graph and Dijkstra traversal

    A shallow embedding of [heapAPQ.py], [stack.py], [graphs/graph.py],
    [graphs/directed.py] and [graphs/Dijkstra.py].

    Python objects that are shared and mutated in place (the [Element]s
    of the priority queue, which the caller keeps as handles) live in an
    explicit object store and are named by their address.  Python
    dictionaries are insertion-ordered association lists.  A Python
    exception is an outcome of its own; the state reached when it was
    raised is kept, as a caller that catches the exception would see it. *)

From Stdlib Require Import ZArith Lia Sorted.
From stdpp Require Import base option list strings.

Open Scope Z_scope.
Open Scope nat_scope.

(** ** Outcomes and the state-and-exception monad *)

Inductive exn : Type :=
| IndexError
| KeyError
| TypeError
| AttributeError.

Inductive outcome (A : Type) : Type :=
| Return (a : A)
| Raise (e : exn)
| OutOfFuel.

Arguments Return {A} a.
Arguments Raise {A} e.
Arguments OutOfFuel {A}.

Definition M (S A : Type) : Type := S -> outcome A * S.

Definition ret {S A} (a : A) : M S A := fun s => (Return a, s).

Definition raise {S A} (e : exn) : M S A := fun s => (Raise e, s).

Definition out_of_fuel {S A} : M S A := fun s => (OutOfFuel, s).

Definition bind {S A B} (c : M S A) (k : A -> M S B) : M S B :=
  fun s =>
    match c s with
    | (Return a, s') => k a s'
    | (Raise e, s') => (Raise e, s')
    | (OutOfFuel, s') => (OutOfFuel, s')
    end.

Definition get {S} : M S S := fun s => (Return s, s).

Definition put {S} (s : S) : M S unit := fun _ => (Return tt, s).

Declare Scope monad_scope.
Delimit Scope monad_scope with monad.

Notation "'let*' x ':=' c 'in' k" := (bind c (fun x => k))
  (at level 10, x name, c at level 100, k at level 200) : monad_scope.
Notation "'let*' ' p ':=' c 'in' k" := (bind c (fun x => match x with p => k end))
  (at level 10, p strict pattern, c at level 100, k at level 200) : monad_scope.
Notation "c1 ;; c2" := (bind c1 (fun _ => c2))
  (at level 100, c2 at level 200, right associativity) : monad_scope.

Open Scope monad_scope.

(** ** The adaptable priority queue of [heapAPQ.py] *)

Module APQ.

(** A handle is a reference to an [Element] object: its address in the
    object store. *)
Abbreviation ref := nat (only parsing).

Section WithValue.

Context {V : Type}.

(** [class Element]: a key, a value and an index. *)
Record Element : Type := mkElement {
  _key : Z;
  _value : V;
  _index : nat
}.

(** [class Heap_APQ]: [_body] is the list of references to the elements,
    [_size] the explicit size; [objects] is the store the [Element]
    objects live in. *)
Record Heap_APQ : Type := mkHeap {
  objects : list Element;
  _body : list ref;
  _size : nat
}.

(** [Heap_APQ.__init__] *)
Definition init : Heap_APQ :=
  {| objects := []; _body := []; _size := 0 |}.

Definition H (A : Type) : Type := M Heap_APQ A.

(** [Element(k, v, i)]: a new object at the next address. *)
Definition new_Element (k : Z) (v : V) (i : nat) : H ref :=
  fun h =>
    (Return (length (objects h)),
     {| objects := objects h ++ [mkElement k v i];
        _body := _body h; _size := _size h |}).

(** Attribute access through a reference. *)
Definition deref (r : ref) : H Element :=
  fun h =>
    match objects h !! r with
    | Some e => (Return e, h)
    | None => (Raise AttributeError, h)
    end.

Definition set_index (r : ref) (i : nat) : H unit :=
  fun h =>
    match objects h !! r with
    | Some e =>
        (Return tt,
         {| objects := <[r := mkElement (_key e) (_value e) i]> (objects h);
            _body := _body h; _size := _size h |})
    | None => (Raise AttributeError, h)
    end.

Definition set_key (r : ref) (k : Z) : H unit :=
  fun h =>
    match objects h !! r with
    | Some e =>
        (Return tt,
         {| objects := <[r := mkElement k (_value e) (_index e)]> (objects h);
            _body := _body h; _size := _size h |})
    | None => (Raise AttributeError, h)
    end.

(** [self._body[i]] *)
Definition body_get (i : nat) : H ref :=
  fun h =>
    match _body h !! i with
    | Some r => (Return r, h)
    | None => (Raise IndexError, h)
    end.

(** [self._body[i] = r] *)
Definition body_set (i : nat) (r : ref) : H unit :=
  fun h =>
    if bool_decide (i < length (_body h)) then
      (Return tt,
       {| objects := objects h; _body := <[i := r]> (_body h);
          _size := _size h |})
    else (Raise IndexError, h).

(** [self._body.append(r)] *)
Definition body_append (r : ref) : H unit :=
  fun h =>
    (Return tt,
     {| objects := objects h; _body := _body h ++ [r]; _size := _size h |}).

(** [self._body.pop()] *)
Definition body_pop : H unit :=
  fun h =>
    match _body h with
    | [] => (Raise IndexError, h)
    | _ :: _ =>
        (Return tt,
         {| objects := objects h; _body := removelast (_body h);
            _size := _size h |})
    end.

Definition get_size : H nat := fun h => (Return (_size h), h).

Definition set_size (n : nat) : H unit :=
  fun h =>
    (Return tt, {| objects := objects h; _body := _body h; _size := n |}).

(** [Element.__lt__]; [a > b] has no method of its own on [Element] and
    is answered by the reflected [b.__lt__(a)]. *)
Definition elt_lt (a b : ref) : H bool :=
  let* ea := deref a in
  let* eb := deref b in
  ret (_key ea <? _key eb)%Z.

Definition elt_gt (a b : ref) : H bool := elt_lt b a.

(** The body of both loops after a successful comparison: the tuple
    assignment and the two index updates. *)
Definition swap (i j : nat) : H unit :=
  let* rj := body_get j in
  let* ri := body_get i in
  body_set i rj;;
  body_set j ri;;
  let* r := body_get i in
  set_index r i;;
  let* r := body_get j in
  set_index r j.

(** [Heap_APQ.bubbleup]: the [while i > 0] loop; every iteration moves
    to the parent or to [0], so [i] iterations are enough. *)
Fixpoint bubbleup_loop (fuel : nat) (i : nat) : H unit :=
  if bool_decide (0 < i) then
    match fuel with
    | 0 => out_of_fuel
    | S fuel' =>
        let parent := (i - 1) / 2 in
        let* ri := body_get i in
        let* rp := body_get parent in
        let* lt := elt_lt ri rp in
        if lt then swap i parent;; bubbleup_loop fuel' parent
        else bubbleup_loop fuel' 0
    end
  else ret tt.

Definition bubbleup (i : nat) : H unit := bubbleup_loop i i.

(** [Heap_APQ.bubbledown]: the [while last > (i * 2)] loop; every
    iteration moves to a child or to [last].  [min_child] is the choice
    of [minc] at the head of the loop body: the left child, or the right
    one when there is one and it is strictly smaller. *)
Definition min_child (i last : nat) : H nat :=
  let lc := i * 2 + 1 in
  let rc := i * 2 + 2 in
  if bool_decide (lc < last) then
    let* rr := body_get rc in
    let* rl := body_get lc in
    let* lt := elt_lt rr rl in
    ret (if lt then rc else lc)
  else ret lc.

Fixpoint bubbledown_loop (fuel : nat) (i last : nat) : H unit :=
  if bool_decide (i * 2 < last) then
    match fuel with
    | 0 => out_of_fuel
    | S fuel' =>
        let* minc := min_child i last in
        let* ri := body_get i in
        let* rm := body_get minc in
        let* gt := elt_gt ri rm in
        if gt then swap i minc;; bubbledown_loop fuel' minc last
        else bubbledown_loop fuel' last last
    end
  else ret tt.

Definition bubbledown (i last : nat) : H unit := bubbledown_loop last i last.

(** [Heap_APQ.add] *)
Definition add (k : Z) (v : V) : H ref :=
  let* n := get_size in
  let* e := new_Element k v n in
  body_append e;;
  let* n := get_size in
  set_size (n + 1);;
  let* n := get_size in
  bubbleup (n - 1);;
  ret e.

(** [Heap_APQ.min] *)
Definition min : H (V * Z) :=
  let* m := body_get 0 in
  let* e := deref m in
  ret (_value e, _key e).

(** [Heap_APQ.remove_min]; [None] is Python's [None]. *)
Definition remove_min : H (option (V * Z)) :=
  let* n := get_size in
  if bool_decide (n = 0) then ret None
  else
    let* m := body_get 0 in
    let* e := deref m in
    let minv := _value e in
    let mink := _key e in
    let* l := body_get (n - 1) in
    body_set 0 l;;
    body_pop;;
    set_size (n - 1);;
    let* n := get_size in
    if bool_decide (n = 0) then ret (Some (minv, mink))
    else
      let* r := body_get 0 in
      set_index r 0;;
      bubbledown 0 (n - 1);;
      ret (Some (minv, mink)).

(** [Heap_APQ.is_empty] *)
Definition is_empty : H bool :=
  let* n := get_size in
  if bool_decide (n = 0) then ret true else ret false.

(** [Heap_APQ.length] *)
Definition length : H nat := get_size.

(** [Heap_APQ.update_key]: the index is read from the element again
    after the bubbling up. *)
Definition update_key (element : ref) (newkey : Z) : H unit :=
  set_key element newkey;;
  let* e := deref element in
  bubbleup (_index e);;
  let* e := deref element in
  let* n := get_size in
  bubbledown (_index e) (n - 1).

(** [Heap_APQ.get_key] *)
Definition get_key (element : ref) : H Z :=
  let* e := deref element in
  ret (_key e).

(** [Heap_APQ.remove]: [index] is a local variable, read once. *)
Definition remove (element : ref) : H (option (V * Z)) :=
  let* n := get_size in
  if bool_decide (n = 0) then ret None
  else
    let* e := deref element in
    let v := _value e in
    let k := _key e in
    let index := _index e in
    let* l := body_get (n - 1) in
    body_set index l;;
    body_pop;;
    set_size (n - 1);;
    let* n := get_size in
    if bool_decide (n = 0) then ret (Some (v, k))
    else
      let* r := body_get index in
      set_index r index;;
      bubbleup index;;
      bubbledown index (n - 1);;
      ret (Some (v, k)).

End WithValue.

Arguments Element V : clear implicits.
Arguments Heap_APQ V : clear implicits.
Arguments H V A : clear implicits.

End APQ.

(** ** Python dictionaries

    Insertion-ordered association lists.  Assigning to a key that is
    present replaces the value where it stands; assigning to a new key
    appends; deleting removes the entry. *)

Abbreviation dict K V := (list (K * V)) (only parsing).

Section Dict.

Context {K V : Type} `{EqDecision K}.

Fixpoint dict_get (k : K) (d : dict K V) : option V :=
  match d with
  | [] => None
  | (k', v) :: d' => if decide (k = k') then Some v else dict_get k d'
  end.

(** [k in d] *)
Definition dict_mem (k : K) (d : dict K V) : bool :=
  match dict_get k d with Some _ => true | None => false end.

(** [d[k] = v] *)
Fixpoint dict_set (k : K) (v : V) (d : dict K V) : dict K V :=
  match d with
  | [] => [(k, v)]
  | (k', v') :: d' =>
      if decide (k = k') then (k', v) :: d' else (k', v') :: dict_set k v d'
  end.

(** [del d[k]], for a key that is present *)
Definition dict_del (k : K) (d : dict K V) : dict K V :=
  filter (fun kv => kv.1 <> k) d.

Definition dict_keys (d : dict K V) : list K := d.*1.

Definition dict_values (d : dict K V) : list V := d.*2.

End Dict.

(** ** The undirected graph of [graphs/graph.py] *)

(** [class Vertex].  A vertex has no [__eq__] and no [__hash__], so
    dictionaries compare vertices by object identity: [vid] is the
    identity of the object, [v_element] its [_element]. *)
Record Vertex : Type := mkVertex {
  vid : nat;
  v_element : string
}.

Global Instance Vertex_eq_dec : EqDecision Vertex.
Proof. solve_decision. Defined.

(** [class Edge], with a numeric [_element]. *)
Record Edge : Type := mkEdge {
  _vertices : Vertex * Vertex;
  e_element : Z
}.

Global Instance Edge_eq_dec : EqDecision Edge.
Proof. solve_decision. Defined.

(** [Edge.start], [Edge.end] *)
Definition start (e : Edge) : Vertex := (_vertices e).1.
Definition end_ (e : Edge) : Vertex := (_vertices e).2.

(** [Edge.opposite]; the argument may be any Python value, here a
    vertex or [None]; the result [None] is Python's [None]. *)
Definition opposite (e : Edge) (v : option Vertex) : option Vertex :=
  if decide (Some (_vertices e).1 = v) then Some (_vertices e).2
  else if decide (Some (_vertices e).2 = v) then Some (_vertices e).1
  else None.

Module Graph.

(** [class Graph]: the dictionary of dictionaries. *)
Record Graph : Type := mkGraph {
  _structure : dict Vertex (dict Vertex Edge)
}.

Definition G (A : Type) : Type := M Graph A.

(** [Graph.__init__] *)
Definition init : Graph := {| _structure := [] |}.

(** [self._structure[v]] *)
Definition structure_get (v : Vertex) : G (dict Vertex Edge) :=
  fun g =>
    match dict_get v (_structure g) with
    | Some adj => (Return adj, g)
    | None => (Raise KeyError, g)
    end.

(** [self._structure[v][w] = e]: the inner dictionary is changed in
    place. *)
Definition structure_set (v w : Vertex) (e : Edge) : G unit :=
  let* adj := structure_get v in
  fun g =>
    (Return tt, {| _structure := dict_set v (dict_set w e adj) (_structure g) |}).

(** [v in self._structure] *)
Definition mem (v : Vertex) : G bool :=
  fun g => (Return (dict_mem v (_structure g)), g).

(** [Graph.num_vertices] *)
Definition num_vertices : G nat :=
  fun g => (Return (length (_structure g)), g).

(** [Graph.num_edges] *)
Definition num_edges : G nat :=
  fun g =>
    (Return (foldl (fun num va => num + length va.2) 0 (_structure g) / 2), g).

(** [Graph.vertices] *)
Definition vertices : G (list Vertex) :=
  fun g => (Return (dict_keys (_structure g)), g).

(** [Graph.get_edges]; [None] is Python's [None]. *)
Definition get_edges (v : Vertex) : G (option (list Edge)) :=
  let* b := mem v in
  if b then
    let* adj := structure_get v in
    ret (Some (dict_values adj))
  else ret None.

(** [Graph.get_edge] *)
Definition get_edge (v w : Vertex) : G (option Edge) :=
  let* b := mem v in
  if b then
    let* adj := structure_get v in
    if dict_mem w adj then ret (dict_get w adj) else ret None
  else ret None.

(** [Graph.degree] *)
Definition degree (v : Vertex) : G nat :=
  let* adj := structure_get v in
  ret (length adj).

(** [Graph.add_vertex]; [a] is the identity of the new [Vertex]
    object. *)
Definition add_vertex (element : string) (a : nat) : G Vertex :=
  fun g =>
    let v := mkVertex a element in
    (Return v, {| _structure := dict_set v [] (_structure g) |}).

(** [Graph.add_edge] *)
Definition add_edge (v w : Vertex) (element : Z) : G (option Edge) :=
  let* bv := mem v in
  let* bw := mem w in
  if negb bv || negb bw then ret None
  else
    let e := mkEdge (v, w) element in
    structure_set v w e;;
    structure_set w v e;;
    ret (Some e).

End Graph.

(** ** The directed graph of [graphs/directed.py] *)

Module DirectedGraph.

(** [class DirectedGraph]: out-edges in [_structure], in-edges in
    [_inedges]. *)
Record DirectedGraph : Type := mkDirectedGraph {
  _structure : dict Vertex (dict Vertex Edge);
  _inedges : dict Vertex (dict Vertex Edge)
}.

Definition G (A : Type) : Type := M DirectedGraph A.

(** [DirectedGraph.__init__] *)
Definition init : DirectedGraph := {| _structure := []; _inedges := [] |}.

Definition structure_get (v : Vertex) : G (dict Vertex Edge) :=
  fun g =>
    match dict_get v (_structure g) with
    | Some adj => (Return adj, g)
    | None => (Raise KeyError, g)
    end.

Definition inedges_get (v : Vertex) : G (dict Vertex Edge) :=
  fun g =>
    match dict_get v (_inedges g) with
    | Some adj => (Return adj, g)
    | None => (Raise KeyError, g)
    end.

(** [self._structure[v][w] = e] *)
Definition structure_set (v w : Vertex) (e : Edge) : G unit :=
  let* adj := structure_get v in
  fun g =>
    (Return tt,
     {| _structure := dict_set v (dict_set w e adj) (_structure g);
        _inedges := _inedges g |}).

(** [self._inedges[w][v] = e] *)
Definition inedges_set (w v : Vertex) (e : Edge) : G unit :=
  let* adj := inedges_get w in
  fun g =>
    (Return tt,
     {| _structure := _structure g;
        _inedges := dict_set w (dict_set v e adj) (_inedges g) |}).

Definition mem (v : Vertex) : G bool :=
  fun g => (Return (dict_mem v (_structure g)), g).

(** [DirectedGraph.num_edges]: out-edges only, not halved. *)
Definition num_edges : G nat :=
  fun g =>
    (Return (foldl (fun num va => num + length va.2) 0 (_structure g)), g).

(** [DirectedGraph.get_outedges], [DirectedGraph.get_edges] *)
Definition get_outedges (v : Vertex) : G (option (list Edge)) :=
  let* b := mem v in
  if b then
    let* adj := structure_get v in
    ret (Some (dict_values adj))
  else ret None.

Definition get_edges (v : Vertex) : G (option (list Edge)) := get_outedges v.

(** [DirectedGraph.out_degree], [DirectedGraph.degree] *)
Definition out_degree (v : Vertex) : G nat :=
  let* adj := structure_get v in
  ret (length adj).

Definition degree (v : Vertex) : G nat := out_degree v.

(** [DirectedGraph.add_vertex] *)
Definition add_vertex (element : string) (a : nat) : G Vertex :=
  fun g =>
    let v := mkVertex a element in
    (Return v,
     {| _structure := dict_set v [] (_structure g);
        _inedges := dict_set v [] (_inedges g) |}).

(** [DirectedGraph.add_edge] *)
Definition add_edge (v w : Vertex) (element : Z) : G (option Edge) :=
  let* bv := mem v in
  let* bw := mem w in
  if negb bv || negb bw then ret None
  else
    let e := mkEdge (v, w) element in
    structure_set v w e;;
    inedges_set w v e;;
    ret (Some e).

End DirectedGraph.

(** ** The traversal of [graphs/Dijkstra.py] *)

Module Dijkstra.

(** A Python value that is a [Vertex] or [None]: what [Edge.opposite]
    returns, and so what the traversal stores. *)
Abbreviation pyvertex := (option Vertex).

(** The local variables of [Dijkstra.dijkstra]. *)
Record State : Type := mkState {
  open : APQ.Heap_APQ pyvertex;
  locs : dict pyvertex APQ.ref;
  closed : dict pyvertex (Z * pyvertex);
  preds : dict pyvertex pyvertex
}.

Definition D (A : Type) : Type := M State A.

(** A call of a method of [open]. *)
Definition with_open {A} (c : APQ.H pyvertex A) : D A :=
  fun st =>
    let '(o, h) := c (open st) in
    (o, {| open := h; locs := locs st; closed := closed st;
           preds := preds st |}).

(** [locs[w] = elt] *)
Definition locs_set (w : pyvertex) (elt : APQ.ref) : D unit :=
  fun st =>
    (Return tt, {| open := open st; locs := dict_set w elt (locs st);
                   closed := closed st; preds := preds st |}).

(** [locs[w]] *)
Definition locs_get (w : pyvertex) : D APQ.ref :=
  fun st =>
    match dict_get w (locs st) with
    | Some r => (Return r, st)
    | None => (Raise KeyError, st)
    end.

(** [del locs[v]] *)
Definition locs_del (v : pyvertex) : D unit :=
  fun st =>
    if dict_mem v (locs st) then
      (Return tt, {| open := open st; locs := dict_del v (locs st);
                     closed := closed st; preds := preds st |})
    else (Raise KeyError, st).

(** [preds[w] = v] *)
Definition preds_set (w v : pyvertex) : D unit :=
  fun st =>
    (Return tt, {| open := open st; locs := locs st; closed := closed st;
                   preds := dict_set w v (preds st) |}).

(** [preds.pop(v)] *)
Definition preds_pop (v : pyvertex) : D pyvertex :=
  fun st =>
    match dict_get v (preds st) with
    | Some p =>
        (Return p, {| open := open st; locs := locs st; closed := closed st;
                      preds := dict_del v (preds st) |})
    | None => (Raise KeyError, st)
    end.

(** [closed[v] = (cost, predecessor)] *)
Definition closed_set (v : pyvertex) (c : Z * pyvertex) : D unit :=
  fun st =>
    (Return tt, {| open := open st; locs := locs st;
                   closed := dict_set v c (closed st); preds := preds st |}).

(** [for x in l: body(x)] *)
Fixpoint for_each {S A} (l : list A) (body : A -> M S unit) : M S unit :=
  match l with
  | [] => ret tt
  | x :: l' => body x;; for_each l' body
  end.

(** Lines 74 to 77: the minimum is removed from [open] and recorded in
    [closed]; a [None] from [remove_min] cannot be unpacked. *)
Definition extract : D (pyvertex * Z) :=
  let* r := with_open APQ.remove_min in
  match r with
  | None => raise TypeError
  | Some (v, cost) =>
      locs_del v;;
      let* predecessor := preds_pop v in
      closed_set v (cost, predecessor);;
      ret (v, cost)
  end.

(** [self.get_edges(v)] as the iterable of the [for]: [None] is no key
    of the graph, and [None] cannot be iterated over. *)
Definition edges_of (g : Graph.Graph) (v : pyvertex) : D (list Edge) :=
  match v with
  | Some v' =>
      match (Graph.get_edges v' g).1 with
      | Return (Some edges) => ret edges
      | _ => raise TypeError
      end
  | None => raise TypeError
  end.

(** Lines 79 to 88: the body of the [for] loop. *)
Definition relax (v : pyvertex) (cost : Z) (e : Edge) : D unit :=
  let w := opposite e v in
  let* st := get in
  if negb (dict_mem w (closed st)) then
    let newcost := (cost + e_element e)%Z in
    if negb (dict_mem w (locs st)) then
      preds_set w v;;
      let* elt := with_open (APQ.add newcost w) in
      locs_set w elt
    else
      let* lw := locs_get w in
      let* k := with_open (APQ.get_key lw) in
      if (newcost <? k)%Z then
        preds_set w v;;
        let* lw := locs_get w in
        with_open (APQ.update_key lw newcost)
      else ret tt
  else ret tt.

(** Lines 73 to 88: the [while] loop. *)
Fixpoint dijkstra_loop (g : Graph.Graph) (fuel : nat) : D unit :=
  let* emp := with_open APQ.is_empty in
  if emp then ret tt
  else
    match fuel with
    | 0 => out_of_fuel
    | S fuel' =>
        let* '(v, cost) := extract in
        let* edges := edges_of g v in
        for_each edges (relax v cost);;
        dijkstra_loop g fuel'
    end.

(** Lines 67 to 72. *)
Definition start_state (s : Vertex) : State :=
  {| open := APQ.init; locs := []; closed := [];
     preds := [(Some s, None)] |}.

Definition prologue (s : Vertex) : D unit :=
  let* elt := with_open (APQ.add 0%Z (Some s)) in
  locs_set (Some s) elt.

(** [Dijkstra.dijkstra]: every iteration of the [while] loop closes a
    vertex of the graph, or raises when what it took from [open] is no
    vertex of the graph, so one iteration more than the graph has
    vertices is enough. *)
Definition dijkstra_run (g : Graph.Graph) (s : Vertex)
  : D (dict pyvertex (Z * pyvertex)) :=
  prologue s;;
  dijkstra_loop g (S (length (Graph._structure g)));;
  let* st := get in
  ret (closed st).

Definition dijkstra (g : Graph.Graph) (s : Vertex)
  : outcome (dict pyvertex (Z * pyvertex)) :=
  (dijkstra_run g s (start_state s)).1.

(** *** The run as a machine

    The same loop, one statement group at a time: the control is at the
    head of the [while] loop or inside the [for] loop with the edges
    still to come. *)
Inductive control : Type :=
| AtHead
| InFor (v : pyvertex) (cost : Z) (rest : list Edge).

Definition step (g : Graph.Graph) (c : control) : D (option control) :=
  match c with
  | AtHead =>
      let* emp := with_open APQ.is_empty in
      if emp then ret None
      else
        let* '(v, cost) := extract in
        let* edges := edges_of g v in
        ret (Some (InFor v cost edges))
  | InFor v cost [] => ret (Some AtHead)
  | InFor v cost (e :: rest) =>
      relax v cost e;;
      ret (Some (InFor v cost rest))
  end.

(** The configuration after [n] steps, if the run has not ended
    before. *)
Fixpoint steps (g : Graph.Graph) (n : nat) (c : control) (st : State)
  : option (control * State) :=
  match n with
  | 0 => Some (c, st)
  | S n' =>
      match step g c st with
      | (Return (Some c'), st') => steps g n' c' st'
      | _ => None
      end
  end.

(** The configuration in which the [while] loop is entered. *)
Definition entry (s : Vertex) : State := (prologue s (start_state s)).2.

(** The vertices in [open], in heap order. *)
Definition open_values (st : State) : list pyvertex :=
  omap (fun r => APQ._value <$> APQ.objects (open st) !! r)
       (APQ._body (open st)).

(** The status of a vertex. *)
Inductive status : Type := Unseen | Open | Closed.

Definition status_of (st : State) (v : pyvertex) : status :=
  if dict_mem v (closed st) then Closed
  else if bool_decide (v ∈ open_values st) then Open
  else Unseen.

Definition status_le (a b : status) : Prop :=
  match a, b with
  | Unseen, _ => True
  | Open, Unseen => False
  | Open, _ => True
  | Closed, Closed => True
  | Closed, _ => False
  end.

End Dijkstra.

(** ** Invariants of the priority queue *)

Module APQInv.

Import APQ.

Local Abbreviation length := List.length.

Section WithValue.

Context {V : Type}.

Implicit Types h : Heap_APQ V.

(** [(i - 1) // 2] *)
Definition parent (i : nat) : nat := (i - 1) / 2.

(** The element in slot [i] of the array. *)
Definition cell h (i : nat) : option (Element V) :=
  match _body h !! i with
  | Some r => objects h !! r
  | None => None
  end.

(** Every element of the array carries its own position, and the
    explicit size is the length of the array. *)
Definition index_inv h : Prop :=
  forall i r, _body h !! i = Some r ->
    exists e, objects h !! r = Some e /\ _index e = i.

Definition wf h : Prop :=
  _size h = length (_body h) /\ index_inv h.

Definition key_ref h (r : ref) : Z :=
  match objects h !! r with Some e => _key e | None => 0%Z end.

Definition key_at h (i : nat) : Z :=
  match _body h !! i with Some r => key_ref h r | None => 0%Z end.

(** The min-heap property. *)
Definition heap_ordered h : Prop :=
  forall i, 0 < i < length (_body h) ->
    (key_at h (parent i) <= key_at h i)%Z.

(** The heap property with one possible exception: between slot [i] and
    its parent ([up_inv]), or between slot [i] and its children
    ([down_inv]); in both, the parent of [i] is below the children of
    [i]. *)
Definition grand_ok h (i : nat) : Prop :=
  forall c, c < length (_body h) -> 0 < i -> parent c = i ->
    (key_at h (parent i) <= key_at h c)%Z.

Definition up_inv h (i : nat) : Prop :=
  (forall j, 0 < j < length (_body h) -> j <> i ->
     (key_at h (parent j) <= key_at h j)%Z)
  /\ grand_ok h i.

Definition down_inv h (i : nat) : Prop :=
  (forall j, 0 < j < length (_body h) -> parent j <> i ->
     (key_at h (parent j) <= key_at h j)%Z)
  /\ grand_ok h i.

Definition almost_inv h (i : nat) : Prop :=
  (forall j, 0 < j < length (_body h) -> j <> i -> parent j <> i ->
     (key_at h (parent j) <= key_at h j)%Z)
  /\ grand_ok h i.

(** The objects keep their keys and values. *)
Definition frame h h' : Prop :=
  forall r e, objects h !! r = Some e ->
    exists e', objects h' !! r = Some e'
      /\ _key e' = _key e /\ _value e' = _value e.

(** The objects keep their values. *)
Definition frame_val h h' : Prop :=
  forall r e, objects h !! r = Some e ->
    exists e', objects h' !! r = Some e' /\ _value e' = _value e.

(** Both invariants of the queue. *)
Definition good h : Prop := wf h /\ heap_ordered h.

(** The same elements, possibly in other slots. *)
Definition rearranged h h' : Prop :=
  wf h' /\ _size h' = _size h /\ length (_body h') = length (_body h)
  /\ length (objects h') = length (objects h)
  /\ frame h h' /\ (forall r, r ∈ _body h' <-> r ∈ _body h).

Definition transp (i j k : nat) : nat :=
  if decide (k = i) then j else if decide (k = j) then i else k.

(** The operations of the queue, and the arguments that are valid for
    them: a queue that is not empty for the removals, a handle of an
    element of the queue for [update_key] and [remove]. *)
Inductive op : Type :=
| Add (k : Z) (v : V)
| Remove_min
| Update_key (element : ref) (newkey : Z)
| Remove (element : ref).

Definition valid h (o : op) : Prop :=
  match o with
  | Add _ _ => True
  | Remove_min => 0 < _size h
  | Update_key r _ => r ∈ _body h
  | Remove r => 0 < _size h /\ r ∈ _body h
  end.

Definition exec (o : op) : H V unit :=
  match o with
  | Add k v => add k v;; ret tt
  | Remove_min => remove_min;; ret tt
  | Update_key r k => update_key r k
  | Remove r => remove r;; ret tt
  end.

(** The queues a sequence of valid operations leads to; an operation
    that raises leaves the queue as it was when it raised. *)
Inductive reachable : Heap_APQ V -> Prop :=
| reachable_init : reachable init
| reachable_exec h o :
    reachable h -> valid h o -> reachable (exec o h).2.

(** A sequence of operations, each on the queue the ones before it
    leave, and what it is for each of them to be valid there. *)
Definition run_ops (l : list op) h : Heap_APQ V :=
  foldl (fun h o => (exec o h).2) h l.

Fixpoint valid_seq (l : list op) h : Prop :=
  match l with
  | [] => True
  | o :: l' => valid h o /\ valid_seq l' (exec o h).2
  end.

End WithValue.

End APQInv.

(** ** Invariants of the graphs *)

Module GraphInv.

Import Graph.

(** [self._structure[v][w]], when both keys are there. *)
Definition edge_at (g : Graph) (v w : Vertex) : option Edge :=
  match dict_get v (_structure g) with
  | Some adj => dict_get w adj
  | None => None
  end.

(** Every edge kept under [v] with key [w] joins [v] and [w], and [w]
    is a vertex of the graph. *)
Definition wf (g : Graph) : Prop :=
  forall v adj, (v, adj) ∈ _structure g ->
    forall w e, (w, e) ∈ adj ->
      dict_mem w (_structure g) = true /\ opposite e (Some v) = Some w.

(** The graphs that [add_vertex] and [add_edge] build. *)
Inductive built : Graph -> Prop :=
| built_init : built init
| built_add_vertex g element a :
    built g -> built (add_vertex element a g).2
| built_add_edge g v w element :
    built g -> built (add_edge v w element g).2.

(** The sum that [num_edges] halves. *)
Definition total (s : dict Vertex (dict Vertex Edge)) : nat :=
  foldl (fun num va => num + length va.2) 0 s.

End GraphInv.

Module DirectedInv.

Import DirectedGraph.

Definition out_edge_at (g : DirectedGraph) (v w : Vertex) : option Edge :=
  match dict_get v (_structure g) with
  | Some adj => dict_get w adj
  | None => None
  end.

Definition in_edge_at (g : DirectedGraph) (w v : Vertex) : option Edge :=
  match dict_get w (_inedges g) with
  | Some adj => dict_get v adj
  | None => None
  end.

(** Both dictionaries have the same vertices, as [add_vertex] makes
    them. *)
Definition consistent (g : DirectedGraph) : Prop :=
  forall v, dict_mem v (_inedges g) = dict_mem v (_structure g).

End DirectedInv.

(** The graph of the example: vertices A, B, C, D and the edges A-B 1,
    B-C 2, A-C 5, C-D 1. *)
Definition vA : Vertex := mkVertex 0 "A".
Definition vB : Vertex := mkVertex 1 "B".
Definition vC : Vertex := mkVertex 2 "C".
Definition vD : Vertex := mkVertex 3 "D".

Definition build_example : Graph.G unit :=
  let* a := Graph.add_vertex "A" 0 in
  let* b := Graph.add_vertex "B" 1 in
  let* c := Graph.add_vertex "C" 2 in
  let* d := Graph.add_vertex "D" 3 in
  Graph.add_edge a b 1;;
  Graph.add_edge b c 2;;
  Graph.add_edge a c 5;;
  Graph.add_edge c d 1;;
  ret tt.

Definition example_graph : Graph.Graph := (build_example Graph.init).2.

(** The same graph with its edges added in any order and with either
    endpoint first. *)
Definition example_edges : list (Vertex * Vertex * Z) :=
  [(vA, vB, 1%Z); (vB, vC, 2%Z); (vA, vC, 5%Z); (vC, vD, 1%Z)].

Definition add_edges (es : list (Vertex * Vertex * Z)) : Graph.G unit :=
  Dijkstra.for_each es (fun '(v, w, x) => Graph.add_edge v w x;; ret tt).

Definition graph_of (es : list (Vertex * Vertex * Z)) : Graph.Graph :=
  ((Graph.add_vertex "A" 0;; Graph.add_vertex "B" 1;;
    Graph.add_vertex "C" 2;; Graph.add_vertex "D" 3;;
    add_edges es) Graph.init).2.

Definition flip (e : Vertex * Vertex * Z) : Vertex * Vertex * Z :=
  (e.1.2, e.1.1, e.2).

Definition same_edge (e e' : Vertex * Vertex * Z) : Prop :=
  e = e' \/ e = flip e'.

Fixpoint flips (es : list (Vertex * Vertex * Z))
  : list (list (Vertex * Vertex * Z)) :=
  match es with
  | [] => [[]]
  | e :: es' => flips es' ≫= fun l => [e :: l; flip e :: l]
  end.

Definition example_result : dict (option Vertex) (Z * option Vertex) :=
  [(Some vA, (0%Z, None)); (Some vB, (1%Z, Some vA));
   (Some vC, (3%Z, Some vB)); (Some vD, (4%Z, Some vC))].

Definition is_example_result
  (o : outcome (dict (option Vertex) (Z * option Vertex))) : bool :=
  match o with
  | Return d => bool_decide (d = example_result)
  | _ => false
  end.

(** ** Invariants of the traversal *)

Module DijkstraInv.

Import Dijkstra.

(** The vertex an element of [open] stands for. *)
Definition value_of (h : APQ.Heap_APQ pyvertex) (r : APQ.ref)
  : option pyvertex :=
  APQ._value <$> APQ.objects h !! r.

(** [open] is a good queue; [locs] maps exactly the vertices in [open]
    to their elements; [preds] has the keys of [locs]; no vertex of
    [locs] is in [closed]. *)
Record Inv (st : State) : Prop := mkInv {
  inv_good : APQInv.good (open st);
  inv_locs : forall w r, dict_get w (locs st) = Some r ->
    r ∈ APQ._body (open st) /\ value_of (open st) r = Some w;
  inv_body : forall r, r ∈ APQ._body (open st) ->
    exists w, value_of (open st) r = Some w
      /\ dict_get w (locs st) = Some r;
  inv_preds : forall w, dict_mem w (preds st) = dict_mem w (locs st);
  inv_closed : forall w, dict_mem w (locs st) = true ->
    dict_mem w (closed st) = false
}.

(** Every vertex in [open] is a vertex of the graph. *)
Definition VInv (g : Graph.Graph) (st : State) : Prop :=
  forall w, dict_mem w (locs st) = true ->
    exists v, w = Some v /\ dict_mem v (Graph._structure g) = true.

(** An edge the [for] loop over the edges of [v] can meet in a
    well-formed graph. *)
Definition edge_ok (g : Graph.Graph) (v : pyvertex) (e : Edge) : Prop :=
  exists w, opposite e v = Some w
    /\ dict_mem w (Graph._structure g) = true.

(** What a later state keeps of an earlier one: the entries of
    [closed], and every vertex of [open] in [open] or in [closed]. *)
Definition later (st st' : State) : Prop :=
  (forall w x, dict_get w (closed st) = Some x ->
     dict_get w (closed st') = Some x)
  /\ (forall w, w ∈ open_values st ->
        w ∈ open_values st' \/ dict_mem w (closed st') = true).

(** What an iteration of the [for] loop keeps: [closed] as it is, and
    every element of [open], with its value. *)
Definition grows (st st' : State) : Prop :=
  closed st' = closed st
  /\ (forall r, r ∈ APQ._body (open st) -> r ∈ APQ._body (open st'))
  /\ APQInv.frame_val (open st) (open st').

(** The vertices of the graph that are not closed yet. *)
Definition unclosed (g : Graph.Graph) (st : State) : list Vertex :=
  filter (fun v => dict_mem (Some v) (closed st) = false)
         (dict_keys (Graph._structure g)).

End DijkstraInv.

(** The state of the run on the example graph after [n] steps. *)
Definition example_at (n : nat) : Dijkstra.control * Dijkstra.State :=
  default (Dijkstra.AtHead, Dijkstra.entry vA)
    (Dijkstra.steps example_graph n Dijkstra.AtHead (Dijkstra.entry vA)).

(** A queue reached through all four operations, the last of which
    raises. *)
Definition sample_ops : list (APQInv.op (V:=string)) :=
  [APQInv.Add 5 "e"; APQInv.Add 3 "c"; APQInv.Add 8 "h"; APQInv.Add 1 "a";
   APQInv.Add 4 "d"; APQInv.Update_key 2 0; APQInv.Remove_min;
   APQInv.Remove 0; APQInv.Remove 1].

Definition sample_heap : APQ.Heap_APQ string :=
  APQInv.run_ops sample_ops APQ.init.

(** A queue of two elements. *)
Definition two_heap : APQ.Heap_APQ string :=
  APQInv.run_ops [APQInv.Add 1 "a"; APQInv.Add 2 "b"] APQ.init.

(** A directed graph of two vertices. *)
Definition example_digraph : DirectedGraph.DirectedGraph :=
  (DirectedGraph.add_vertex "B" 1
     (DirectedGraph.add_vertex "A" 0 DirectedGraph.init).2).2.

(** ** Compositions of the queue operations *)

Module APQClient.

Section WithValue.

Context {V : Type}.

(** [n] calls of [remove_min] in a row, with what they return. *)
Fixpoint drain (n : nat) : APQ.H V (list (option (V * Z))) :=
  match n with
  | 0 => ret []
  | S n' =>
      let* x := APQ.remove_min in
      let* xs := drain n' in
      ret (x :: xs)
  end.

(** The keys of the pairs returned. *)
Definition keys_of (l : list (option (V * Z))) : list Z :=
  omap (fun x => snd <$> x) l.

End WithValue.

End APQClient.

(** ** More of [graphs/graph.py] *)

Module GraphMore.

Import Graph.

(** The loop [for v in self._structure: if v.element() == element:
    return v] of [get_vertex_by_label] and [add_vertex_if_new]. *)
Fixpoint first_with_label (element : string) (vs : list Vertex)
  : option Vertex :=
  match vs with
  | [] => None
  | v :: vs' =>
      if bool_decide (v_element v = element) then Some v
      else first_with_label element vs'
  end.

(** [Graph.get_vertex_by_label] *)
Definition get_vertex_by_label (element : string) : G (option Vertex) :=
  fun g =>
    (Return (first_with_label element (dict_keys (_structure g))), g).

(** [Graph.add_vertex_if_new]; [a] is the identity of the [Vertex]
    object that is made when there is none with the label. *)
Definition add_vertex_if_new (element : string) (a : nat) : G Vertex :=
  fun g =>
    match first_with_label element (dict_keys (_structure g)) with
    | Some v => (Return v, g)
    | None => add_vertex element a g
    end.

(** The graphs that [add_vertex] and [add_edge] build when every new
    [Vertex] object has an identity of its own, as Python gives it. *)
Inductive constructed : Graph -> Prop :=
| constructed_init : constructed init
| constructed_add_vertex g element a :
    constructed g ->
    dict_mem (mkVertex a element) (_structure g) = false ->
    constructed (add_vertex element a g).2
| constructed_add_edge g v w element :
    constructed g -> constructed (add_edge v w element g).2.

End GraphMore.

(** ** More of [graphs/directed.py] *)

Module DirectedMore.

Import DirectedGraph.

(** [DirectedGraph.get_inedges] *)
Definition get_inedges (v : Vertex) : G (option (list Edge)) :=
  let* b := mem v in
  if b then
    let* adj := inedges_get v in
    ret (Some (dict_values adj))
  else ret None.

(** [DirectedGraph.in_degree] *)
Definition in_degree (v : Vertex) : G nat :=
  let* adj := inedges_get v in
  ret (length adj).

(** [DirectedGraph.get_edge] *)
Definition get_edge (v w : Vertex) : G (option Edge) :=
  let* b := mem v in
  if b then
    let* adj := structure_get v in
    if dict_mem w adj then ret (dict_get w adj) else ret None
  else ret None.

(** The directed graphs that [add_vertex] and [add_edge] build when
    every new [Vertex] object has an identity of its own. *)
Inductive constructed : DirectedGraph -> Prop :=
| constructed_init : constructed init
| constructed_add_vertex g element a :
    constructed g ->
    dict_mem (mkVertex a element) (_structure g) = false ->
    constructed (add_vertex element a g).2
| constructed_add_edge g v w element :
    constructed g -> constructed (add_edge v w element g).2.

End DirectedMore.

(** A directed graph with the edges A->B and B->C. *)
Definition example_dag : DirectedGraph.DirectedGraph :=
  (DirectedGraph.add_edge vB vC 2
     (DirectedGraph.add_edge vA vB 1
        (DirectedGraph.add_vertex "C" 2 example_digraph).2).2).2.

(** ** What the traversal computes *)

Module DijkstraMore.

Import Dijkstra.

(** The key a vertex has in [open]: the key of the element that [locs]
    keeps for it. *)
Definition key_open (st : State) (w : pyvertex) : option Z :=
  match dict_get w (locs st) with
  | Some r => APQ._key <$> APQ.objects (open st) !! r
  | None => None
  end.

(** [e] is one of the edges that [get_edges(p)] lists. *)
Definition edge_of (g : Graph.Graph) (p : pyvertex) (e : Edge) : Prop :=
  exists v adj, p = Some v
    /\ dict_get v (Graph._structure g) = Some adj
    /\ e ∈ dict_values adj.

(** A walk from the source along listed edges, each taken from one end
    to the opposite one, with the sum of its weights. *)
Inductive walk (g : Graph.Graph) (s : Vertex) : pyvertex -> Z -> Prop :=
| walk_source : walk g s (Some s) 0%Z
| walk_edge p L e :
    walk g s p L -> edge_of g p e ->
    walk g s (opposite e p) (L + e_element e)%Z.

(** No listed edge has a negative weight. *)
Definition nonneg (g : Graph.Graph) : Prop :=
  forall p e, edge_of g p e -> (0 <= e_element e)%Z.

(** The two ways an iteration of the [for] loop leaves the keys and
    predecessors of the open vertices: as they were, or with the key
    [nc] and the predecessor [v] for [w]. *)
Definition same_view (st st' : State) : Prop :=
  (forall x, key_open st' x = key_open st x)
  /\ (forall x, dict_get x (preds st') = dict_get x (preds st)).

Definition upd_view (w : pyvertex) (nc : Z) (v : pyvertex)
  (st st' : State) : Prop :=
  (forall x, key_open st' x
             = if decide (x = w) then Some nc else key_open st x)
  /\ (forall x, dict_get x (preds st')
                = if decide (x = w) then Some v else dict_get x (preds st)).

(** Lines 79 to 88 in terms of keys and predecessors. *)
Definition relax_rel (v : pyvertex) (cost : Z) (e : Edge)
  (st st' : State) : Prop :=
  closed st' = closed st
  /\ let w := opposite e v in
     let nc := (cost + e_element e)%Z in
     if dict_mem w (closed st) then same_view st st'
     else
       match key_open st w with
       | Some k => if (nc <? k)%Z then upd_view w nc v st st'
                   else same_view st st'
       | None => upd_view w nc v st st'
       end.

(** Lines 74 to 77 in terms of keys and predecessors: [v] had the
    least key [k] in [open] and the predecessor [p]. *)
Definition extract_rel (st : State) (v : pyvertex) (k : Z) (p : pyvertex)
  (st' : State) : Prop :=
  key_open st v = Some k
  /\ dict_get v (preds st) = Some p
  /\ dict_get v (closed st) = None
  /\ (forall x k', key_open st x = Some k' -> (k <= k')%Z)
  /\ (forall x, dict_get x (closed st')
                = if decide (x = v) then Some (k, p)
                  else dict_get x (closed st))
  /\ dict_keys (closed st') = dict_keys (closed st) ++ [v]
  /\ (forall x, key_open st' x
                = if decide (x = v) then None else key_open st x)
  /\ (forall x, dict_get x (preds st')
                = if decide (x = v) then None else dict_get x (preds st)).

(** How an entry [(c, p)] for [w] comes about: [w] is the source, or
    [p] has an entry and an edge of [p] leads to [w]. *)
Definition via (g : Graph.Graph) (s : Vertex)
  (d : dict pyvertex (Z * pyvertex)) (w : pyvertex) (c : Z) (p : pyvertex)
  : Prop :=
  (w = Some s /\ c = 0%Z /\ p = None)
  \/ exists cp pp e,
       dict_get p d = Some (cp, pp) /\ edge_of g p e
       /\ opposite e p = w /\ c = (cp + e_element e)%Z.

(** The edges the [for] loop has still to look at. *)
Definition pending (c : control) (p : pyvertex) (e : Edge) : Prop :=
  match c with
  | AtHead => False
  | InFor v _ rest => p = v /\ e ∈ rest
  end.

(** What holds of the costs and predecessors at every point of the
    run, whatever the weights are. *)
Record Tree (g : Graph.Graph) (s : Vertex) (c : control) (st : State)
  : Prop := mkTree {
  tree_closed : forall w k p, dict_get w (closed st) = Some (k, p) ->
    walk g s w k /\ via g s (closed st) w k p;
  tree_open : forall w k, key_open st w = Some k ->
    walk g s w k
    /\ forall p, dict_get w (preds st) = Some p ->
         via g s (closed st) w k p;
  tree_cover : forall p e, dict_mem p (closed st) = true -> edge_of g p e ->
    pending c p e \/ dict_mem (opposite e p) (closed st) = true
    \/ is_Some (key_open st (opposite e p));
  tree_ctl :
    match c with
    | AtHead => True
    | InFor v cost rest =>
        (exists pv, dict_get v (closed st) = Some (cost, pv))
        /\ Forall (edge_of g v) rest
    end;
  tree_nodup : NoDup (dict_keys (closed st));
  tree_source :
    (closed st = [] /\ c = AtHead
     /\ (forall x, key_open st x
                   = if decide (x = Some s) then Some 0%Z else None)
     /\ dict_get (Some s) (preds st) = Some None)
    \/ dict_get (Some s) (closed st) = Some (0%Z, None)
}.

(** What holds in addition when no weight is negative. *)
Record Opt (g : Graph.Graph) (c : control) (st : State) : Prop := mkOpt {
  opt_edge : forall u cu pu e,
    dict_get u (closed st) = Some (cu, pu) -> edge_of g u e ->
    pending c u e
    \/ (exists cw pw, dict_get (opposite e u) (closed st) = Some (cw, pw)
          /\ (cw <= cu + e_element e)%Z)
    \/ (exists k, key_open st (opposite e u) = Some k
          /\ (k <= cu + e_element e)%Z);
  opt_open : forall u cu pu x k,
    dict_get u (closed st) = Some (cu, pu) -> key_open st x = Some k ->
    (cu <= k)%Z;
  opt_ctl :
    match c with
    | AtHead => True
    | InFor v cost rest =>
        forall u cu pu, dict_get u (closed st) = Some (cu, pu) ->
          (cu <= cost)%Z
    end
}.

(** The check that no weight is negative. *)
Definition nonnegb (g : Graph.Graph) : bool :=
  forallb (fun va : Vertex * dict Vertex Edge =>
             forallb (fun e => (0 <=? e_element e)%Z) (dict_values va.2))
          (Graph._structure g).

End DijkstraMore.

(** ** The stack of [stack.py] *)

Module Stack.

Section WithItem.

Context {A : Type}.

(** [class Stack]: the list [_list], with the top at its end. *)
Record Stack : Type := mkStack {
  _list : list A
}.

Definition S (B : Type) : Type := M Stack B.

(** [Stack.__init__] *)
Definition init : Stack := {| _list := [] |}.

(** [Stack.pop]; [None] is Python's [None]. *)
Definition pop : S (option A) :=
  fun s =>
    if decide (length (_list s) = 0) then (Return None, s)
    else (Return (last (_list s)), {| _list := removelast (_list s) |}).

(** [Stack.push] *)
Definition push (element : A) : S unit :=
  fun s => (Return tt, {| _list := _list s ++ [element] |}).

(** [Stack.top] *)
Definition top : S (option A) :=
  fun s =>
    if decide (length (_list s) = 0) then (Return None, s)
    else (Return (last (_list s)), s).

(** [Stack.length] *)
Definition length : S nat :=
  fun s => (Return (List.length (_list s)), s).

End WithItem.

Arguments Stack : clear implicits.

End Stack.

(** ** The vertex of highest degree *)

Module GraphDegree.

Import Graph.

(** The loop of [highestdegreevertex], with its locals [hd] and [hdv];
    [hd] starts at [-1]. *)
Fixpoint highest_loop (vs : list Vertex) (hd : Z) (hdv : option Vertex)
  : G (option Vertex) :=
  match vs with
  | [] => ret hdv
  | v :: vs' =>
      let* d := degree v in
      if (hd <? Z.of_nat d)%Z then
        let* d' := degree v in
        highest_loop vs' (Z.of_nat d') (Some v)
      else highest_loop vs' hd hdv
  end.

(** [Graph.highestdegreevertex] *)
Definition highestdegreevertex : G (option Vertex) :=
  fun g => highest_loop (dict_keys (_structure g)) (-1)%Z None g.

(** The number of edges kept under [v]. *)
Definition degree_of (g : Graph) (v : Vertex) : nat :=
  match dict_get v (_structure g) with
  | Some adj => length adj
  | None => 0
  end.

End GraphDegree.

(** ** The searches of [graphs/graph.py] *)

(** [for e in self.get_edges(v)]: the list that the [for] iterates
    over.  [get_edges] returns [None] for what is no key of the graph,
    and [None] cannot be iterated over. *)
Definition iter_edges {S} (g : Graph.Graph) (v : option Vertex)
  : M S (list Edge) :=
  match v with
  | Some v' =>
      match (Graph.get_edges v' g).1 with
      | Return (Some edges) => ret edges
      | _ => raise TypeError
      end
  | None => raise TypeError
  end.

Module BFS.

Import Dijkstra.

(** The locals [marked] and [nextlevel] of [BFS_length]; [level] and
    [levelint] are carried by the loop. *)
Record State : Type := mkState {
  marked : dict pyvertex (pyvertex * nat);
  nextlevel : list pyvertex
}.

(** Lines 311 to 314: the body of the inner [for]. *)
Definition visit (w : pyvertex) (levelint : nat) (e : Edge)
  : M State unit :=
  let x := opposite e w in
  let* st := get in
  if negb (dict_mem x (marked st)) then
    put {| marked := dict_set x (w, levelint) (marked st);
           nextlevel := nextlevel st ++ [x] |}
  else ret tt.

(** Lines 310 to 314: the body of [for w in level]. *)
Definition scan (g : Graph.Graph) (levelint : nat) (w : pyvertex)
  : M State unit :=
  let* edges := iter_edges g w in
  for_each edges (visit w levelint).

(** Lines 307 to 316: the [while] loop. *)
Fixpoint bfs_loop (g : Graph.Graph) (fuel : nat) (level : list pyvertex)
  (levelint : nat) : M State unit :=
  if (0 <? length level) then
    match fuel with
    | 0 => out_of_fuel
    | S fuel' =>
        (let* st := get in
         put {| marked := marked st; nextlevel := [] |});;
        for_each level (scan g levelint);;
        let* st := get in
        bfs_loop g fuel' (nextlevel st) (S levelint)
    end
  else ret tt.

(** [Graph.BFS_length]: every iteration of the [while] loop that is
    followed by another one marks a vertex of the graph, so one
    iteration more than the graph has vertices is enough. *)
Definition BFS_length (g : Graph.Graph) (v : Vertex)
  : outcome (dict pyvertex (pyvertex * nat)) :=
  match
    bfs_loop g (S (length (Graph._structure g))) [Some v] 1
      {| marked := [(Some v, (None, 0))]; nextlevel := [] |}
  with
  | (Return _, st) => Return (marked st)
  | (Raise e, _) => Raise e
  | (OutOfFuel, _) => OutOfFuel
  end.

End BFS.

(** *** What the breadth-first search computes *)

Module BFSInv.

Import Dijkstra DijkstraMore BFS.

(** A walk from the source along listed edges, with the number of its
    edges. *)
Inductive path (g : Graph.Graph) (s : Vertex) : pyvertex -> nat -> Prop :=
| path_source : path g s (Some s) 0
| path_edge p n e :
    path g s p n -> edge_of g p e -> path g s (opposite e p) (S n).

(** How an entry [(w, k)] for [x] comes about: [x] is the source, or
    [w] has an entry with the level before and an edge of [w] leads to
    [x]. *)
Definition entry_ok (g : Graph.Graph) (s : Vertex)
  (m : dict pyvertex (pyvertex * nat)) (x w : pyvertex) (k : nat) : Prop :=
  (x = Some s /\ w = None /\ k = 0)
  \/ exists w' k' e,
       dict_get w m = Some (w', k') /\ k = S k'
       /\ edge_of g w e /\ opposite e w = x.

(** The vertices of the graph that are not marked. *)
Definition unmarked {X} (g : Graph.Graph) (m : dict pyvertex X)
  : list Vertex :=
  filter (fun v => dict_mem (Some v) m = false)
         (dict_keys (Graph._structure g)).

(** What holds while the vertices [lvl] of level [l] are looked at and
    the edges [pend] are still to come. *)
Record Inv (g : Graph.Graph) (s : Vertex) (l : nat) (lvl : list pyvertex)
  (pend : pyvertex -> Edge -> Prop) (N : nat) (st : State) : Prop := mkInv {
  inv_real : forall x w k, dict_get x (marked st) = Some (w, k) ->
    path g s x k /\ entry_ok g s (marked st) x w k;
  inv_bound : forall x w k, dict_get x (marked st) = Some (w, k) ->
    k <= S l;
  inv_level : forall p, p ∈ lvl ->
    exists w, dict_get p (marked st) = Some (w, l);
  inv_next : forall x, x ∈ nextlevel st ->
    exists w, dict_get x (marked st) = Some (w, S l);
  inv_cover : forall p wp kp e,
    dict_get p (marked st) = Some (wp, kp) -> edge_of g p e ->
    pend p e \/ p ∈ nextlevel st
    \/ exists wx kx, dict_get (opposite e p) (marked st) = Some (wx, kx)
         /\ kx <= S kp;
  inv_graph : forall x, dict_mem x (marked st) = true ->
    exists v, x = Some v /\ dict_mem v (Graph._structure g) = true;
  inv_source : dict_get (Some s) (marked st) = Some (None, 0);
  inv_count : length (nextlevel st) + length (unmarked g (marked st)) <= N
}.

(** The edges still to come while the [for] over the edges of [cur]
    has [es] left and the [for] over the level has [rest] left. *)
Definition pending (cur : pyvertex) (es : list Edge) (rest : list pyvertex)
  : pyvertex -> Edge -> Prop :=
  fun p e => (p = cur /\ e ∈ es) \/ p ∈ rest.

End BFSInv.

(** *** The depth-first search with a stack *)

Module DFS.

Import Dijkstra.

(** The locals [marked] and [stack] of [dfs_stack]; the items of the
    stack are pairs of a vertex and the edge it was reached by, [None]
    for the start. *)
Record State : Type := mkState {
  marked : dict pyvertex (option Edge);
  stack : Stack.Stack (pyvertex * option Edge)
}.

(** A call of a method of [stack]. *)
Definition with_stack {A} (c : Stack.S A) : M State A :=
  fun st =>
    let '(o, s) := c (stack st) in
    (o, {| marked := marked st; stack := s |}).

(** Lines 267 and 268: the body of the [for]. *)
Definition push_edge (vertex : pyvertex) (e : Edge) : M State unit :=
  let w := opposite e vertex in
  with_stack (Stack.push (w, Some e)).

(** Lines 261 to 268: the [while] loop; a [None] from [pop] cannot be
    unpacked. *)
Fixpoint dfs_loop (g : Graph.Graph) (fuel : nat) : M State unit :=
  let* n := with_stack Stack.length in
  if (0 <? n) then
    match fuel with
    | 0 => out_of_fuel
    | S fuel' =>
        let* r := with_stack Stack.pop in
        match r with
        | None => raise TypeError
        | Some (vertex, edge) =>
            (let* st := get in
             if negb (dict_mem vertex (marked st)) then
               put {| marked := dict_set vertex edge (marked st);
                      stack := stack st |};;
               let* edges := iter_edges g vertex in
               for_each edges (push_edge vertex)
             else ret tt);;
            dfs_loop g fuel'
        end
    end
  else ret tt.

(** [Graph.dfs_stack]: every iteration of the [while] loop pops an
    item, and the items pushed are the one for the start and one for
    every edge kept under a vertex when it is marked, so one more
    iteration than the sum of the degrees is enough. *)
Definition dfs_stack (g : Graph.Graph) (v : Vertex)
  : outcome (dict pyvertex (option Edge)) :=
  match
    (with_stack (Stack.push (Some v, None));;
     dfs_loop g (S (GraphInv.total (Graph._structure g))))
      {| marked := []; stack := Stack.init |}
  with
  | (Return _, st) => Return (marked st)
  | (Raise e, _) => Raise e
  | (OutOfFuel, _) => OutOfFuel
  end.

End DFS.

Module DFSInv.

Import Dijkstra DijkstraMore BFSInv DFS.

(** How the pair of [x] and [e] comes about: [x] is the start, or [e]
    is an edge of a marked vertex that leads to [x]. *)
Definition item_ok (g : Graph.Graph) (s : Vertex)
  (m : dict pyvertex (option Edge)) (x : pyvertex) (e : option Edge)
  : Prop :=
  (x = Some s /\ e = None)
  \/ exists p e', e = Some e' /\ dict_mem p m = true
       /\ edge_of g p e' /\ opposite e' p = x.

(** The degrees of the vertices that are not marked. *)
Definition weight {X} (m : dict pyvertex X)
  (s : dict Vertex (dict Vertex Edge)) : nat :=
  sum_list_with
    (fun va : Vertex * dict Vertex Edge =>
       if dict_mem (Some va.1) m then 0 else length va.2) s.

(** What holds at the head of the [while] loop, of [marked] and the
    list of the stack. *)
Record Inv (g : Graph.Graph) (s : Vertex)
  (m : dict pyvertex (option Edge)) (l : list (pyvertex * option Edge))
  : Prop := mkInv {
  inv_real : forall x e, dict_get x m = Some e ->
    (exists n, path g s x n) /\ item_ok g s m x e;
  inv_items : forall w e, (w, e) ∈ l ->
    (exists n, path g s w n) /\ item_ok g s m w e
    /\ exists v, w = Some v /\ dict_mem v (Graph._structure g) = true;
  inv_cover : forall p e, dict_mem p m = true -> edge_of g p e ->
    dict_mem (opposite e p) m = true \/ exists e0, (opposite e p, e0) ∈ l;
  inv_source :
    (m = [] /\ l = [(Some s, None)]) \/ dict_get (Some s) m = Some None
}.

End DFSInv.

(** *** The recursive depth-first search *)

Module DFSRec.

Import Dijkstra.

(** The dictionary [marked], which every call of [_depthfirstsearch]
    changes in place: it is the state. *)
Abbreviation Marked := (dict pyvertex (option Edge)) (only parsing).

(** Lines 281 to 284: the body of the [for], with the recursive call
    as [rec]. *)
Definition visit (rec : pyvertex -> M Marked unit) (v : pyvertex)
  (e : Edge) : M Marked unit :=
  let w := opposite e v in
  let* marked := get in
  if negb (dict_mem w marked) then
    put (dict_set w (Some e) marked);;
    rec w
  else ret tt.

(** [Graph._depthfirstsearch]; the fuel bounds the depth of the
    recursion. *)
Fixpoint _depthfirstsearch (g : Graph.Graph) (fuel : nat) (v : pyvertex)
  : M Marked unit :=
  match fuel with
  | 0 => out_of_fuel
  | S fuel' =>
      let* edges := iter_edges g v in
      for_each edges (visit (_depthfirstsearch g fuel') v)
  end.

(** [Graph.depthfirstsearch]: every call but the first is for a vertex
    of the graph that has just been marked, so the recursion is never
    deeper than the graph has vertices. *)
Definition depthfirstsearch (g : Graph.Graph) (v : Vertex)
  : outcome (dict pyvertex (option Edge)) :=
  match
    _depthfirstsearch g (S (length (Graph._structure g))) (Some v)
      [(Some v, None)]
  with
  | (Return _, marked) => Return marked
  | (Raise e, _) => Raise e
  | (OutOfFuel, _) => OutOfFuel
  end.

End DFSRec.

Module DFSRecInv.

Import Dijkstra DijkstraMore BFSInv DFSInv.




End DFSRecInv.

(** *** The breadth-first search that keeps the edges *)

Module BFSEdges.

Import Dijkstra.

(** The locals [marked] and [nextlevel] of [breadthfirstsearch]. *)
Record State : Type := mkState {
  marked : dict pyvertex (option Edge);
  nextlevel : list pyvertex
}.

(** Lines 294 to 297: the body of the inner [for]. *)
Definition visit (w : pyvertex) (e : Edge) : M State unit :=
  let x := opposite e w in
  let* st := get in
  if negb (dict_mem x (marked st)) then
    put {| marked := dict_set x (Some e) (marked st);
           nextlevel := nextlevel st ++ [x] |}
  else ret tt.

(** Lines 293 to 297: the body of [for w in level]. *)
Definition scan (g : Graph.Graph) (w : pyvertex) : M State unit :=
  let* edges := iter_edges g w in
  for_each edges (visit w).

(** Lines 290 to 298: the [while] loop. *)
Fixpoint bfs_loop (g : Graph.Graph) (fuel : nat) (level : list pyvertex)
  : M State unit :=
  if (0 <? length level) then
    match fuel with
    | 0 => out_of_fuel
    | S fuel' =>
        (let* st := get in
         put {| marked := marked st; nextlevel := [] |});;
        for_each level (scan g);;
        let* st := get in
        bfs_loop g fuel' (nextlevel st)
    end
  else ret tt.

(** [Graph.breadthfirstsearch], with the fuel of [BFS_length]. *)
Definition breadthfirstsearch (g : Graph.Graph) (v : Vertex)
  : outcome (dict pyvertex (option Edge)) :=
  match
    bfs_loop g (S (length (Graph._structure g))) [Some v]
      {| marked := [(Some v, None)]; nextlevel := [] |}
  with
  | (Return _, st) => Return (marked st)
  | (Raise e, _) => Raise e
  | (OutOfFuel, _) => OutOfFuel
  end.

(** An entry of [breadthfirstsearch] beside the entry of [BFS_length]
    at the same place: the same vertex, and the edge of the one joins
    it to the parent of the other; the start has no edge and no
    parent. *)
Definition same_entry (a : pyvertex * option Edge)
  (b : pyvertex * (pyvertex * nat)) : Prop :=
  a.1 = b.1
  /\ match a.2 with
     | None => b.2.1 = None
     | Some e => opposite e b.2.1 = a.1
     end.

(** The two searches side by side. *)
Definition sim (st1 : State) (st2 : BFS.State) : Prop :=
  Forall2 same_entry (marked st1) (BFS.marked st2)
  /\ nextlevel st1 = BFS.nextlevel st2.

Definition agree (r1 : outcome unit * State)
  (r2 : outcome unit * BFS.State) : Prop :=
  match r1.1, r2.1 with
  | Return _, Return _ => sim r1.2 r2.2
  | Raise e1, Raise e2 => e1 = e2
  | OutOfFuel, OutOfFuel => True
  | _, _ => False
  end.

(** The two results side by side. *)
Definition same_result (o1 : outcome (dict pyvertex (option Edge)))
  (o2 : outcome (dict pyvertex (pyvertex * nat))) : Prop :=
  match o1, o2 with
  | Return d1, Return d2 => Forall2 same_entry d1 d2
  | Raise e1, Raise e2 => e1 = e2
  | OutOfFuel, OutOfFuel => True
  | _, _ => False
  end.

End BFSEdges.

(** ** The list of all edges *)

Module GraphEdges.

Import Graph.

(** [Graph.edges]: the two [for] loops go over the keys of the outer
    and of an inner dictionary in the order of insertion, and
    [self._structure[v][w]] is the value kept with the key [w]; an edge
    is appended when its first vertex is the outer key. *)
Definition edges : G (list Edge) :=
  fun g =>
    (Return
       (_structure g ≫= fun va =>
          filter (fun e => start e = va.1) (dict_values va.2)), g).

(** No key occurs twice, in the outer and in every inner dictionary. *)
Definition unique_keys (g : Graph) : Prop :=
  NoDup (dict_keys (_structure g))
  /\ forall v adj, (v, adj) ∈ _structure g -> NoDup (dict_keys adj).

End GraphEdges.

(** ** The topological sort of [graphs/directed.py] *)

Module TopSort.

Import Dijkstra DirectedGraph.

(** The locals [inedgecount], [tsort] and [available] of
    [topological_sort]. *)
Record State : Type := mkState {
  inedgecount : dict pyvertex Z;
  tsort : list pyvertex;
  available : list pyvertex
}.

(** [for e in self.get_edges(w)]: [get_edges] returns [None] for what
    is no key of the graph, and [None] cannot be iterated over. *)
Definition iter_outedges {S} (g : DirectedGraph) (w : pyvertex)
  : M S (list Edge) :=
  match w with
  | Some w' =>
      match (get_edges w' g).1 with
      | Return (Some edges) => ret edges
      | _ => raise TypeError
      end
  | None => raise TypeError
  end.

(** Lines 406 to 409: the body of the first [for]. *)
Definition count_in (g : DirectedGraph) (v : Vertex) : M State unit :=
  match (DirectedMore.in_degree v g).1 with
  | Return v_incount =>
      let* st := get in
      put {| inedgecount :=
               dict_set (Some v) (Z.of_nat v_incount) (inedgecount st);
             tsort := tsort st;
             available :=
               if decide (v_incount = 0) then available st ++ [Some v]
               else available st |}
  | Raise e => raise e
  | OutOfFuel => out_of_fuel
  end.

(** Lines 416 to 419: the body of the inner [for]; [inedgecount[u]]
    is read before it is written. *)
Definition release (w : pyvertex) (e : Edge) : M State unit :=
  let u := opposite e w in
  let* st := get in
  match dict_get u (inedgecount st) with
  | None => raise KeyError
  | Some c =>
      put {| inedgecount := dict_set u (c - 1)%Z (inedgecount st);
             tsort := tsort st;
             available :=
               if decide ((c - 1)%Z = 0%Z) then available st ++ [u]
               else available st |}
  end.

(** Lines 412 to 419: the [while] loop. *)
Fixpoint sort_loop (g : DirectedGraph) (fuel : nat) : M State unit :=
  let* st := get in
  if (0 <? length (available st)) then
    match fuel with
    | 0 => out_of_fuel
    | S fuel' =>
        match last (available st) with
        | None => raise IndexError
        | Some w =>
            put {| inedgecount := inedgecount st;
                   tsort := tsort st ++ [w];
                   available := removelast (available st) |};;
            let* edges := iter_outedges g w in
            for_each edges (release w);;
            sort_loop g fuel'
        end
    end
  else ret tt.

(** [DirectedGraph.topological_sort]: a vertex becomes available when
    its count is or becomes zero, at most once, so there is at most one
    iteration of the [while] loop for each vertex. *)
Definition topological_sort (g : DirectedGraph)
  : outcome (option (list pyvertex)) :=
  match
    (for_each (dict_keys (_structure g)) (count_in g);;
     sort_loop g (S (length (_structure g))))
      {| inedgecount := []; tsort := []; available := [] |}
  with
  | (Return _, st) =>
      Return (if decide (length (tsort st) = length (_structure g))
              then Some (tsort st) else None)
  | (Raise e, _) => Raise e
  | (OutOfFuel, _) => OutOfFuel
  end.

End TopSort.

Module TopSortInv.

Import Dijkstra DirectedGraph DirectedInv TopSort.

(** The vertices with an edge into [u], and those with an edge from
    [w]. *)
Definition preds (g : DirectedGraph) (u : Vertex) : list Vertex :=
  match dict_get u (_inedges g) with
  | Some iu => dict_keys iu
  | None => []
  end.

Definition succs (g : DirectedGraph) (w : Vertex) : list Vertex :=
  match dict_get w (_structure g) with
  | Some a => dict_keys a
  | None => []
  end.

(** The edge from [p] into [u] still counts: [p] is not sorted, or it
    is the vertex whose edges are being released and the edge to [u] is
    still to come. *)
Definition live (T : list pyvertex) (pend : option (Vertex * list Vertex))
  (u p : Vertex) : bool :=
  negb (bool_decide (Some p ∈ T))
  || match pend with
     | Some (cur, rest) => bool_decide (p = cur) && bool_decide (u ∈ rest)
     | None => false
     end.

(** What the dictionaries of a directed graph made by [add_vertex] and
    [add_edge] are like. *)
Record shaped (g : DirectedGraph) : Prop := mkShaped {
  sh_consistent : consistent g;
  sh_agree : forall v w, out_edge_at g v w = in_edge_at g w v;
  sh_ends : forall v w e, out_edge_at g v w = Some e -> _vertices e = (v, w);
  sh_keys : NoDup (dict_keys (_structure g));
  sh_out : forall v a, dict_get v (_structure g) = Some a ->
    NoDup (dict_keys a);
  sh_in : forall u iu, dict_get u (_inedges g) = Some iu ->
    NoDup (dict_keys iu);
  sh_target : forall v w e, out_edge_at g v w = Some e ->
    dict_mem w (_structure g) = true
}.

(** What holds of the locals in the [while] loop. *)
Record Inv (g : DirectedGraph) (pend : option (Vertex * list Vertex))
  (st : State) : Prop := mkInv {
  inv_keys : forall x, dict_mem x (inedgecount st) = true ->
    exists u, x = Some u /\ dict_mem u (_structure g) = true;
  inv_count : forall u, dict_mem u (_structure g) = true ->
    dict_get (Some u) (inedgecount st)
    = Some (Z.of_nat
              (length (filter (fun p => live (tsort st) pend u p = true)
                              (preds g u))));
  inv_nodup : NoDup (available st ++ tsort st);
  inv_vertices : forall x, x ∈ available st ++ tsort st ->
    exists v, x = Some v /\ dict_mem v (_structure g) = true;
  inv_zero : forall u, dict_mem u (_structure g) = true ->
    (dict_get (Some u) (inedgecount st) = Some 0%Z
     <-> Some u ∈ available st ++ tsort st);
  inv_order : forall u T1 T2, tsort st = T1 ++ Some u :: T2 ->
    forall p, p ∈ preds g u -> Some p ∈ T1;
  inv_pend :
    match pend with
    | Some (cur, rest) =>
        Some cur ∈ tsort st /\ NoDup rest
        /\ forall u, u ∈ rest -> u ∈ succs g cur
    | None => True
    end
}.

End TopSortInv.

(** * Proofs *)

Lemma bind_Return {S A B} (c : M S A) (k : A -> M S B) s a s' :
  c s = (Return a, s') -> bind c k s = k a s'.
Proof. unfold bind. intros ->. reflexivity. Qed.

Lemma bind_Raise {S A B} (c : M S A) (k : A -> M S B) s e s' :
  c s = (Raise e, s') -> bind c k s = (Raise e, s').
Proof. unfold bind. intros ->. reflexivity. Qed.


Section APQFacts.

Import APQ APQInv.

Local Abbreviation length := List.length.

Context {V : Type}.

Implicit Types h : Heap_APQ V.

Lemma parent_lt i : 0 < i -> parent i < i.
Proof.
  intros Hi. unfold parent.
  apply Nat.le_lt_trans with (i - 1); [apply Nat.Div0.div_le_upper_bound; lia | lia].
Qed.

Lemma parent_spec i : 0 < i -> i = 2 * parent i + 1 \/ i = 2 * parent i + 2.
Proof.
  intros Hi. unfold parent.
  pose proof (Nat.div_mod_eq (i - 1) 2) as E.
  pose proof (Nat.mod_upper_bound (i - 1) 2 ltac:(lia)) as B.
  lia.
Qed.

Lemma parent_left i : parent (i * 2 + 1) = i.
Proof.
  unfold parent. replace (i * 2 + 1 - 1) with (i * 2) by lia.
  apply Nat.div_mul. lia.
Qed.

Lemma parent_right i : parent (i * 2 + 2) = i.
Proof.
  unfold parent. replace (i * 2 + 2 - 1) with (1 + i * 2) by lia.
  rewrite Nat.div_add by lia. reflexivity.
Qed.

Lemma body_get_run h i r :
  _body h !! i = Some r -> body_get i h = (Return r, h).
Proof. unfold body_get. intros ->. reflexivity. Qed.

Lemma deref_run h r e :
  objects h !! r = Some e -> deref r h = (Return e, h).
Proof. unfold deref. intros ->. reflexivity. Qed.

Lemma elt_lt_run h a b ea eb :
  objects h !! a = Some ea -> objects h !! b = Some eb ->
  elt_lt a b h = (Return (_key ea <? _key eb)%Z, h).
Proof.
  intros Ha Hb. unfold elt_lt.
  erewrite bind_Return by (apply deref_run; eassumption).
  erewrite bind_Return by (apply deref_run; eassumption).
  reflexivity.
Qed.

Lemma body_set_run h i r :
  i < length (_body h) ->
  body_set i r h =
  (Return tt, {| objects := objects h; _body := <[i := r]> (_body h);
                 _size := _size h |}).
Proof.
  intros Hi. unfold body_set. rewrite bool_decide_eq_true_2 by exact Hi.
  reflexivity.
Qed.

Lemma set_index_run h r e i :
  objects h !! r = Some e ->
  set_index r i h =
  (Return tt,
   {| objects := <[r := mkElement (_key e) (_value e) i]> (objects h);
      _body := _body h; _size := _size h |}).
Proof. unfold set_index. intros ->. reflexivity. Qed.

Lemma index_inv_inj h i j r :
  index_inv h -> _body h !! i = Some r -> _body h !! j = Some r -> i = j.
Proof.
  intros Hinv Hi Hj.
  destruct (Hinv _ _ Hi) as (e & He & <-).
  destruct (Hinv _ _ Hj) as (e' & He' & <-).
  congruence.
Qed.

Lemma frame_refl h : frame h h.
Proof. intros r e He. eauto. Qed.

Lemma frame_trans h1 h2 h3 : frame h1 h2 -> frame h2 h3 -> frame h1 h3.
Proof.
  intros H12 H23 r e He.
  destruct (H12 _ _ He) as (e2 & He2 & Hk2 & Hv2).
  destruct (H23 _ _ He2) as (e3 & He3 & Hk3 & Hv3).
  exists e3. split; [exact He3 | split; congruence].
Qed.

Lemma rearranged_refl h : wf h -> rearranged h h.
Proof.
  intros Hwf. repeat split; auto using frame_refl.
  all: destruct Hwf; auto.
Qed.

Lemma rearranged_trans h1 h2 h3 :
  rearranged h1 h2 -> rearranged h2 h3 -> rearranged h1 h3.
Proof.
  intros (_ & Hs & Hl & Ho & Hf & Hm) (Hwf & Hs' & Hl' & Ho' & Hf' & Hm').
  split; [exact Hwf |].
  split; [congruence |]. split; [congruence |]. split; [congruence |].
  split; [eauto using frame_trans |].
  intros r. rewrite Hm'. apply Hm.
Qed.

Lemma key_ref_frame h h' r :
  frame h h' -> is_Some (objects h !! r) -> key_ref h' r = key_ref h r.
Proof.
  intros Hf [e He]. unfold key_ref.
  destruct (Hf _ _ He) as (e' & He' & Hk & _).
  rewrite He, He'. exact Hk.
Qed.

Lemma transp_invol i j k : transp i j (transp i j k) = k.
Proof. unfold transp. repeat case_decide; congruence. Qed.

Lemma transp_lt i j k n : i < n -> j < n -> k < n -> transp i j k < n.
Proof. unfold transp. repeat case_decide; lia. Qed.

(** The tuple assignment and the two index updates exchange two slots
    and keep every element's index equal to its position. *)
Lemma swap_spec h i j :
  wf h -> i < length (_body h) -> j < length (_body h) -> i <> j ->
  exists h', swap i j h = (Return tt, h') /\ rearranged h h'
    /\ (forall k, _body h' !! k = _body h !! transp i j k).
Proof.
  intros [Hsz Hinv] Hi Hj Hij.
  destruct (lookup_lt_is_Some_2 _ _ Hi) as [ri Hri].
  destruct (lookup_lt_is_Some_2 _ _ Hj) as [rj Hrj].
  destruct (Hinv _ _ Hri) as (ei & Hei & Hii).
  destruct (Hinv _ _ Hrj) as (ej & Hej & Hij').
  assert (Hne : ri <> rj).
  { intros ->. apply Hij. eapply index_inv_inj; eauto. }
  eexists. split.
  { unfold swap.
    erewrite bind_Return by (apply body_get_run; eassumption).
    erewrite bind_Return by (apply body_get_run; eassumption).
    erewrite bind_Return by (apply body_set_run; eassumption).
    erewrite bind_Return
      by (apply body_set_run; simpl; rewrite length_insert; eassumption).
    erewrite bind_Return.
    2:{ apply body_get_run. simpl.
        rewrite list_lookup_insert_ne by congruence.
        apply list_lookup_insert_eq. exact Hi. }
    erewrite bind_Return by (apply set_index_run; simpl; eassumption).
    erewrite bind_Return.
    2:{ apply body_get_run. simpl.
        apply list_lookup_insert_eq. rewrite length_insert. exact Hj. }
    apply set_index_run. simpl.
    rewrite list_lookup_insert_ne by congruence. exact Hei. }
  assert (Hlook : forall k,
    <[j:=ri]> (<[i:=rj]> (_body h)) !! k = _body h !! transp i j k).
  { intros k. unfold transp.
    destruct (decide (k = i)) as [-> |Hki].
    - rewrite list_lookup_insert_ne by congruence.
      rewrite list_lookup_insert_eq by exact Hi. congruence.
    - destruct (decide (k = j)) as [-> |Hkj].
      + rewrite list_lookup_insert_eq by (rewrite length_insert; exact Hj).
        congruence.
      + rewrite !list_lookup_insert_ne by congruence. reflexivity. }
  assert (Hfr : forall r e, objects h !! r = Some e ->
    exists e',
      <[ri:=mkElement (_key ei) (_value ei) j]>
        (<[rj:=mkElement (_key ej) (_value ej) i]> (objects h)) !! r = Some e'
      /\ _key e' = _key e /\ _value e' = _value e
      /\ (r <> ri -> r <> rj -> e' = e)).
  { intros r e He.
    destruct (decide (r = ri)) as [-> |Hr1].
    - eexists. split.
      + apply list_lookup_insert_eq. rewrite length_insert.
        eapply lookup_lt_Some; eauto.
      + simpl. split; [congruence | split; [congruence | tauto]].
    - rewrite list_lookup_insert_ne by congruence.
      destruct (decide (r = rj)) as [-> |Hr2].
      + eexists. split.
        * apply list_lookup_insert_eq. eapply lookup_lt_Some; eauto.
        * simpl. split; [congruence | split; [congruence | tauto]].
      + rewrite list_lookup_insert_ne by congruence. eauto. }
  split; [| exact Hlook].
  split; [| simpl; split; [reflexivity |]; split;
              [rewrite !length_insert; reflexivity |]; split;
              [rewrite !length_insert; reflexivity |]; split].
  - split; simpl.
    + rewrite !length_insert. exact Hsz.
    + intros k r Hk. simpl in Hk. rewrite Hlook in Hk.
      unfold transp in Hk.
      destruct (decide (k = i)) as [-> |Hki];
        [| destruct (decide (k = j)) as [-> |Hkj]].
      * assert (r = rj) as -> by congruence.
        exists (mkElement (_key ej) (_value ej) i). split; [| reflexivity].
        simpl. rewrite list_lookup_insert_ne by congruence.
        apply list_lookup_insert_eq. eapply lookup_lt_Some; eauto.
      * assert (r = ri) as -> by congruence.
        exists (mkElement (_key ei) (_value ei) j). split; [| reflexivity].
        simpl. apply list_lookup_insert_eq. rewrite length_insert.
        eapply lookup_lt_Some; eauto.
      * destruct (Hinv _ _ Hk) as (e & He & Hidx).
        destruct (Hfr _ _ He) as (e' & He' & _ & _ & Hsame).
        exists e'. split; [exact He' |].
        rewrite Hsame; [exact Hidx | |].
        -- intros ->. eauto using index_inv_inj.
        -- intros ->. eauto using index_inv_inj.
  - intros r e He. destruct (Hfr _ _ He) as (e' & He' & Hk & Hv & _). eauto.
  - intros r. simpl. rewrite !list_elem_of_lookup. split.
    + intros [k Hk]. rewrite Hlook in Hk. eauto.
    + intros [k Hk]. exists (transp i j k). rewrite Hlook, transp_invol.
      exact Hk.
Qed.

Lemma key_at_moved h h' (f : nat -> nat) :
  wf h -> frame h h' ->
  (forall k, _body h' !! k = _body h !! f k) ->
  forall k, key_at h' k = key_at h (f k).
Proof.
  intros [_ Hinv] Hf Hb k. unfold key_at. rewrite Hb.
  destruct (_body h !! f k) as [r|] eqn:E; [| reflexivity].
  apply key_ref_frame; [exact Hf |].
  destruct (Hinv _ _ E) as (e & He & _). eauto.
Qed.

Lemma key_at_cell h i r e :
  _body h !! i = Some r -> objects h !! r = Some e -> key_at h i = _key e.
Proof. intros Hr He. unfold key_at, key_ref. rewrite Hr, He. reflexivity. Qed.

Lemma bubbleup_loop_unfold fuel i :
  bubbleup_loop (V:=V) fuel i =
  if bool_decide (0 < i) then
    match fuel with
    | 0 => out_of_fuel
    | S fuel' =>
        let* ri := body_get i in
        let* rp := body_get (parent i) in
        let* lt := elt_lt ri rp in
        if lt then swap i (parent i);; bubbleup_loop fuel' (parent i)
        else bubbleup_loop fuel' 0
    end
  else ret tt.
Proof. destruct fuel; reflexivity. Qed.

Lemma bubbleup_loop_0 fuel h : bubbleup_loop fuel 0 h = (Return tt, h).
Proof. destruct fuel; reflexivity. Qed.

Lemma up_inv_heap h i :
  up_inv h i -> (i = 0 \/ (key_at h (parent i) <= key_at h i)%Z) ->
  heap_ordered h.
Proof.
  intros [Ha _] Hi j Hj.
  destruct (decide (j = i)) as [-> |Hne]; [| auto].
  destruct Hi as [-> | Hi]; [lia | exact Hi].
Qed.

(** One iteration of [bubbleup] that swaps moves the exception one
    level up. *)
Lemma up_inv_swap h h1 i :
  0 < i -> up_inv h i ->
  (key_at h i < key_at h (parent i))%Z ->
  length (_body h1) = length (_body h) ->
  (forall k, key_at h1 k = key_at h (transp i (parent i) k)) ->
  up_inv h1 (parent i).
Proof.
  intros Hi [Ha Hg] Hlt Hlen Hk.
  pose proof (parent_lt i Hi) as Hp.
  split.
  - intros j Hj Hjp. rewrite Hlen in Hj. rewrite !Hk. unfold transp.
    destruct (decide (j = i)) as [-> |Hji].
    + rewrite decide_False by lia. rewrite decide_True by reflexivity. lia.
    + rewrite (decide_False (P := j = parent i)) by exact Hjp.
      destruct (decide (parent j = i)) as [E|E].
      * apply Hg; [lia | lia | exact E].
      * destruct (decide (parent j = parent i)) as [E'|E'].
        -- specialize (Ha j Hj Hji). rewrite E' in Ha. lia.
        -- apply Ha; [exact Hj | exact Hji].
  - intros c Hc Hp0 Hpc. rewrite Hlen in Hc. rewrite !Hk. unfold transp.
    pose proof (parent_lt _ Hp0) as Hpp.
    rewrite (decide_False (P := parent (parent i) = i)) by lia.
    rewrite (decide_False (P := parent (parent i) = parent i)) by lia.
    assert (Hcp : 0 < c).
    { destruct (decide (c = 0)) as [-> |]; [| lia].
      change (parent 0) with 0 in Hpc. lia. }
    pose proof (parent_lt _ Hcp) as Hcc.
    assert (Hpi : (key_at h (parent (parent i)) <= key_at h (parent i))%Z).
    { apply Ha; lia. }
    destruct (decide (c = i)) as [-> |Hci]; [exact Hpi |].
    rewrite (decide_False (P := c = parent i)) by lia.
    specialize (Ha c ltac:(lia) Hci). rewrite Hpc in Ha. lia.
Qed.

(** [bubbleup] returns, keeps the elements and their indices, and
    repairs an exception at slot [i]; it changes nothing when the
    element in slot [i] is not below its parent. *)
Lemma bubbleup_loop_spec fuel : forall i h,
  i <= fuel -> wf h -> i < length (_body h) \/ i = 0 ->
  exists h', bubbleup_loop fuel i h = (Return tt, h') /\ rearranged h h'
    /\ (up_inv h i -> heap_ordered h')
    /\ (i = 0 \/ (key_at h (parent i) <= key_at h i)%Z -> h' = h).
Proof.
  induction fuel as [|fuel IH]; intros i h Hfuel Hwf Hi.
  - assert (i = 0) as -> by lia. exists h.
    split; [reflexivity |]. split; [apply rearranged_refl, Hwf |].
    split; [| reflexivity]. intros Hup. eapply up_inv_heap; eauto.
  - rewrite bubbleup_loop_unfold.
    destruct (decide (0 < i)) as [Hpos|Hzero].
    2:{ rewrite bool_decide_eq_false_2 by exact Hzero.
        assert (i = 0) as -> by lia. exists h.
        split; [reflexivity |]. split; [apply rearranged_refl, Hwf |].
        split; [| reflexivity]. intros Hup. eapply up_inv_heap; eauto. }
    rewrite bool_decide_eq_true_2 by exact Hpos.
    destruct Hi as [Hi|Hi]; [| lia].
    pose proof (parent_lt i Hpos) as Hp.
    destruct (lookup_lt_is_Some_2 (_body h) i Hi) as [ri Hri].
    destruct (lookup_lt_is_Some_2 (_body h) (parent i) ltac:(lia)) as [rp Hrp].
    destruct Hwf as [Hsz Hinv].
    destruct (Hinv _ _ Hri) as (ei & Hei & _).
    destruct (Hinv _ _ Hrp) as (ep & Hep & _).
    erewrite bind_Return by (apply body_get_run; eassumption).
    erewrite bind_Return by (apply body_get_run; eassumption).
    erewrite bind_Return by (apply elt_lt_run; eassumption).
    rewrite <- (key_at_cell h i ri ei Hri Hei).
    rewrite <- (key_at_cell h (parent i) rp ep Hrp Hep).
    destruct (Z.ltb_spec (key_at h i) (key_at h (parent i))) as [Hlt|Hge].
    + destruct (swap_spec h i (parent i)) as (h1 & Hrun & Hre & Hlook);
        [split; assumption | lia | lia | lia |].
      erewrite bind_Return by exact Hrun.
      pose proof Hre as (Hwf1 & Hs1 & Hl1 & Ho1 & Hf1 & Hm1).
      destruct (IH (parent i) h1) as (h' & Hrun' & Hre' & Hup' & _);
        [lia | exact Hwf1 | left; lia |].
      exists h'. split; [exact Hrun' |].
      split; [eapply rearranged_trans; eassumption |].
      split.
      * intros Hup. apply Hup'.
        eapply up_inv_swap; eauto.
        apply key_at_moved; [split; assumption | exact Hf1 | exact Hlook].
      * intros [-> | Hle]; lia.
    + rewrite bubbleup_loop_0. exists h.
      split; [reflexivity |]. split; [apply rearranged_refl; split; auto |].
      split; [| reflexivity]. intros Hup. eapply up_inv_heap; eauto.
Qed.

Lemma bubbledown_loop_unfold fuel i last :
  bubbledown_loop (V:=V) fuel i last =
  if bool_decide (i * 2 < last) then
    match fuel with
    | 0 => out_of_fuel
    | S fuel' =>
        let* minc := min_child i last in
        let* ri := body_get i in
        let* rm := body_get minc in
        let* gt := elt_gt ri rm in
        if gt then swap i minc;; bubbledown_loop fuel' minc last
        else bubbledown_loop fuel' last last
    end
  else ret tt.
Proof. destruct fuel; reflexivity. Qed.

Lemma bubbledown_loop_done fuel last h :
  bubbledown_loop fuel last last h = (Return tt, h).
Proof.
  rewrite bubbledown_loop_unfold.
  rewrite bool_decide_eq_false_2 by lia. reflexivity.
Qed.

Lemma down_inv_heap h i :
  down_inv h i ->
  (forall c, c < length (_body h) -> 0 < c -> parent c = i ->
     (key_at h i <= key_at h c)%Z) ->
  heap_ordered h.
Proof.
  intros [Ha _] Hc j Hj.
  destruct (decide (parent j = i)) as [E|E]; [| apply Ha; auto].
  rewrite E. apply Hc; [lia | lia | exact E].
Qed.

Lemma heap_down_inv h i : heap_ordered h -> down_inv h i.
Proof.
  intros Hh. split.
  - intros j Hj _. apply Hh, Hj.
  - intros c Hc Hi Hp.
    assert (0 < c).
    { destruct (decide (c = 0)) as [-> |]; [| lia].
      change (parent 0) with 0 in Hp. lia. }
    pose proof (parent_lt c ltac:(lia)).
    transitivity (key_at h (parent c)).
    + rewrite Hp. apply Hh. lia.
    + apply Hh. lia.
Qed.

(** The child [min_child] picks exists and is no larger than any child
    of [i]. *)
Lemma min_child_spec h i last :
  wf h -> S last = length (_body h) -> i * 2 < last ->
  exists m, min_child i last h = (Return m, h)
    /\ parent m = i /\ 0 < m /\ m <= last
    /\ (forall c, c < length (_body h) -> 0 < c -> parent c = i ->
          (key_at h m <= key_at h c)%Z).
Proof.
  intros [Hsz Hinv] Hlast Hi. unfold min_child.
  assert (Hchild : forall c, 0 < c -> parent c = i ->
            c = i * 2 + 1 \/ c = i * 2 + 2).
  { intros c Hc Hp. pose proof (parent_spec c Hc). lia. }
  destruct (decide (i * 2 + 1 < last)) as [Hrc|Hrc].
  - rewrite bool_decide_eq_true_2 by exact Hrc.
    destruct (lookup_lt_is_Some_2 (_body h) (i * 2 + 2) ltac:(lia))
      as [rr Hrr].
    destruct (lookup_lt_is_Some_2 (_body h) (i * 2 + 1) ltac:(lia))
      as [rl Hrl].
    destruct (Hinv _ _ Hrr) as (er & Her & _).
    destruct (Hinv _ _ Hrl) as (el & Hel & _).
    erewrite bind_Return by (apply body_get_run; eassumption).
    erewrite bind_Return by (apply body_get_run; eassumption).
    erewrite bind_Return by (apply elt_lt_run; eassumption).
    rewrite <- (key_at_cell h _ rr er Hrr Her).
    rewrite <- (key_at_cell h _ rl el Hrl Hel).
    destruct (Z.ltb_spec (key_at h (i * 2 + 2)) (key_at h (i * 2 + 1)))
      as [Hlt|Hge].
    + exists (i * 2 + 2). split; [reflexivity |].
      split; [apply parent_right |]. split; [lia |]. split; [lia |].
      intros c _ Hc Hp. destruct (Hchild c Hc Hp) as [-> | ->]; lia.
    + exists (i * 2 + 1). split; [reflexivity |].
      split; [apply parent_left |]. split; [lia |]. split; [lia |].
      intros c _ Hc Hp. destruct (Hchild c Hc Hp) as [-> | ->]; lia.
  - rewrite bool_decide_eq_false_2 by exact Hrc.
    exists (i * 2 + 1). split; [reflexivity |].
    split; [apply parent_left |]. split; [lia |]. split; [lia |].
    intros c Hlt Hc Hp. destruct (Hchild c Hc Hp) as [-> | ->]; lia.
Qed.

(** One iteration of [bubbledown] that swaps moves the exception one
    level down. *)
Lemma down_inv_swap h h1 i m :
  parent m = i -> 0 < m -> m < length (_body h) ->
  down_inv h i ->
  (key_at h m < key_at h i)%Z ->
  (forall c, c < length (_body h) -> 0 < c -> parent c = i ->
     (key_at h m <= key_at h c)%Z) ->
  length (_body h1) = length (_body h) ->
  (forall k, key_at h1 k = key_at h (transp i m k)) ->
  down_inv h1 m.
Proof.
  intros Hpm Hm0 Hm [Ha Hg] Hlt Hmin Hlen Hk.
  pose proof (parent_lt m Hm0) as Him. rewrite Hpm in Him.
  split.
  - intros j Hj Hjm. rewrite Hlen in Hj. rewrite !Hk. unfold transp.
    destruct (decide (j = m)) as [-> |Hjm'].
    + rewrite Hpm. rewrite (decide_True (P := i = i)) by reflexivity.
      rewrite (decide_False (P := m = i)) by lia. lia.
    + destruct (decide (j = i)) as [-> |Hji].
      * pose proof (parent_lt i ltac:(lia)).
        rewrite (decide_False (P := parent i = i)) by lia.
        rewrite (decide_False (P := parent i = m)) by lia.
        apply Hg; [exact Hm | lia | exact Hpm].
      * destruct (decide (parent j = i)) as [E|E].
        -- apply Hmin; [lia | lia | exact E].
        -- rewrite (decide_False (P := parent j = m)) by exact Hjm.
           apply Ha; [exact Hj | exact E].
  - intros c Hc _ Hpc. rewrite Hlen in Hc. rewrite !Hk. unfold transp.
    rewrite Hpm. rewrite (decide_True (P := i = i)) by reflexivity.
    assert (0 < c).
    { destruct (decide (c = 0)) as [-> |]; [| lia].
      change (parent 0) with 0 in Hpc. lia. }
    pose proof (parent_lt c ltac:(lia)).
    rewrite (decide_False (P := c = i)) by lia.
    rewrite (decide_False (P := c = m)) by lia.
    specialize (Ha c ltac:(lia) ltac:(lia)). rewrite Hpc in Ha. exact Ha.
Qed.

(** [bubbledown] returns, keeps the elements and their indices, and
    repairs an exception at slot [i]. *)
Lemma bubbledown_loop_spec fuel : forall i h last,
  last - i <= fuel -> wf h -> S last = length (_body h) -> i <= last ->
  exists h', bubbledown_loop fuel i last h = (Return tt, h')
    /\ rearranged h h' /\ (down_inv h i -> heap_ordered h').
Proof.
  induction fuel as [|fuel IH]; intros i h last Hfuel Hwf Hlast Hi;
    rewrite bubbledown_loop_unfold;
    (destruct (decide (i * 2 < last)) as [Hc|Hc];
     [rewrite bool_decide_eq_true_2 by exact Hc
     |rewrite bool_decide_eq_false_2 by exact Hc]).
  - lia.
  - exists h. split; [reflexivity |]. split; [apply rearranged_refl, Hwf |].
    intros Hd. eapply down_inv_heap; [exact Hd |].
    intros c Hlt Hc0 Hp. pose proof (parent_spec c Hc0). lia.
  - destruct (min_child_spec h i last Hwf Hlast Hc)
      as (m & Hrun & Hpm & Hm0 & Hm & Hmin).
    erewrite bind_Return by exact Hrun.
    destruct (lookup_lt_is_Some_2 (_body h) i ltac:(lia)) as [ri Hri].
    destruct (lookup_lt_is_Some_2 (_body h) m ltac:(lia)) as [rm Hrm].
    pose proof Hwf as [Hsz Hinv].
    destruct (Hinv _ _ Hri) as (ei & Hei & _).
    destruct (Hinv _ _ Hrm) as (em & Hem & _).
    erewrite bind_Return by (apply body_get_run; eassumption).
    erewrite bind_Return by (apply body_get_run; eassumption).
    unfold elt_gt.
    erewrite bind_Return by (apply elt_lt_run; eassumption).
    rewrite <- (key_at_cell h i ri ei Hri Hei).
    rewrite <- (key_at_cell h m rm em Hrm Hem).
    pose proof (parent_lt m Hm0) as Him. rewrite Hpm in Him.
    destruct (Z.ltb_spec (key_at h m) (key_at h i)) as [Hlt|Hge].
    + destruct (swap_spec h i m) as (h1 & Hrun1 & Hre & Hlook);
        [exact Hwf | lia | lia | lia |].
      erewrite bind_Return by exact Hrun1.
      pose proof Hre as (Hwf1 & Hs1 & Hl1 & Ho1 & Hf1 & Hm1).
      destruct (IH m h1 last) as (h' & Hrun' & Hre' & Hd');
        [lia | exact Hwf1 | lia | lia |].
      exists h'. split; [exact Hrun' |].
      split; [eapply rearranged_trans; eassumption |].
      intros Hd. apply Hd'.
      eapply (down_inv_swap h h1 i m); eauto; [lia |].
      apply key_at_moved; [exact Hwf | exact Hf1 | exact Hlook].
    + rewrite bubbledown_loop_done. exists h.
      split; [reflexivity |]. split; [apply rearranged_refl, Hwf |].
      intros Hd. eapply down_inv_heap; [exact Hd |].
      intros c Hlt Hc0 Hp. specialize (Hmin c Hlt Hc0 Hp). lia.
  - exists h. split; [reflexivity |]. split; [apply rearranged_refl, Hwf |].
    intros Hd. eapply down_inv_heap; [exact Hd |].
    intros c Hlt Hc0 Hp. pose proof (parent_spec c Hc0). lia.
Qed.

Lemma frame_frame_val h h' : frame h h' -> frame_val h h'.
Proof.
  intros Hf r e He. destruct (Hf _ _ He) as (e' & He' & _ & Hv). eauto.
Qed.

Lemma frame_val_trans h1 h2 h3 :
  frame_val h1 h2 -> frame_val h2 h3 -> frame_val h1 h3.
Proof.
  intros H12 H23 r e He.
  destruct (H12 _ _ He) as (e2 & He2 & Hv2).
  destruct (H23 _ _ He2) as (e3 & He3 & Hv3).
  exists e3. split; [exact He3 | congruence].
Qed.

Lemma body_ref_valid h i r :
  wf h -> _body h !! i = Some r -> r < length (objects h).
Proof.
  intros [_ Hinv] Hr. destruct (Hinv _ _ Hr) as (e & He & _).
  eapply lookup_lt_Some; eauto.
Qed.

Lemma good_init : good (@init V).
Proof.
  split; [split |].
  - reflexivity.
  - intros i r Hr. simpl in Hr. rewrite lookup_nil in Hr. discriminate.
  - intros i Hi. simpl in Hi. lia.
Qed.

(** [add] returns the new element, which is in the queue with the key
    and value given; the other elements stay. *)
Lemma add_spec h k v :
  good h ->
  exists h', add k v h = (Return (length (objects h)), h') /\ good h'
    /\ _size h' = S (_size h)
    /\ length (objects h') = S (length (objects h))
    /\ frame h h'
    /\ (exists e, objects h' !! length (objects h) = Some e
          /\ _key e = k /\ _value e = v)
    /\ (forall r, r ∈ _body h' <-> r ∈ _body h \/ r = length (objects h)).
Proof.
  intros [Hwf Hheap]. pose proof Hwf as [Hsz Hinv].
  set (h1 := {| objects := objects h ++ [mkElement k v (_size h)];
                _body := _body h ++ [length (objects h)];
                _size := _size h + 1 |}).
  assert (Hwf1 : wf h1).
  { split; simpl.
    - rewrite length_app. simpl. lia.
    - intros i r Hr. simpl in Hr.
      apply lookup_app_Some in Hr as [Hr | [Hge Hr]].
      + destruct (Hinv _ _ Hr) as (e & He & Hi). exists e.
        split; [apply lookup_app_l_Some, He | exact Hi].
      + apply list_lookup_singleton_Some in Hr as [Hi <-].
        exists (mkElement k v (_size h)). split.
        * simpl. rewrite lookup_app_r by lia.
          rewrite Nat.sub_diag. reflexivity.
        * simpl. lia. }
  assert (Hf1 : frame h h1).
  { intros r e He. exists e. split; [apply lookup_app_l_Some, He | auto]. }
  assert (Hkey : forall j, j < length (_body h) -> key_at h1 j = key_at h j).
  { intros j Hj. unfold key_at. simpl. rewrite lookup_app_l by exact Hj.
    destruct (_body h !! j) as [r|] eqn:E; [| reflexivity].
    apply key_ref_frame; [exact Hf1 |].
    destruct (Hinv _ _ E) as (e & He & _). eauto. }
  assert (Hup : up_inv h1 (length (_body h))).
  { split.
    - intros j Hj Hne. simpl in Hj. rewrite length_app in Hj. simpl in Hj.
      pose proof (parent_lt j ltac:(lia)).
      rewrite !Hkey by lia. apply Hheap. lia.
    - intros c Hc Hpos Hp. simpl in Hc. rewrite length_app in Hc.
      simpl in Hc.
      assert (0 < c).
      { destruct (decide (c = 0)) as [-> |]; [| lia].
        change (parent 0) with 0 in Hp. lia. }
      pose proof (parent_spec c ltac:(lia)). lia. }
  destruct (bubbleup_loop_spec (length (_body h)) (length (_body h)) h1)
    as (h' & Hrun & Hre & Hheap' & _);
    [lia | exact Hwf1 | left; simpl; rewrite length_app; simpl; lia |].
  pose proof Hre as (Hwf' & Hs' & Hl' & Ho' & Hf' & Hm').
  exists h'. split.
  { unfold add, bind, get_size, new_Element, body_append, set_size, ret.
    simpl. fold h1.
    replace (_size h + 1 - 1) with (length (_body h)) by lia.
    unfold bubbleup. rewrite Hrun. reflexivity. }
  split; [split; auto |].
  split; [rewrite Hs'; simpl; lia |].
  split; [rewrite Ho'; simpl; rewrite length_app; simpl; lia |].
  split; [eapply frame_trans; eassumption |].
  split.
  - destruct (Hf' (length (objects h)) (mkElement k v (_size h)))
      as (e' & He' & Hk' & Hv').
    { simpl. rewrite lookup_app_r by lia. rewrite Nat.sub_diag. reflexivity. }
    exists e'. auto.
  - intros r. rewrite Hm'. simpl. rewrite elem_of_app, list_elem_of_singleton.
    reflexivity.
Qed.

Lemma lookup_removelast {A} (l : list A) k :
  removelast l !! k = if decide (k < length l - 1) then l !! k else None.
Proof.
  rewrite removelast_firstn_len, lookup_take.
  repeat case_decide; try reflexivity; lia.
Qed.

Lemma length_removelast {A} (l : list A) :
  length (removelast l) = length l - 1.
Proof. rewrite removelast_firstn_len, length_take. lia. Qed.

Lemma body_pop_run h :
  0 < length (_body h) ->
  body_pop h =
  (Return tt, {| objects := objects h; _body := removelast (_body h);
                 _size := _size h |}).
Proof.
  intros Hn. unfold body_pop. destruct (_body h); [simpl in Hn; lia |].
  reflexivity.
Qed.

(** The state in which [remove_min] and [remove] start to bubble: the
    last element stands in slot [idx], with its index set. *)
Lemma take_out h idx l el :
  good h -> idx + 1 < length (_body h) ->
  _body h !! (length (_body h) - 1) = Some l ->
  objects h !! l = Some el ->
  let h3 := {| objects :=
                 <[l := mkElement (_key el) (_value el) idx]> (objects h);
               _body := removelast (<[idx := l]> (_body h));
               _size := _size h - 1 |} in
  wf h3 /\ almost_inv h3 idx /\ frame h h3
  /\ length (_body h3) = length (_body h) - 1
  /\ length (objects h3) = length (objects h)
  /\ _body h3 !! idx = Some l
  /\ (forall x r0, _body h !! idx = Some r0 ->
        (x ∈ _body h3 <-> x ∈ _body h /\ x <> r0)).
Proof.
  intros [Hwf Hheap] Hidx Hl Hel h3. pose proof Hwf as [Hsz Hinv].
  assert (Hb3 : forall k, _body h3 !! k =
    if decide (k < length (_body h) - 1)
    then (if decide (k = idx) then Some l else _body h !! k) else None).
  { intros k. simpl. rewrite lookup_removelast, length_insert.
    case_decide; [| reflexivity].
    case_decide; subst;
      [rewrite list_lookup_insert_eq by lia
      |rewrite list_lookup_insert_ne by congruence]; reflexivity. }
  assert (Hlen3 : length (_body h3) = length (_body h) - 1).
  { simpl. rewrite length_removelast, length_insert. reflexivity. }
  assert (Hf3 : forall r e, objects h !! r = Some e ->
    exists e', objects h3 !! r = Some e'
      /\ _key e' = _key e /\ _value e' = _value e /\ (r <> l -> e' = e)).
  { intros r e He. simpl. destruct (decide (r = l)) as [-> |Hne].
    - eexists. split.
      + apply list_lookup_insert_eq. eapply lookup_lt_Some; eauto.
      + simpl. split; [congruence | split; [congruence | tauto]].
    - rewrite list_lookup_insert_ne by congruence. eauto. }
  assert (Hfr : frame h h3).
  { intros r e He. destruct (Hf3 _ _ He) as (e' & ? & ? & ? & _). eauto. }
  assert (Hk3 : forall k, k < length (_body h) - 1 ->
    key_at h3 k =
    key_at h (if decide (k = idx) then length (_body h) - 1 else k)).
  { intros k Hk. unfold key_at. rewrite Hb3.
    rewrite decide_True by exact Hk.
    destruct (decide (k = idx)) as [-> |Hne].
    - rewrite Hl. apply key_ref_frame; eauto.
    - destruct (_body h !! k) as [r|] eqn:E; [| reflexivity].
      apply key_ref_frame; [exact Hfr |].
      destruct (Hinv _ _ E) as (e & He & _). eauto. }
  split; [| split; [| split; [exact Hfr | split; [exact Hlen3 |
            split; [simpl; apply length_insert | split]]]]].
  - split; [rewrite Hlen3; simpl; lia |].
    intros k r Hr. rewrite Hb3 in Hr.
    case_decide as Hk; [| discriminate].
    destruct (decide (k = idx)) as [-> |Hne].
    + injection Hr as <-. eexists. split.
      * simpl. apply list_lookup_insert_eq. eapply lookup_lt_Some; eauto.
      * reflexivity.
    + destruct (Hinv _ _ Hr) as (e & He & Hi).
      destruct (Hf3 _ _ He) as (e' & He' & _ & _ & Hsame).
      exists e'. split; [exact He' |]. rewrite Hsame; [exact Hi |].
      intros ->. pose proof (index_inv_inj _ _ _ _ Hinv Hr Hl). lia.
  - split.
    + intros j Hj Hne Hpne. rewrite Hlen3 in Hj.
      pose proof (parent_lt j ltac:(lia)).
      rewrite !Hk3 by lia. rewrite !decide_False by assumption.
      apply Hheap. lia.
    + intros c Hc Hpos Hp. rewrite Hlen3 in Hc.
      assert (0 < c).
      { destruct (decide (c = 0)) as [-> |]; [| lia].
        change (parent 0) with 0 in Hp. lia. }
      pose proof (parent_lt c ltac:(lia)).
      pose proof (parent_lt idx Hpos).
      rewrite !Hk3 by lia. rewrite !decide_False by lia.
      transitivity (key_at h idx); [apply Hheap; lia |].
      rewrite <- Hp. apply Hheap. lia.
  - rewrite Hb3. rewrite decide_True by lia.
    rewrite decide_True by reflexivity. reflexivity.
  - intros x r0 Hr0. rewrite !list_elem_of_lookup. split.
    + intros [k Hk]. rewrite Hb3 in Hk.
      case_decide as Hlt; [| discriminate].
      destruct (decide (k = idx)) as [-> |Hne].
      * injection Hk as <-. split; [eauto |].
        intros ->. pose proof (index_inv_inj _ _ _ _ Hinv Hr0 Hl). lia.
      * split; [eauto |].
        intros ->. pose proof (index_inv_inj _ _ _ _ Hinv Hr0 Hk). lia.
    + intros [[k Hk] Hne].
      pose proof (lookup_lt_Some _ _ _ Hk) as Hlt.
      destruct (decide (k = length (_body h) - 1)) as [-> |Hk'].
      * exists idx. rewrite Hb3. rewrite decide_True by lia.
        rewrite decide_True by reflexivity. congruence.
      * exists k. rewrite Hb3. rewrite decide_True by lia.
        rewrite decide_False; [exact Hk |]. intros ->. congruence.
Qed.

(** [bubbleup] followed by [bubbledown], as [update_key] and [remove]
    call them, repairs an exception at slot [idx] whichever way it
    goes. *)
Lemma fix_spec h idx :
  wf h -> idx < length (_body h) -> almost_inv h idx ->
  exists h1, bubbleup idx h = (Return tt, h1) /\ rearranged h h1
    /\ forall j, j < length (_body h) -> (h1 = h -> j = idx) ->
       exists h2,
         bubbledown j (length (_body h) - 1) h1 = (Return tt, h2)
         /\ rearranged h1 h2 /\ heap_ordered h2.
Proof.
  intros Hwf Hidx [Ha Hg].
  destruct (bubbleup_loop_spec idx idx h) as (h1 & Hrun & Hre & Hup & Hnoop);
    [lia | exact Hwf | left; exact Hidx |].
  exists h1. split; [exact Hrun |]. split; [exact Hre |].
  intros j Hj Hsame.
  pose proof Hre as (Hwf1 & _ & Hl1 & _).
  destruct (bubbledown_loop_spec (length (_body h) - 1) j h1
              (length (_body h) - 1))
    as (h2 & Hrun2 & Hre2 & Hd); [lia | exact Hwf1 | lia | lia |].
  exists h2. split; [exact Hrun2 |]. split; [exact Hre2 |].
  apply Hd.
  destruct (decide (idx = 0)) as [Hz|Hz];
    [| destruct (Z_le_gt_dec (key_at h (parent idx)) (key_at h idx))
         as [Hle|Hgt]].
  - rewrite (Hnoop (or_introl Hz)) in *. rewrite (Hsame eq_refl).
    split; [| exact Hg]. intros j' Hj' Hp. apply Ha; [exact Hj' | lia | exact Hp].
  - rewrite (Hnoop (or_intror Hle)) in *. rewrite (Hsame eq_refl).
    split; [| exact Hg]. intros j' Hj' Hp.
    destruct (decide (j' = idx)) as [-> |Hne]; [exact Hle |].
    apply Ha; assumption.
  - apply heap_down_inv, Hup. split; [| exact Hg].
    intros j' Hj' Hne.
    destruct (decide (parent j' = idx)) as [E|E]; [| apply Ha; assumption].
    rewrite E. specialize (Hg j' ltac:(lia) ltac:(lia) E). lia.
Qed.

(** [remove_min] on a queue that is not empty returns the value and key
    of the root and takes the root out. *)
Lemma remove_min_spec h :
  good h -> 0 < _size h ->
  exists r0 e0 h',
    _body h !! 0 = Some r0 /\ objects h !! r0 = Some e0
    /\ remove_min h = (Return (Some (_value e0, _key e0)), h')
    /\ good h' /\ _size h' = _size h - 1
    /\ length (objects h') = length (objects h)
    /\ frame h h'
    /\ (forall x, x ∈ _body h' <-> x ∈ _body h /\ x <> r0).
Proof.
  intros Hgood Hn. pose proof Hgood as [Hwf Hheap].
  pose proof Hwf as [Hsz Hinv].
  destruct (lookup_lt_is_Some_2 (_body h) 0 ltac:(lia)) as [r0 Hr0].
  destruct (lookup_lt_is_Some_2 (_body h) (_size h - 1) ltac:(lia))
    as [l Hl].
  destruct (Hinv _ _ Hr0) as (e0 & He0 & _).
  destruct (Hinv _ _ Hl) as (el & Hel & _).
  exists r0, e0.
  unfold remove_min.
  erewrite bind_Return by reflexivity.
  rewrite bool_decide_eq_false_2 by lia.
  erewrite bind_Return by (apply body_get_run; eassumption).
  erewrite bind_Return by (apply deref_run; eassumption).
  erewrite bind_Return by (apply body_get_run; eassumption).
  erewrite bind_Return by (apply body_set_run; lia).
  erewrite bind_Return
    by (apply body_pop_run; simpl; rewrite length_insert; lia).
  erewrite bind_Return by reflexivity.
  erewrite bind_Return by reflexivity.
  simpl.
  destruct (decide (_size h - 1 = 0)) as [Hone|Hmore].
  - rewrite bool_decide_eq_true_2 by exact Hone.
    eexists. split; [exact Hr0 |]. split; [exact He0 |].
    split; [reflexivity |].
    assert (Hnil : removelast (<[0:=l]> (_body h)) = []).
    { apply length_zero_iff_nil.
      rewrite length_removelast, length_insert. lia. }
    simpl. rewrite Hnil.
    split; [| split; [reflexivity | split; [reflexivity |
              split; [intros r e He; exists e; simpl; auto |]]]].
    + split; [split |]; simpl.
      * exact Hone.
      * intros k r Hr. simpl in Hr. rewrite lookup_nil in Hr. discriminate.
      * intros i Hi. simpl in Hi. lia.
    + intros x. split; [intros Hx; inversion Hx |].
      intros [Hx Hne]. apply list_elem_of_lookup in Hx as [k Hk].
      pose proof (lookup_lt_Some _ _ _ Hk).
      assert (k = 0) as -> by lia. congruence.
  - rewrite bool_decide_eq_false_2 by exact Hmore.
    destruct (take_out h 0 l el Hgood) as
      (Hwf3 & Halm & Hfr3 & Hlen3 & Hobj3 & Hb0 & Hmem3);
      [lia | rewrite <- Hsz; exact Hl | exact Hel |].
    erewrite bind_Return by (apply body_get_run; exact Hb0).
    erewrite bind_Return by (apply set_index_run; simpl; exact Hel).
    match goal with
    | |- context [bind (bubbledown _ _) _ ?s] => set (h3 := s)
    end.
    destruct (bubbledown_loop_spec (_size h - 1 - 1) 0 h3 (_size h - 1 - 1))
      as (h' & Hrun & Hre & Hd).
    { lia. } { exact Hwf3. } { subst h3. simpl in Hlen3 |- *. rewrite Hlen3. lia. } { lia. }
    pose proof Hre as (Hwf' & Hs' & Hl' & Ho' & Hf' & Hm').
    unfold bubbledown. erewrite bind_Return by exact Hrun.
    exists h'. split; [exact Hr0 |]. split; [exact He0 |].
    split; [reflexivity |].
    split; [split; [exact Hwf' |] |].
    { apply Hd. destruct Halm as [Ha Hg]. split; [| exact Hg].
      intros j Hj Hp. apply Ha; [exact Hj | lia | exact Hp]. }
    split; [rewrite Hs'; reflexivity |].
    split; [rewrite Ho'; exact Hobj3 |].
    split; [eapply frame_trans; eassumption |].
    intros x. rewrite Hm'. apply Hmem3. exact Hr0.
Qed.

Lemma set_key_run h r e k :
  objects h !! r = Some e ->
  set_key r k h =
  (Return tt,
   {| objects := <[r := mkElement k (_value e) (_index e)]> (objects h);
      _body := _body h; _size := _size h |}).
Proof. unfold set_key. intros ->. reflexivity. Qed.

Lemma elem_of_body h r :
  wf h -> r ∈ _body h ->
  exists e, objects h !! r = Some e /\ _body h !! _index e = Some r.
Proof.
  intros [_ Hinv] Hr. apply list_elem_of_lookup in Hr as [i Hi].
  destruct (Hinv _ _ Hi) as (e & He & <-). eauto.
Qed.

(** [update_key] sets the key of the element and keeps the queue
    good; no element enters or leaves. *)
Lemma update_key_spec h r k :
  good h -> r ∈ _body h ->
  exists h', update_key r k h = (Return tt, h') /\ good h'
    /\ _size h' = _size h
    /\ length (objects h') = length (objects h)
    /\ (forall x, x ∈ _body h' <-> x ∈ _body h)
    /\ (forall r' e, objects h !! r' = Some e ->
          exists e', objects h' !! r' = Some e'
            /\ _value e' = _value e
            /\ _key e' = if decide (r' = r) then k else _key e).
Proof.
  intros [Hwf Hheap] Hr. pose proof Hwf as [Hsz Hinv].
  destruct (elem_of_body h r Hwf Hr) as (e & He & Hidx).
  pose proof (lookup_lt_Some _ _ _ Hidx) as Hlt.
  set (h1 := {| objects :=
                  <[r := mkElement k (_value e) (_index e)]> (objects h);
                _body := _body h; _size := _size h |}).
  assert (Hf1 : forall r' e0, objects h !! r' = Some e0 ->
    exists e', objects h1 !! r' = Some e'
      /\ _value e' = _value e0 /\ _index e' = _index e0
      /\ _key e' = if decide (r' = r) then k else _key e0).
  { intros r' e0 He0. simpl. destruct (decide (r' = r)) as [-> |Hne].
    - eexists. split.
      + apply list_lookup_insert_eq. eapply lookup_lt_Some; eauto.
      + simpl. split; [congruence | split; [congruence | reflexivity]].
    - rewrite list_lookup_insert_ne by congruence. eauto. }
  assert (Hwf1 : wf h1).
  { split; [exact Hsz |]. intros i r' Hi. simpl in Hi.
    destruct (Hinv _ _ Hi) as (e0 & He0 & Hi0).
    destruct (Hf1 _ _ He0) as (e' & He' & _ & Hi' & _).
    exists e'. split; [exact He' | congruence]. }
  assert (Hk1 : forall j, j <> _index e -> key_at h1 j = key_at h j).
  { intros j Hj. unfold key_at. simpl.
    destruct (_body h !! j) as [r'|] eqn:E; [| reflexivity].
    destruct (Hinv _ _ E) as (e0 & He0 & Hi0).
    destruct (Hf1 _ _ He0) as (e' & He' & _ & _ & Hk').
    unfold key_ref. rewrite He', He0. rewrite Hk'.
    rewrite decide_False; [reflexivity |].
    intros ->. apply Hj. eapply index_inv_inj; eauto. }
  assert (Halm : almost_inv h1 (_index e)).
  { split.
    - intros j Hj Hne Hpne. rewrite !Hk1 by assumption. apply Hheap, Hj.
    - intros c Hc Hpos Hp. simpl in Hc.
      assert (0 < c).
      { destruct (decide (c = 0)) as [-> |]; [| lia].
        change (parent 0) with 0 in Hp. lia. }
      pose proof (parent_lt c ltac:(lia)).
      pose proof (parent_lt _ Hpos).
      rewrite !Hk1 by lia.
      transitivity (key_at h (_index e)); [apply Hheap; lia |].
      rewrite <- Hp. apply Hheap. lia. }
  destruct (fix_spec h1 (_index e) Hwf1 Hlt Halm)
    as (h2 & Hrun2 & Hre2 & Hdown).
  pose proof Hre2 as (Hwf2 & Hs2 & Hl2 & Ho2 & Hf2 & Hm2).
  assert (Hr2 : r ∈ _body h2) by (apply Hm2; exact Hr).
  destruct (elem_of_body h2 r Hwf2 Hr2) as (e2 & He2 & Hidx2).
  destruct (Hdown (_index e2)) as (h3 & Hrun3 & Hre3 & Hheap3).
  { rewrite <- Hl2. eapply lookup_lt_Some; eauto. }
  { intros ->. destruct Hwf1 as [_ Hinv1].
    eapply index_inv_inj; [exact Hinv1 | exact Hidx2 | exact Hidx]. }
  pose proof Hre3 as (Hwf3 & Hs3 & Hl3 & Ho3 & Hf3 & Hm3).
  exists h3. split.
  { unfold update_key.
    erewrite bind_Return by (apply set_key_run; exact He).
    fold h1.
    erewrite bind_Return.
    2:{ apply deref_run. simpl. apply list_lookup_insert_eq.
        eapply lookup_lt_Some; eauto. }
    simpl. erewrite bind_Return by exact Hrun2.
    erewrite bind_Return by (apply deref_run; exact He2).
    erewrite bind_Return by reflexivity.
    rewrite Hs2. simpl. rewrite Hsz. exact Hrun3. }
  split; [split; assumption |].
  split; [rewrite Hs3, Hs2; reflexivity |].
  split; [rewrite Ho3, Ho2; simpl; apply length_insert |].
  split; [intros x; rewrite Hm3, Hm2; reflexivity |].
  intros r' e0 He0.
  destruct (Hf1 _ _ He0) as (e1 & He1 & Hv1 & _ & Hk1').
  destruct (Hf2 _ _ He1) as (e2' & He2' & Hk2 & Hv2).
  destruct (Hf3 _ _ He2') as (e3 & He3 & Hk3 & Hv3).
  exists e3. split; [exact He3 |]. split; congruence.
Qed.

(** The state [remove] reaches when the element is in the last slot. *)
Lemma drop_last h r :
  good h -> 0 < length (_body h) ->
  _body h !! (length (_body h) - 1) = Some r ->
  let h2 := {| objects := objects h;
               _body :=
                 removelast (<[length (_body h) - 1 := r]> (_body h));
               _size := _size h - 1 |} in
  good h2 /\ length (_body h2) = length (_body h) - 1
  /\ (forall x, x ∈ _body h2 <-> x ∈ _body h /\ x <> r).
Proof.
  intros [Hwf Hheap] Hn Hr h2. pose proof Hwf as [Hsz Hinv].
  assert (Hb2 : forall k, _body h2 !! k =
    if decide (k < length (_body h) - 1) then _body h !! k else None).
  { intros k. simpl. rewrite lookup_removelast, length_insert.
    case_decide; [| reflexivity].
    rewrite list_lookup_insert_ne by lia. reflexivity. }
  assert (Hlen2 : length (_body h2) = length (_body h) - 1).
  { simpl. rewrite length_removelast, length_insert. reflexivity. }
  assert (Hk2 : forall j, j < length (_body h) - 1 ->
            key_at h2 j = key_at h j).
  { intros j Hj. unfold key_at. rewrite Hb2.
    rewrite decide_True by exact Hj. reflexivity. }
  split; [split; [split |] | split; [exact Hlen2 |]].
  - rewrite Hlen2. simpl. lia.
  - intros k r' Hk. rewrite Hb2 in Hk.
    case_decide; [| discriminate]. apply Hinv, Hk.
  - intros j Hj. rewrite Hlen2 in Hj.
    pose proof (parent_lt j ltac:(lia)).
    rewrite !Hk2 by lia. apply Hheap. lia.
  - intros x. rewrite !list_elem_of_lookup. split.
    + intros [k Hk]. rewrite Hb2 in Hk.
      case_decide as Hlt; [| discriminate].
      split; [eauto |]. intros ->.
      pose proof (index_inv_inj _ _ _ _ Hinv Hk Hr). lia.
    + intros [[k Hk] Hne].
      pose proof (lookup_lt_Some _ _ _ Hk) as Hlt.
      exists k. rewrite Hb2. rewrite decide_True; [exact Hk |].
      destruct (decide (k = length (_body h) - 1)) as [-> |]; [| lia].
      congruence.
Qed.

Lemma body_get_raise h i :
  _body h !! i = None -> body_get i h = (Raise IndexError, h).
Proof. unfold body_get. intros ->. reflexivity. Qed.

(** [remove] on an element of the queue: the element leaves the queue
    and the queue stays good; its value and key are returned, unless
    the element stood in the last slot of a queue of two elements or
    more, where line 175 indexes the array past its end. *)
Lemma remove_spec h r :
  good h -> r ∈ _body h ->
  exists e o h',
    objects h !! r = Some e /\ _body h !! _index e = Some r
    /\ remove r h = (o, h') /\ good h'
    /\ _size h' = _size h - 1
    /\ (forall x, x ∈ _body h' <-> x ∈ _body h /\ x <> r)
    /\ ((_index e + 1 = _size h /\ 2 <= _size h /\ o = Raise IndexError)
        \/ ((_index e + 1 < _size h \/ _size h = 1)
            /\ o = Return (Some (_value e, _key e)))).
Proof.
  intros Hgood Hr. pose proof Hgood as [Hwf Hheap].
  pose proof Hwf as [Hsz Hinv].
  destruct (elem_of_body h r Hwf Hr) as (e & He & Hidx).
  pose proof (lookup_lt_Some _ _ _ Hidx) as Hlt.
  destruct (lookup_lt_is_Some_2 (_body h) (_size h - 1) ltac:(lia))
    as [l Hl].
  destruct (Hinv _ _ Hl) as (el & Hel & _).
  exists e. unfold remove.
  erewrite bind_Return by reflexivity.
  rewrite bool_decide_eq_false_2 by lia.
  erewrite bind_Return by (apply deref_run; eassumption).
  erewrite bind_Return by (apply body_get_run; eassumption).
  erewrite bind_Return by (apply body_set_run; lia).
  erewrite bind_Return
    by (apply body_pop_run; simpl; rewrite length_insert; lia).
  erewrite bind_Return by reflexivity.
  erewrite bind_Return by reflexivity.
  simpl.
  destruct (decide (_index e + 1 = _size h)) as [Hlast|Hnot].
  - assert (Hi : _index e = length (_body h) - 1) by lia.
    assert (l = r) as ->.
    { rewrite Hsz, <- Hi in Hl. congruence. }
    rewrite Hi.
    destruct (drop_last h r Hgood ltac:(lia)) as (Hgood2 & Hlen2 & Hmem2).
    { rewrite <- Hi. exact Hidx. }
    destruct (decide (_size h - 1 = 0)) as [Hone|Hmore].
    + rewrite bool_decide_eq_true_2 by exact Hone.
      eexists _, _. split; [exact He |]. split; [rewrite Hi in Hidx; exact Hidx |].
      split; [reflexivity |]. split; [exact Hgood2 |].
      split; [reflexivity |]. split; [exact Hmem2 |].
      right. split; [right; lia | reflexivity].
    + rewrite bool_decide_eq_false_2 by exact Hmore.
      erewrite bind_Raise.
      2:{ apply body_get_raise. simpl. apply lookup_ge_None_2.
          rewrite length_removelast, length_insert. lia. }
      eexists _, _. split; [exact He |]. split; [rewrite Hi in Hidx; exact Hidx |].
      split; [reflexivity |]. split; [exact Hgood2 |].
      split; [reflexivity |]. split; [exact Hmem2 |].
      left. split; [lia | split; [lia | reflexivity]].
  - rewrite bool_decide_eq_false_2 by lia.
    destruct (take_out h (_index e) l el Hgood) as
      (Hwf3 & Halm & Hfr3 & Hlen3 & Hobj3 & Hb0 & Hmem3);
      [lia | rewrite <- Hsz; exact Hl | exact Hel |].
    erewrite bind_Return by (apply body_get_run; exact Hb0).
    erewrite bind_Return by (apply set_index_run; simpl; exact Hel).
    match goal with
    | |- context [bind (bubbleup _) _ ?s] => set (h3 := s)
    end.
    destruct (fix_spec h3 (_index e)) as (h4 & Hrun4 & Hre4 & Hdown).
    { exact Hwf3. }
    { subst h3. simpl in Hlen3 |- *. rewrite Hlen3. lia. }
    { exact Halm. }
    destruct (Hdown (_index e)) as (h5 & Hrun5 & Hre5 & Hheap5).
    { subst h3. simpl in Hlen3 |- *. rewrite Hlen3. lia. }
    { reflexivity. }
    pose proof Hre4 as (Hwf4 & Hs4 & Hl4 & Ho4 & Hf4 & Hm4).
    pose proof Hre5 as (Hwf5 & Hs5 & Hl5 & Ho5 & Hf5 & Hm5).
    erewrite bind_Return by exact Hrun4.
    replace (length (_body h3) - 1) with (_size h - 1 - 1) in Hrun5
      by (subst h3; simpl in Hlen3 |- *; rewrite Hlen3; lia).
    erewrite bind_Return by exact Hrun5.
    eexists _, _. split; [exact He |]. split; [exact Hidx |].
    split; [reflexivity |]. split; [split; assumption |].
    split; [rewrite Hs5, Hs4; reflexivity |].
    split.
    + intros x. rewrite Hm5, Hm4. apply Hmem3. exact Hidx.
    + right. split; [left; lia | reflexivity].
Qed.

Lemma exec_good h o : good h -> valid h o -> good (exec o h).2.
Proof.
  intros Hgood Hvalid. destruct o as [k v| |r k|r]; simpl in Hvalid.
  - destruct (add_spec h k v Hgood) as (h' & Hrun & Hgood' & _).
    unfold exec. erewrite bind_Return by exact Hrun. exact Hgood'.
  - destruct (remove_min_spec h Hgood Hvalid)
      as (r0 & e0 & h' & _ & _ & Hrun & Hgood' & _).
    unfold exec. erewrite bind_Return by exact Hrun. exact Hgood'.
  - destruct (update_key_spec h r k Hgood Hvalid) as (h' & Hrun & Hgood' & _).
    unfold exec. rewrite Hrun. exact Hgood'.
  - destruct Hvalid as [_ Hr].
    destruct (remove_spec h r Hgood Hr)
      as (e & o & h' & _ & _ & Hrun & Hgood' & _ & _ & Ho).
    unfold exec.
    destruct Ho as [(_ & _ & ->) | (_ & ->)].
    + erewrite bind_Raise by exact Hrun. exact Hgood'.
    + erewrite bind_Return by exact Hrun. exact Hgood'.
Qed.

Lemma reachable_run_ops l : forall h,
  reachable h -> valid_seq l h -> reachable (run_ops l h).
Proof.
  induction l as [|o l IH]; intros h Hreach Hvalid; [exact Hreach |].
  destruct Hvalid as [Ho Hl]. apply (IH (exec o h).2); [| exact Hl].
  apply reachable_exec; assumption.
Qed.

Lemma reachable_good h : reachable h -> good h.
Proof.
  induction 1 as [|h o _ IH Hvalid]; [apply good_init |].
  apply exec_good; assumption.
Qed.

(** C2.  After every sequence of [add], [remove_min], [update_key] and
    [remove] with valid arguments, the explicit size is the length of
    the array, and the element in every slot of the array has that
    slot in its [_index] field. *)
Theorem index_invariant h :
  reachable h ->
  _size h = length (_body h)
  /\ forall i, i < _size h ->
       exists r e, _body h !! i = Some r /\ objects h !! r = Some e
         /\ _index e = i.
Proof.
  intros Hreach. destruct (reachable_good h Hreach) as [[Hsz Hinv] _].
  split; [exact Hsz |]. intros i Hi.
  destruct (lookup_lt_is_Some_2 (_body h) i ltac:(lia)) as [r Hr].
  destruct (Hinv _ _ Hr) as (e & He & Hidx). eauto.
Qed.

(** C3.  After every sequence of [add], [remove_min], [update_key] and
    [remove] with valid arguments, every slot [i > 0] of the array holds
    an element whose key is at least the key of the element in slot
    [(i - 1) // 2]. *)
Theorem heap_invariant h :
  reachable h ->
  forall i, 0 < i < _size h ->
    exists ei ep, cell h i = Some ei /\ cell h ((i - 1) / 2) = Some ep
      /\ (_key ep <= _key ei)%Z.
Proof.
  intros Hreach i Hi.
  destruct (reachable_good h Hreach) as [[Hsz Hinv] Hheap].
  pose proof (parent_lt i ltac:(lia)) as Hp. unfold parent in Hp.
  destruct (lookup_lt_is_Some_2 (_body h) i ltac:(lia)) as [ri Hri].
  destruct (lookup_lt_is_Some_2 (_body h) ((i - 1) / 2) ltac:(lia))
    as [rp Hrp].
  destruct (Hinv _ _ Hri) as (ei & Hei & _).
  destruct (Hinv _ _ Hrp) as (ep & Hep & _).
  exists ei, ep. unfold cell. rewrite Hri, Hrp.
  split; [exact Hei |]. split; [exact Hep |].
  specialize (Hheap i ltac:(lia)).
  rewrite (key_at_cell h i ri ei Hri Hei) in Hheap.
  unfold parent in Hheap.
  rewrite (key_at_cell h _ rp ep Hrp Hep) in Hheap. exact Hheap.
Qed.

(** C4.  On a queue of size 0, [remove_min] returns [None] and leaves
    the queue as it is, but [min] raises [IndexError]: it reads
    [self._body[0]] without the test of the size that [remove_min] and
    [remove] make. *)
Theorem min_empty_raises h :
  wf h -> _size h = 0 ->
  min h = (Raise IndexError, h) /\ remove_min h = (Return None, h).
Proof.
  intros [Hsz _] Hz. split.
  - unfold min. erewrite bind_Raise; [reflexivity |].
    apply body_get_raise, lookup_ge_None_2. lia.
  - unfold remove_min. erewrite bind_Return by reflexivity.
    rewrite bool_decide_eq_true_2 by exact Hz. reflexivity.
Qed.

(** C5.  [remove] of the element in the last slot of a queue of two
    elements or more raises [IndexError]: after the [pop], line 175
    reads [self._body[index]] with [index] equal to the new size. *)
Theorem remove_last_raises h r e :
  reachable h -> objects h !! r = Some e -> _body h !! _index e = Some r ->
  _index e + 1 = _size h -> 2 <= _size h ->
  (remove r h).1 = Raise IndexError.
Proof.
  intros Hreach He Hidx Hlast Htwo.
  pose proof (reachable_good h Hreach) as Hgood.
  destruct (remove_spec h r Hgood) as
    (e' & o & h' & He' & _ & Hrun & _ & _ & _ & Ho).
  { eapply list_elem_of_lookup_2; eauto. }
  assert (e' = e) as -> by congruence.
  rewrite Hrun. simpl. destruct Ho as [(_ & _ & ->) | ([Hlt | Hone] & _)].
  - reflexivity.
  - lia.
  - lia.
Qed.

End APQFacts.


Lemma sample_heap_reachable : APQInv.reachable sample_heap.
Proof.
  apply reachable_run_ops; [apply APQInv.reachable_init |].
  vm_compute. repeat split; repeat constructor.
Qed.

Lemma index_invariant_witness :
  APQInv.reachable sample_heap
  /\ (APQ._size sample_heap = length (APQ._body sample_heap)
      /\ forall i, i < APQ._size sample_heap ->
           exists r e, APQ._body sample_heap !! i = Some r
             /\ APQ.objects sample_heap !! r = Some e
             /\ APQ._index e = i).
Proof.
  split; [exact sample_heap_reachable |].
  apply index_invariant. exact sample_heap_reachable.
Defined.

Lemma heap_invariant_witness :
  APQInv.reachable sample_heap
  /\ (forall i, 0 < i < APQ._size sample_heap ->
        exists ei ep, APQInv.cell sample_heap i = Some ei
          /\ APQInv.cell sample_heap ((i - 1) / 2) = Some ep
          /\ (APQ._key ep <= APQ._key ei)%Z).
Proof.
  split; [exact sample_heap_reachable |].
  apply heap_invariant. exact sample_heap_reachable.
Defined.

Lemma min_empty_raises_witness :
  APQ.min (V:=string) APQ.init = (Raise IndexError, APQ.init)
  /\ APQ.remove_min (V:=string) APQ.init = (Return None, APQ.init).
Proof.
  apply min_empty_raises; [| reflexivity].
  split; [reflexivity |].
  intros i r Hr. simpl in Hr. rewrite lookup_nil in Hr. discriminate.
Defined.


Lemma two_heap_reachable : APQInv.reachable two_heap.
Proof.
  apply reachable_run_ops; [apply APQInv.reachable_init |].
  vm_compute. repeat split; repeat constructor.
Qed.

Lemma remove_last_raises_witness :
  (APQ.remove 1 two_heap).1 = Raise IndexError.
Proof.
  apply (remove_last_raises two_heap 1 (APQ.mkElement 2%Z "b" 1)).
  - exact two_heap_reachable.
  - reflexivity.
  - reflexivity.
  - reflexivity.
  - vm_compute. lia.
Defined.

(** ** Dictionaries *)

Section DictFacts.

Context {K V : Type} `{EqDecision K}.

Implicit Types d : list (K * V).

Lemma dict_mem_true k d : dict_mem k d = true <-> is_Some (dict_get k d).
Proof.
  unfold dict_mem. destruct (dict_get k d); split; intros Hx;
    try reflexivity; try discriminate; eauto.
  destruct Hx as [? Hx]. discriminate.
Qed.

Lemma dict_mem_false k d : dict_mem k d = false <-> dict_get k d = None.
Proof.
  unfold dict_mem. destruct (dict_get k d); split; intros Hx;
    try reflexivity; discriminate.
Qed.

Lemma dict_get_set_eq k v d : dict_get k (dict_set k v d) = Some v.
Proof.
  induction d as [|[k' v'] d IH]; simpl.
  - rewrite decide_True by reflexivity. reflexivity.
  - destruct (decide (k = k')) as [-> |Hne]; simpl.
    + rewrite decide_True by reflexivity. reflexivity.
    + rewrite decide_False by exact Hne. exact IH.
Qed.

Lemma dict_get_set_ne k k' v d :
  k <> k' -> dict_get k' (dict_set k v d) = dict_get k' d.
Proof.
  intros Hne. induction d as [|[k0 v0] d IH]; simpl.
  - rewrite decide_False by congruence. reflexivity.
  - destruct (decide (k = k0)) as [-> |Hne0]; simpl.
    + rewrite !decide_False by congruence. reflexivity.
    + destruct (decide (k' = k0)); [reflexivity | exact IH].
Qed.

Lemma dict_mem_set k k' v d :
  dict_mem k' (dict_set k v d) = if decide (k = k') then true
                                 else dict_mem k' d.
Proof.
  unfold dict_mem. destruct (decide (k = k')) as [-> |Hne].
  - rewrite dict_get_set_eq. reflexivity.
  - rewrite dict_get_set_ne by exact Hne. reflexivity.
Qed.

Lemma dict_keys_set_mem k v d :
  is_Some (dict_get k d) -> dict_keys (dict_set k v d) = dict_keys d.
Proof.
  unfold dict_keys. induction d as [|[k' v'] d IH]; simpl; intros Hk.
  - destruct Hk as [? Hk]. discriminate.
  - destruct (decide (k = k')) as [-> |Hne]; simpl; [reflexivity |].
    f_equal. apply IH, Hk.
Qed.

Lemma dict_keys_set_new k v d :
  dict_get k d = None -> dict_keys (dict_set k v d) = dict_keys d ++ [k].
Proof.
  unfold dict_keys. induction d as [|[k' v'] d IH]; simpl; intros Hk.
  - reflexivity.
  - destruct (decide (k = k')) as [-> |Hne]; [discriminate |].
    simpl. f_equal. apply IH, Hk.
Qed.

Lemma dict_set_length_mem k v d :
  is_Some (dict_get k d) -> length (dict_set k v d) = length d.
Proof.
  intros Hk. pose proof (dict_keys_set_mem k v d Hk) as E.
  apply (f_equal length) in E.
  unfold dict_keys in E. rewrite !length_fmap in E. exact E.
Qed.

Lemma elem_of_dict_set k v d a b :
  (a, b) ∈ dict_set k v d -> (a = k /\ b = v) \/ (a, b) ∈ d.
Proof.
  induction d as [|[k' v'] d IH]; simpl; intros Hin.
  - apply list_elem_of_singleton in Hin. injection Hin as -> ->. auto.
  - destruct (decide (k = k')) as [-> |Hne].
    + apply elem_of_cons in Hin as [Hin|Hin].
      * injection Hin as -> ->. auto.
      * right. apply elem_of_cons. auto.
    + apply elem_of_cons in Hin as [Hin|Hin].
      * right. rewrite Hin. apply elem_of_cons. auto.
      * destruct (IH Hin) as [?|?]; [auto |].
        right. apply elem_of_cons. auto.
Qed.

Lemma dict_get_elem_of k v d : dict_get k d = Some v -> (k, v) ∈ d.
Proof.
  induction d as [|[k' v'] d IH]; simpl; [discriminate |].
  destruct (decide (k = k')) as [-> |Hne]; intros Hk.
  - injection Hk as ->. apply elem_of_cons. auto.
  - apply elem_of_cons. auto.
Qed.

Lemma elem_of_dict_get k v d : (k, v) ∈ d -> is_Some (dict_get k d).
Proof.
  induction d as [|[k' v'] d IH]; simpl; intros Hin.
  - inversion Hin.
  - destruct (decide (k = k')) as [-> |Hne]; [eauto |].
    apply elem_of_cons in Hin as [Hin|Hin]; [congruence | auto].
Qed.

Lemma dict_mem_keys k d : dict_mem k d = true <-> k ∈ dict_keys d.
Proof.
  rewrite dict_mem_true. unfold dict_keys. split.
  - intros [v Hv]. apply dict_get_elem_of in Hv.
    apply (list_elem_of_fmap_2 fst) in Hv. exact Hv.
  - intros Hk. apply list_elem_of_fmap in Hk as [[k' v] [-> Hin]].
    eapply elem_of_dict_get. exact Hin.
Qed.

Lemma dict_get_del_eq k d : dict_get k (dict_del k d) = None.
Proof.
  unfold dict_del. induction d as [|[k' v'] d IH]; [reflexivity |].
  rewrite filter_cons. simpl. destruct (decide (k' <> k)) as [Hne|Heq].
  - simpl. rewrite decide_False by congruence. exact IH.
  - exact IH.
Qed.

Lemma dict_get_del_ne k k' d :
  k <> k' -> dict_get k' (dict_del k d) = dict_get k' d.
Proof.
  intros Hne. unfold dict_del. induction d as [|[k0 v0] d IH]; [reflexivity |].
  rewrite filter_cons. simpl. destruct (decide (k0 <> k)) as [Hne0|Heq].
  - simpl. destruct (decide (k' = k0)); [reflexivity | exact IH].
  - apply dec_stable in Heq. subst k0.
    rewrite decide_False by congruence. exact IH.
Qed.

End DictFacts.

(** ** The undirected graph *)

Section GraphFacts.

Import Graph GraphInv.

Implicit Types g : Graph.

Lemma structure_get_run g v adj :
  dict_get v (_structure g) = Some adj -> structure_get v g = (Return adj, g).
Proof. unfold structure_get. intros ->. reflexivity. Qed.

Lemma structure_get_raise g v :
  dict_get v (_structure g) = None -> structure_get v g = (Raise KeyError, g).
Proof. unfold structure_get. intros ->. reflexivity. Qed.

Lemma get_edge_run g v w : get_edge v w g = (Return (edge_at g v w), g).
Proof.
  unfold get_edge, edge_at.
  erewrite bind_Return by reflexivity. unfold dict_mem at 1.
  destruct (dict_get v (_structure g)) as [adj|] eqn:E; [| reflexivity].
  erewrite bind_Return by (apply structure_get_run; exact E).
  unfold dict_mem. destruct (dict_get w adj); reflexivity.
Qed.

(** What [add_edge] leaves when both vertices are there. *)
Lemma add_edge_run g v w x av :
  dict_get v (_structure g) = Some av ->
  is_Some (dict_get w (_structure g)) ->
  exists aw,
    dict_get w (dict_set v (dict_set w (mkEdge (v, w) x) av) (_structure g))
      = Some aw
    /\ add_edge v w x g =
       (Return (Some (mkEdge (v, w) x)),
        {| _structure :=
             dict_set w (dict_set v (mkEdge (v, w) x) aw)
               (dict_set v (dict_set w (mkEdge (v, w) x) av)
                  (_structure g)) |}).
Proof.
  intros Hv [aw0 Hw].
  assert (Haw : is_Some (dict_get w
            (dict_set v (dict_set w (mkEdge (v, w) x) av) (_structure g)))).
  { destruct (decide (v = w)) as [-> |Hne].
    - rewrite dict_get_set_eq. eauto.
    - rewrite dict_get_set_ne by exact Hne. eauto. }
  destruct Haw as [aw Haw]. exists aw. split; [exact Haw |].
  unfold add_edge.
  erewrite bind_Return by reflexivity.
  erewrite bind_Return by reflexivity.
  unfold dict_mem. rewrite Hv, Hw.
  change (negb true || negb true) with false. cbv iota.
  unfold structure_set.
  erewrite bind_Return.
  2:{ erewrite bind_Return by (apply structure_get_run; exact Hv).
      reflexivity. }
  erewrite bind_Return.
  2:{ erewrite bind_Return by (apply structure_get_run; exact Haw).
      reflexivity. }
  reflexivity.
Qed.

Lemma add_edge_absent g v w x :
  dict_mem v (_structure g) = false \/ dict_mem w (_structure g) = false ->
  add_edge v w x g = (Return None, g).
Proof.
  intros Habs. unfold add_edge.
  erewrite bind_Return by reflexivity.
  erewrite bind_Return by reflexivity.
  destruct Habs as [-> | ->].
  - reflexivity.
  - change (negb false) with true. rewrite orb_true_r. reflexivity.
Qed.

Lemma add_edge_present g v w x :
  dict_mem v (_structure g) = true -> dict_mem w (_structure g) = true ->
  exists g',
    add_edge v w x g = (Return (Some (mkEdge (v, w) x)), g')
    /\ edge_at g' v w = Some (mkEdge (v, w) x)
    /\ edge_at g' w v = Some (mkEdge (v, w) x)
    /\ dict_keys (_structure g') = dict_keys (_structure g)
    /\ (forall a b, ~ (a = v /\ b = w) -> ~ (a = w /\ b = v) ->
          edge_at g' a b = edge_at g a b).
Proof.
  intros Hv Hw. apply dict_mem_true in Hv as [av Hv].
  apply dict_mem_true in Hw as Hw.
  destruct (add_edge_run g v w x av Hv Hw) as (aw & Haw & Hrun).
  eexists. split; [exact Hrun |].
  set (e := mkEdge (v, w) x) in *.
  unfold edge_at. simpl.
  split; [| split; [| split]].
  - destruct (decide (w = v)) as [-> |Hne].
    + rewrite dict_get_set_eq. apply dict_get_set_eq.
    + rewrite dict_get_set_ne by exact Hne.
      rewrite dict_get_set_eq. apply dict_get_set_eq.
  - rewrite dict_get_set_eq. apply dict_get_set_eq.
  - rewrite dict_keys_set_mem by eauto.
    apply dict_keys_set_mem. eauto.
  - intros a b Hab Hba.
    destruct (decide (w = a)) as [<- |Hwa].
    + rewrite dict_get_set_eq.
      rewrite dict_get_set_ne by (intros ->; tauto).
      destruct (decide (v = w)) as [-> |Hvw].
      * rewrite dict_get_set_eq in Haw. injection Haw as <-.
        rewrite dict_get_set_ne by (intros ->; tauto).
        rewrite Hv. reflexivity.
      * rewrite dict_get_set_ne in Haw by exact Hvw. rewrite Haw.
        reflexivity.
    + rewrite dict_get_set_ne by exact Hwa.
      destruct (decide (v = a)) as [<- |Hva].
      * rewrite dict_get_set_eq, Hv.
        apply dict_get_set_ne. intros ->. tauto.
      * rewrite dict_get_set_ne by exact Hva. reflexivity.
Qed.

Lemma total_acc (s : list (Vertex * list (Vertex * Edge))) n :
  foldl (fun num va => num + length va.2) n s = n + total s.
Proof.
  unfold total. revert n. induction s as [|[v adj] s IH]; intros n; simpl.
  - lia.
  - rewrite IH. rewrite (IH (length adj)). lia.
Qed.

Lemma total_cons v adj (s : list (Vertex * list (Vertex * Edge))) :
  total ((v, adj) :: s) = length adj + total s.
Proof. unfold total at 1. simpl. apply total_acc. Qed.

Lemma total_set (s : list (Vertex * list (Vertex * Edge))) v adj adj' :
  dict_get v s = Some adj -> length adj' = length adj ->
  total (dict_set v adj' s) = total s.
Proof.
  intros Hv Hlen. induction s as [|[v0 a0] s IH]; [discriminate |].
  simpl in Hv |- *. destruct (decide (v = v0)) as [-> |Hne].
  - injection Hv as ->. rewrite !total_cons. lia.
  - rewrite !total_cons. rewrite IH by exact Hv. reflexivity.
Qed.

Lemma num_edges_run g : num_edges g = (Return (total (_structure g) / 2), g).
Proof. reflexivity. Qed.

(** Adding an edge where there is one already changes no set of keys. *)
Lemma add_edge_existing g v w x :
  is_Some (edge_at g v w) -> is_Some (edge_at g w v) ->
  total (_structure (add_edge v w x g).2) = total (_structure g)
  /\ dict_keys (_structure (add_edge v w x g).2) = dict_keys (_structure g)
  /\ forall a,
       dict_keys <$> dict_get a (_structure (add_edge v w x g).2)
       = dict_keys <$> dict_get a (_structure g).
Proof.
  unfold edge_at. intros Hvw Hwv.
  destruct (dict_get v (_structure g)) as [av|] eqn:Hv;
    [| destruct Hvw; discriminate].
  destruct (dict_get w (_structure g)) as [aw0|] eqn:Hw;
    [| destruct Hwv; discriminate].
  destruct (add_edge_run g v w x av Hv ltac:(eauto)) as (aw & Haw & Hrun).
  rewrite Hrun. simpl.
  set (e := mkEdge (v, w) x) in *.
  assert (Hav : dict_keys (dict_set w e av) = dict_keys av)
    by (apply dict_keys_set_mem, Hvw).
  assert (Haw' : dict_keys (dict_set v e aw) = dict_keys aw
                 /\ dict_keys aw = dict_keys aw0).
  { destruct (decide (v = w)) as [-> |Hne].
    - rewrite dict_get_set_eq in Haw. injection Haw as <-.
      assert (aw0 = av) as -> by congruence.
      split; [| exact Hav].
      apply dict_keys_set_mem. rewrite dict_get_set_eq. eauto.
    - rewrite dict_get_set_ne in Haw by exact Hne.
      assert (aw = aw0) as -> by congruence.
      split; [| reflexivity]. apply dict_keys_set_mem, Hwv. }
  destruct Haw' as [Haw1 Haw2].
  split; [| split].
  - rewrite (total_set _ w aw) by
      (try exact Haw; apply (f_equal length) in Haw1;
       unfold dict_keys in Haw1; rewrite !length_fmap in Haw1; exact Haw1).
    apply (total_set _ v av); [exact Hv |].
    apply (f_equal length) in Hav.
    unfold dict_keys in Hav. rewrite !length_fmap in Hav. exact Hav.
  - rewrite dict_keys_set_mem by eauto.
    apply dict_keys_set_mem. eauto.
  - intros a. destruct (decide (w = a)) as [<- |Hwa].
    + rewrite dict_get_set_eq, Hw. simpl. congruence.
    + rewrite dict_get_set_ne by exact Hwa.
      destruct (decide (v = a)) as [<- |Hva].
      * rewrite dict_get_set_eq, Hv. simpl. congruence.
      * rewrite dict_get_set_ne by exact Hva. reflexivity.
Qed.

Lemma wf_init : wf init.
Proof. intros v adj Hin. inversion Hin. Qed.

Lemma wf_add_vertex g element a : wf g -> wf (add_vertex element a g).2.
Proof.
  intros Hwf v adj Hin w e Hwe. simpl in Hin |- *.
  apply elem_of_dict_set in Hin as [[-> ->] | Hin]; [inversion Hwe |].
  destruct (Hwf v adj Hin w e Hwe) as [Hm Ho]. split; [| exact Ho].
  rewrite dict_mem_set. case_decide; [reflexivity | exact Hm].
Qed.

Lemma wf_add_edge g v w x : wf g -> wf (add_edge v w x g).2.
Proof.
  intros Hwf.
  destruct (dict_mem v (_structure g)) eqn:Hmv;
    [| rewrite add_edge_absent by auto; exact Hwf].
  destruct (dict_mem w (_structure g)) eqn:Hmw;
    [| rewrite add_edge_absent by auto; exact Hwf].
  apply dict_mem_true in Hmv as [av Hv].
  pose proof Hmw as Hmw'. apply dict_mem_true in Hmw'.
  destruct (add_edge_run g v w x av Hv Hmw') as (aw & Haw & Hrun).
  rewrite Hrun. simpl. set (e := mkEdge (v, w) x) in *.
  assert (Hmem : forall u, dict_mem u (_structure g) = true ->
    dict_mem u (dict_set w (dict_set v e aw)
                  (dict_set v (dict_set w e av) (_structure g))) = true).
  { intros u Hu. rewrite !dict_mem_set.
    repeat case_decide; auto. }
  assert (Hov : opposite e (Some v) = Some w).
  { unfold opposite, e. simpl. rewrite decide_True by reflexivity.
    reflexivity. }
  assert (How : opposite e (Some w) = Some v).
  { unfold opposite, e. simpl.
    destruct (decide (Some v = Some w)) as [E|E]; [congruence |].
    rewrite decide_True by reflexivity. reflexivity. }
  assert (Hav : forall b e', (b, e') ∈ dict_set w e av ->
    dict_mem b (_structure g) = true /\ opposite e' (Some v) = Some b).
  { intros b e' Hin.
    apply elem_of_dict_set in Hin as [[-> ->] | Hin]; [auto |].
    eapply Hwf; [apply dict_get_elem_of, Hv | exact Hin]. }
  intros u adj Hin b e' Hbe. simpl in Hin.
  apply elem_of_dict_set in Hin as [[-> ->] | Hin].
  - apply elem_of_dict_set in Hbe as [[-> ->] | Hbe].
    + split; [apply Hmem; apply dict_mem_true; eauto | exact How].
    + destruct (decide (v = w)) as [-> |Hne].
      * rewrite dict_get_set_eq in Haw. injection Haw as <-.
        destruct (Hav _ _ Hbe). split; [apply Hmem |]; assumption.
      * rewrite dict_get_set_ne in Haw by exact Hne.
        destruct (Hwf w aw (dict_get_elem_of _ _ _ Haw) b e' Hbe).
        split; [apply Hmem |]; assumption.
  - apply elem_of_dict_set in Hin as [[-> ->] | Hin].
    + destruct (Hav _ _ Hbe). split; [apply Hmem |]; assumption.
    + destruct (Hwf u adj Hin b e' Hbe).
      split; [apply Hmem |]; assumption.
Qed.

Lemma built_wf g : built g -> wf g.
Proof.
  induction 1; auto using wf_init, wf_add_vertex, wf_add_edge.
Qed.

End GraphFacts.

(** ** The directed graph *)

Section DirectedFacts.

Import DirectedGraph DirectedInv.

Implicit Types g : DirectedGraph.

Lemma directed_add_edge_absent g v w x :
  dict_mem v (_structure g) = false \/ dict_mem w (_structure g) = false ->
  add_edge v w x g = (Return None, g).
Proof.
  intros Habs. unfold add_edge.
  erewrite bind_Return by reflexivity.
  erewrite bind_Return by reflexivity.
  destruct Habs as [-> | ->].
  - reflexivity.
  - change (negb false) with true. rewrite orb_true_r. reflexivity.
Qed.

Lemma dict_mem_set_mem {K V} `{EqDecision K} (k u : K) (v : V) d :
  dict_mem k d = true -> dict_mem u (dict_set k v d) = dict_mem u d.
Proof.
  intros Hk. rewrite dict_mem_set. case_decide; [subst; auto | reflexivity].
Qed.

Lemma directed_add_edge_present g v w x :
  consistent g ->
  dict_mem v (_structure g) = true -> dict_mem w (_structure g) = true ->
  exists g',
    add_edge v w x g = (Return (Some (mkEdge (v, w) x)), g')
    /\ out_edge_at g' v w = Some (mkEdge (v, w) x)
    /\ in_edge_at g' w v = Some (mkEdge (v, w) x)
    /\ dict_keys (_structure g') = dict_keys (_structure g)
    /\ dict_keys (_inedges g') = dict_keys (_inedges g)
    /\ consistent g'
    /\ (forall a b, ~ (a = v /\ b = w) ->
          out_edge_at g' a b = out_edge_at g a b)
    /\ (forall a b, ~ (a = w /\ b = v) ->
          in_edge_at g' a b = in_edge_at g a b).
Proof.
  intros Hcons Hmv Hmw.
  pose proof Hmv as Hv. apply dict_mem_true in Hv as [av Hv].
  pose proof Hmw as Hiw. rewrite <- Hcons in Hiw.
  pose proof Hiw as Hiw'. apply dict_mem_true in Hiw' as [iw Hw].
  set (e := mkEdge (v, w) x).
  exists {| _structure := dict_set v (dict_set w e av) (_structure g);
            _inedges := dict_set w (dict_set v e iw) (_inedges g) |}.
  split.
  { unfold add_edge.
    erewrite bind_Return by reflexivity.
    erewrite bind_Return by reflexivity.
    rewrite Hmv, Hmw.
    change (negb true || negb true) with false. cbv iota.
    unfold structure_set, inedges_set.
    erewrite bind_Return.
    2:{ erewrite bind_Return; [reflexivity |].
        unfold structure_get. rewrite Hv. reflexivity. }
    erewrite bind_Return.
    2:{ erewrite bind_Return; [reflexivity |].
        unfold inedges_get. simpl. rewrite Hw. reflexivity. }
    reflexivity. }
  unfold out_edge_at, in_edge_at. simpl.
  split; [rewrite dict_get_set_eq; apply dict_get_set_eq |].
  split; [rewrite dict_get_set_eq; apply dict_get_set_eq |].
  split; [apply dict_keys_set_mem; eauto |].
  split; [apply dict_keys_set_mem; eauto |].
  split; [| split].
  - intros u. simpl. rewrite !dict_mem_set_mem by assumption. apply Hcons.
  - intros a b Hab. destruct (decide (v = a)) as [<- |Hva].
    + rewrite dict_get_set_eq, Hv. apply dict_get_set_ne.
      intros ->. tauto.
    + rewrite dict_get_set_ne by exact Hva. reflexivity.
  - intros a b Hab. destruct (decide (w = a)) as [<- |Hwa].
    + rewrite dict_get_set_eq, Hw. apply dict_get_set_ne.
      intros ->. tauto.
    + rewrite dict_get_set_ne by exact Hwa. reflexivity.
Qed.

Lemma directed_consistent_init : consistent init.
Proof. intros v. reflexivity. Qed.

Lemma directed_consistent_add_vertex g element a :
  consistent g -> consistent (add_vertex element a g).2.
Proof.
  intros Hcons v. simpl. rewrite !dict_mem_set.
  case_decide; [reflexivity | apply Hcons].
Qed.

End DirectedFacts.

(** C7.  [add_edge], undirected and directed: when [v] or [w] is not a
    vertex of the graph, it returns [None] and the graph is the one it
    was; when both are, it returns the new edge, which is then the edge
    kept under both endpoints (for the directed graph, among the
    out-edges of [v] and the in-edges of [w]), with the same vertices
    and every other entry as before. *)
Theorem add_edge_contract (v w : Vertex) (x : Z) :
  (forall g,
     dict_mem v (Graph._structure g) = false
     \/ dict_mem w (Graph._structure g) = false ->
     Graph.add_edge v w x g = (Return None, g))
  /\ (forall g,
        dict_mem v (Graph._structure g) = true ->
        dict_mem w (Graph._structure g) = true ->
        exists g',
          Graph.add_edge v w x g = (Return (Some (mkEdge (v, w) x)), g')
          /\ GraphInv.edge_at g' v w = Some (mkEdge (v, w) x)
          /\ GraphInv.edge_at g' w v = Some (mkEdge (v, w) x)
          /\ dict_keys (Graph._structure g') = dict_keys (Graph._structure g)
          /\ (forall a b, ~ (a = v /\ b = w) -> ~ (a = w /\ b = v) ->
                GraphInv.edge_at g' a b = GraphInv.edge_at g a b))
  /\ (forall g,
        dict_mem v (DirectedGraph._structure g) = false
        \/ dict_mem w (DirectedGraph._structure g) = false ->
        DirectedGraph.add_edge v w x g = (Return None, g))
  /\ (forall g,
        DirectedInv.consistent g ->
        dict_mem v (DirectedGraph._structure g) = true ->
        dict_mem w (DirectedGraph._structure g) = true ->
        exists g',
          DirectedGraph.add_edge v w x g
            = (Return (Some (mkEdge (v, w) x)), g')
          /\ DirectedInv.out_edge_at g' v w = Some (mkEdge (v, w) x)
          /\ DirectedInv.in_edge_at g' w v = Some (mkEdge (v, w) x)
          /\ dict_keys (DirectedGraph._structure g')
             = dict_keys (DirectedGraph._structure g)
          /\ dict_keys (DirectedGraph._inedges g')
             = dict_keys (DirectedGraph._inedges g)
          /\ DirectedInv.consistent g'
          /\ (forall a b, ~ (a = v /\ b = w) ->
                DirectedInv.out_edge_at g' a b
                = DirectedInv.out_edge_at g a b)
          /\ (forall a b, ~ (a = w /\ b = v) ->
                DirectedInv.in_edge_at g' a b
                = DirectedInv.in_edge_at g a b)).
Proof.
  split; [intros g; apply add_edge_absent |].
  split; [intros g; apply add_edge_present |].
  split; [intros g; apply directed_add_edge_absent |].
  intros g. apply directed_add_edge_present.
Qed.

(** C6.  For a vertex that is not in the graph, [get_edges] returns
    [None], but [degree] raises [KeyError]: it reads
    [self._structure[v]] without the membership test that [get_edges]
    and [get_edge] make. *)
Theorem absent_vertex_queries (g : Graph.Graph) (v : Vertex) :
  dict_mem v (Graph._structure g) = false ->
  Graph.get_edges v g = (Return None, g)
  /\ Graph.degree v g = (Raise KeyError, g).
Proof.
  intros Hv. split.
  - unfold Graph.get_edges. erewrite bind_Return by reflexivity.
    rewrite Hv. reflexivity.
  - unfold Graph.degree. erewrite bind_Raise; [reflexivity |].
    apply structure_get_raise, dict_mem_false, Hv.
Qed.

Lemma absent_vertex_queries_witness :
  Graph.get_edges (mkVertex 4 "dummy") example_graph
    = (Return None, example_graph)
  /\ Graph.degree (mkVertex 4 "dummy") example_graph
    = (Raise KeyError, example_graph).
Proof. apply absent_vertex_queries. reflexivity. Defined.

(** C8.  In a graph with vertices [v] and [w], [add_edge(v, w, x)] after
    [add_edge(v, w, y)] replaces the edge: [num_edges] is the same before
    and after the second call, no dictionary has a key more, and the edge
    found under both vertices is the new one. *)
Theorem add_edge_idempotent (g : Graph.Graph) (v w : Vertex) (x y : Z) :
  dict_mem v (Graph._structure g) = true ->
  dict_mem w (Graph._structure g) = true ->
  let g1 := (Graph.add_edge v w y g).2 in
  let g2 := (Graph.add_edge v w x g1).2 in
  (Graph.num_edges g2).1 = (Graph.num_edges g1).1
  /\ dict_keys (Graph._structure g2) = dict_keys (Graph._structure g1)
  /\ (forall a,
        dict_keys <$> dict_get a (Graph._structure g2)
        = dict_keys <$> dict_get a (Graph._structure g1))
  /\ GraphInv.edge_at g2 v w = Some (mkEdge (v, w) x)
  /\ GraphInv.edge_at g2 w v = Some (mkEdge (v, w) x).
Proof.
  intros Hv Hw g1 g2.
  destruct (add_edge_present g v w y Hv Hw)
    as (g1' & Hrun1 & Hvw1 & Hwv1 & Hkeys1 & _).
  assert (g1 = g1') as E by (unfold g1; rewrite Hrun1; reflexivity).
  assert (Hmem1 : forall u, dict_mem u (Graph._structure g1)
                            = dict_mem u (Graph._structure g)).
  { intros u. rewrite E. apply eq_true_iff_eq.
    rewrite !dict_mem_keys, Hkeys1. reflexivity. }
  destruct (add_edge_existing g1 v w x) as (Htot & Hkeys & Hadj).
  { rewrite E, Hvw1. eauto. }
  { rewrite E, Hwv1. eauto. }
  destruct (add_edge_present g1 v w x) as (g2' & Hrun2 & Hvw2 & Hwv2 & _).
  { rewrite Hmem1. exact Hv. }
  { rewrite Hmem1. exact Hw. }
  assert (g2 = g2') as E2 by (unfold g2; rewrite Hrun2; reflexivity).
  split; [| split; [exact Hkeys | split; [exact Hadj |]]].
  - rewrite !num_edges_run. simpl. fold g2. unfold g2. rewrite Htot.
    reflexivity.
  - rewrite E2. auto.
Qed.

Lemma add_edge_idempotent_witness :
  let g1 := (Graph.add_edge vA vD 7 example_graph).2 in
  let g2 := (Graph.add_edge vA vD 9 g1).2 in
  (Graph.num_edges g2).1 = (Graph.num_edges g1).1
  /\ dict_keys (Graph._structure g2) = dict_keys (Graph._structure g1)
  /\ (forall a,
        dict_keys <$> dict_get a (Graph._structure g2)
        = dict_keys <$> dict_get a (Graph._structure g1))
  /\ GraphInv.edge_at g2 vA vD = Some (mkEdge (vA, vD) 9)
  /\ GraphInv.edge_at g2 vD vA = Some (mkEdge (vA, vD) 9).
Proof. apply add_edge_idempotent; reflexivity. Defined.

Lemma flips_same_edge es0 : forall es,
  Forall2 same_edge es es0 -> es ∈ flips es0.
Proof.
  induction es0 as [|e0 es0 IH]; intros es Hall.
  - apply Forall2_nil_inv_r in Hall as ->. apply list_elem_of_singleton.
    reflexivity.
  - apply Forall2_cons_inv_r in Hall as (e & es' & Hsame & Hall & ->).
    simpl. apply list_elem_of_bind. exists es'.
    split; [| apply IH, Hall].
    destruct Hsame as [-> | ->].
    + apply elem_of_cons. auto.
    + apply elem_of_cons. right. apply elem_of_cons. auto.
Qed.

Lemma example_all_orders :
  forallb (fun es0 =>
    forallb (fun es => is_example_result (Dijkstra.dijkstra (graph_of es) vA))
      (flips es0))
    (permutations example_edges) = true.
Proof. vm_compute. reflexivity. Qed.

(** C1.  On the graph with the vertices A, B, C, D and the edges A-B 1,
    B-C 2, A-C 5, C-D 1, added in any order and with either endpoint
    first, [dijkstra] from A returns the costs A 0, B 1, C 3, D 4 with the
    predecessors [None], A, B, C. *)
Theorem dijkstra_example (es es0 : list (Vertex * Vertex * Z)) :
  Forall2 same_edge es es0 -> es0 ≡ₚ example_edges ->
  Dijkstra.dijkstra (graph_of es) vA = Return example_result.
Proof.
  intros Hsame Hperm.
  apply flips_same_edge in Hsame.
  symmetry in Hperm. apply permutations_Permutation in Hperm.
  pose proof example_all_orders as Hall.
  rewrite forallb_forall in Hall.
  specialize (Hall es0 ltac:(apply list_elem_of_In; exact Hperm)).
  rewrite forallb_forall in Hall.
  specialize (Hall es ltac:(apply list_elem_of_In; exact Hsame)).
  unfold is_example_result in Hall.
  destruct (Dijkstra.dijkstra (graph_of es) vA) as [d| |];
    try discriminate.
  apply bool_decide_eq_true_1 in Hall. rewrite Hall. reflexivity.
Qed.

Lemma dijkstra_example_witness :
  Dijkstra.dijkstra example_graph vA = Return example_result.
Proof.
  apply (dijkstra_example example_edges example_edges).
  - repeat constructor.
  - reflexivity.
Defined.

(** ** The traversal *)

Lemma bind_Return_inv {S A B} (c : M S A) (k : A -> M S B) s b s' :
  bind c k s = (Return b, s') ->
  exists a s1, c s = (Return a, s1) /\ k a s1 = (Return b, s').
Proof.
  unfold bind. destruct (c s) as [[a| |] s1]; intros Hk;
    try discriminate. eauto.
Qed.

Section DijkstraFacts.

Import Dijkstra DijkstraInv.

Local Abbreviation length := List.length.

Implicit Types st : State.

Lemma with_open_run {A} (c : APQ.H pyvertex A) st o h' :
  c (open st) = (o, h') ->
  with_open c st =
  (o, {| open := h'; locs := locs st; closed := closed st;
         preds := preds st |}).
Proof. unfold with_open. intros ->. reflexivity. Qed.

Lemma value_of_frame h h' r w :
  APQInv.frame_val h h' -> value_of h r = Some w -> value_of h' r = Some w.
Proof.
  unfold value_of. intros Hf Hr.
  destruct (APQ.objects h !! r) as [e|] eqn:E; [| discriminate].
  destruct (Hf _ _ E) as (e' & -> & Hv). simpl in *. congruence.
Qed.

Lemma elem_of_open_values st w :
  w ∈ open_values st <->
  exists r, r ∈ APQ._body (open st) /\ value_of (open st) r = Some w.
Proof. unfold open_values. rewrite list_elem_of_omap. reflexivity. Qed.

Lemma later_refl st : later st st.
Proof. split; auto. Qed.

Lemma later_trans st1 st2 st3 : later st1 st2 -> later st2 st3 -> later st1 st3.
Proof.
  intros [Hc12 Ho12] [Hc23 Ho23]. split.
  - auto.
  - intros w Hw. destruct (Ho12 w Hw) as [Hw2|Hw2]; [auto |].
    right. apply dict_mem_true in Hw2 as [x Hx].
    apply dict_mem_true. eauto.
Qed.

Lemma Inv_entry s : Inv (entry s).
Proof.
  split.
  - change (open (entry s)) with
      {| APQ.objects := [APQ.mkElement 0%Z (Some s) 0];
         APQ._body := [0]; APQ._size := 1 |}.
    split; [split |].
    + reflexivity.
    + intros i r Hr. destruct i as [|i]; [| discriminate].
      injection Hr as <-. eexists. split; reflexivity.
    + intros i Hi. simpl in Hi. lia.
  - intros w r Hr. change (locs (entry s)) with [(Some s, 0)] in Hr.
    simpl in Hr. case_decide; [| discriminate].
    injection Hr as <-. subst w. split.
    + apply list_elem_of_singleton. reflexivity.
    + reflexivity.
  - intros r Hr. change (APQ._body (open (entry s))) with [0] in Hr.
    apply list_elem_of_singleton in Hr as ->.
    exists (Some s). split; [reflexivity |].
    change (locs (entry s)) with [(Some s, 0)]. simpl.
    rewrite decide_True by reflexivity. reflexivity.
  - intros w. change (preds (entry s)) with [(Some s, @None Vertex)].
    change (locs (entry s)) with [(Some s, 0)].
    unfold dict_mem. simpl. case_decide; reflexivity.
  - intros w _. reflexivity.
Qed.

Lemma grows_refl st : grows st st.
Proof.
  split; [reflexivity |]. split; [auto |]. intros r e He. eauto.
Qed.

Lemma grows_trans st1 st2 st3 : grows st1 st2 -> grows st2 st3 -> grows st1 st3.
Proof.
  intros (Hc1 & Hb1 & Hf1) (Hc2 & Hb2 & Hf2).
  split; [congruence |]. split; [auto |].
  eapply frame_val_trans; eassumption.
Qed.

Lemma grows_later st st' : grows st st' -> later st st'.
Proof.
  intros (Hc & Hb & Hf). split.
  - intros w x. rewrite Hc. auto.
  - intros w Hw. left. apply elem_of_open_values in Hw as (r & Hr & Hv).
    apply elem_of_open_values. exists r.
    split; [auto | eapply value_of_frame; eauto].
Qed.

Lemma get_key_run (h : APQ.Heap_APQ pyvertex) r e :
  APQ.objects h !! r = Some e -> APQ.get_key r h = (Return (APQ._key e), h).
Proof.
  intros He. unfold APQ.get_key.
  erewrite bind_Return by (apply deref_run; exact He). reflexivity.
Qed.

(** One iteration of the [for] loop returns and keeps the invariant;
    the only vertex it can add to [locs] is the opposite end of the
    edge. *)
Lemma relax_spec v cost e st :
  Inv st ->
  exists st', relax v cost e st = (Return tt, st') /\ Inv st'
    /\ grows st st'
    /\ (forall w, dict_mem w (locs st') = true ->
          dict_mem w (locs st) = true \/ w = opposite e v).
Proof.
  intros HInv. destruct st as [h l c p].
  destruct HInv as [Hgood Hlocs Hbody Hpreds Hclosed]. simpl in *.
  unfold relax. set (w := opposite e v).
  erewrite bind_Return by reflexivity. cbn [closed locs].
  destruct (dict_mem w c) eqn:Hc.
  { exists (mkState h l c p). split; [reflexivity |].
    split; [split; assumption |]. split; [apply grows_refl | auto]. }
  change (negb false) with true. cbv iota.
  destruct (dict_mem w l) eqn:Hl.
  - change (negb true) with false. cbv iota.
    pose proof Hl as Hl'. apply dict_mem_true in Hl' as [r Hr].
    destruct (Hlocs _ _ Hr) as [Hrb Hrv].
    unfold value_of in Hrv.
    destruct (APQ.objects h !! r) as [er|] eqn:Her; [| discriminate].
    erewrite bind_Return by (unfold locs_get; simpl; rewrite Hr; reflexivity).
    erewrite bind_Return
      by (apply with_open_run, get_key_run; simpl; exact Her).
    simpl.
    destruct (cost + e_element e <? APQ._key er)%Z.
    2:{ exists (mkState h l c p). split; [reflexivity |].
        split; [split; assumption |]. split; [apply grows_refl | auto]. }
    destruct (update_key_spec h r (cost + e_element e)%Z Hgood Hrb)
      as (h' & Hrun & Hgood' & Hs' & Ho' & Hm' & Hf').
    erewrite bind_Return by reflexivity.
    erewrite bind_Return by (unfold locs_get; simpl; rewrite Hr; reflexivity).
    erewrite with_open_run by (simpl; exact Hrun). simpl.
    assert (Hfv : APQInv.frame_val h h').
    { intros r0 e0 He0. destruct (Hf' _ _ He0) as (e' & ? & ? & _). eauto. }
    eexists. split; [reflexivity |]. split; [split; simpl |].
    + exact Hgood'.
    + intros w0 r0 Hr0. destruct (Hlocs _ _ Hr0) as [Hb0 Hv0].
      split; [apply Hm', Hb0 | eapply value_of_frame; eauto].
    + intros r0 Hr0. apply Hm' in Hr0.
      destruct (Hbody _ Hr0) as (w0 & Hv0 & Hl0).
      exists w0. split; [eapply value_of_frame; eauto | exact Hl0].
    + intros w0. rewrite dict_mem_set.
      case_decide; [subst; rewrite Hl; reflexivity | apply Hpreds].
    + exact Hclosed.
    + split; [| auto]. split; [reflexivity |]. simpl.
      split; [intros r0; apply Hm' | exact Hfv].
  - change (negb false) with true. cbv iota.
    destruct (add_spec h (cost + e_element e)%Z w Hgood)
      as (h' & Hrun & Hgood' & Hs' & Ho' & Hf' & (en & Hen & _ & Hvn) & Hm').
    erewrite bind_Return by reflexivity.
    erewrite bind_Return by (apply with_open_run; simpl; exact Hrun).
    simpl.
    assert (Hfv : APQInv.frame_val h h') by (apply frame_frame_val, Hf').
    assert (Hfresh : forall r0, r0 ∈ APQ._body h ->
              r0 <> List.length (APQ.objects h)).
    { intros r0 Hr0 ->. apply list_elem_of_lookup in Hr0 as [i Hi].
      pose proof (body_ref_valid h i _ (proj1 Hgood) Hi). lia. }
    eexists. split; [reflexivity |]. split; [split; simpl |].
    + exact Hgood'.
    + intros w0 r0 Hr0. destruct (decide (w = w0)) as [<- |Hne].
      * rewrite dict_get_set_eq in Hr0. injection Hr0 as <-.
        split; [apply Hm'; auto |].
        unfold value_of. rewrite Hen. simpl. congruence.
      * rewrite dict_get_set_ne in Hr0 by exact Hne.
        destruct (Hlocs _ _ Hr0) as [Hb0 Hv0].
        split; [apply Hm'; auto | eapply value_of_frame; eauto].
    + intros r0 Hr0. apply Hm' in Hr0 as [Hr0 | ->].
      * destruct (Hbody _ Hr0) as (w0 & Hv0 & Hl0).
        exists w0. split; [eapply value_of_frame; eauto |].
        rewrite dict_get_set_ne; [exact Hl0 |].
        intros <-. apply dict_mem_false in Hl. congruence.
      * exists w. split; [| apply dict_get_set_eq].
        unfold value_of. rewrite Hen. simpl. congruence.
    + intros w0. rewrite !dict_mem_set.
      case_decide; [reflexivity | apply Hpreds].
    + intros w0. rewrite dict_mem_set.
      case_decide; [subst; auto | apply Hclosed].
    + split.
      * split; [reflexivity |]. simpl.
        split; [intros r0 Hr0; apply Hm'; auto | exact Hfv].
      * intros w0. simpl. rewrite dict_mem_set.
        case_decide; [subst; auto | auto].
Qed.

(** Lines 74 to 77 on a queue that is not empty: the root leaves
    [open], [locs] and [preds], and enters [closed] with its key and
    its predecessor. *)
Lemma extract_spec st :
  Inv st -> 0 < APQ._size (open st) ->
  exists r0 e0 p st1,
    APQ._body (open st) !! 0 = Some r0
    /\ APQ.objects (open st) !! r0 = Some e0
    /\ dict_get (APQ._value e0) (preds st) = Some p
    /\ dict_mem (APQ._value e0) (locs st) = true
    /\ extract st = (Return (APQ._value e0, APQ._key e0), st1)
    /\ Inv st1
    /\ closed st1 = dict_set (APQ._value e0) (APQ._key e0, p) (closed st)
    /\ later st st1
    /\ (forall w, dict_mem w (locs st1) = true ->
          dict_mem w (locs st) = true)
    /\ APQ._size (open st1) = APQ._size (open st) - 1.
Proof.
  intros HInv Hsize. destruct st as [h l c p].
  destruct HInv as [Hgood Hlocs Hbody Hpreds Hclosed]. simpl in *.
  destruct (remove_min_spec h Hgood Hsize)
    as (r0 & e0 & h' & Hr0 & He0 & Hrun & Hgood' & Hs' & Ho' & Hf' & Hm').
  set (v := APQ._value e0) in *.
  assert (Hr0b : r0 ∈ APQ._body h) by (eapply list_elem_of_lookup_2; eauto).
  destruct (Hbody _ Hr0b) as (v' & Hv' & Hlv).
  assert (v' = v) as ->.
  { unfold value_of in Hv'. rewrite He0 in Hv'. simpl in Hv'.
    injection Hv' as <-. reflexivity. }
  assert (Hml : dict_mem v l = true) by (apply dict_mem_true; eauto).
  assert (Hmp : dict_mem v p = true) by (rewrite Hpreds; exact Hml).
  pose proof Hmp as Hp. apply dict_mem_true in Hp as [pv Hpv].
  assert (Hfv : APQInv.frame_val h h') by (apply frame_frame_val, Hf').
  exists r0, e0, pv.
  eexists. split; [exact Hr0 |]. split; [exact He0 |].
  split; [exact Hpv |]. split; [exact Hml |].
  split.
  { unfold extract.
    erewrite bind_Return by (apply with_open_run; simpl; exact Hrun).
    cbv iota beta.
    erewrite bind_Return
      by (unfold locs_del; cbn [locs]; rewrite Hml; reflexivity).
    erewrite bind_Return
      by (unfold preds_pop; cbn [preds]; rewrite Hpv; reflexivity).
    erewrite bind_Return by reflexivity.
    reflexivity. }
  cbn [open locs closed preds].
  split; [split; cbn [open locs closed preds]
         | split; [reflexivity | split; [| split; [| exact Hs']]]].
  - exact Hgood'.
  - intros w r Hr.
    destruct (decide (v = w)) as [<- |Hne];
      [rewrite dict_get_del_eq in Hr; discriminate |].
    rewrite dict_get_del_ne in Hr by exact Hne.
    destruct (Hlocs _ _ Hr) as [Hrb Hrv].
    split; [| eapply value_of_frame; eauto].
    apply Hm'. split; [exact Hrb |]. intros ->. congruence.
  - intros r Hr. apply Hm' in Hr as [Hrb Hne].
    destruct (Hbody _ Hrb) as (w & Hw & Hlw).
    exists w. split; [eapply value_of_frame; eauto |].
    rewrite dict_get_del_ne; [exact Hlw |]. intros <-. congruence.
  - intros w. destruct (decide (v = w)) as [<- |Hne].
    + unfold dict_mem. rewrite !dict_get_del_eq. reflexivity.
    + unfold dict_mem. rewrite !dict_get_del_ne by exact Hne. apply Hpreds.
  - intros w Hw. unfold dict_mem in Hw.
    destruct (decide (v = w)) as [<- |Hne];
      [rewrite dict_get_del_eq in Hw; discriminate |].
    rewrite dict_get_del_ne in Hw by exact Hne.
    rewrite dict_mem_set, decide_False by exact Hne. apply Hclosed, Hw.
  - split; cbn [open locs closed preds].
    + intros w x Hx. destruct (decide (v = w)) as [<- |Hne].
      * specialize (Hclosed _ Hml). apply dict_mem_false in Hclosed.
        congruence.
      * rewrite dict_get_set_ne by exact Hne. exact Hx.
    + intros w Hw. apply elem_of_open_values in Hw as (r & Hrb & Hrv).
      cbn [open] in Hrb, Hrv.
      destruct (decide (r = r0)) as [-> |Hne].
      * right. assert (w = v) as ->.
        { unfold value_of in Hrv. rewrite He0 in Hrv. simpl in Hrv.
          injection Hrv as <-. reflexivity. }
        rewrite dict_mem_set, decide_True by reflexivity. reflexivity.
      * left. apply elem_of_open_values. exists r. cbn [open].
        split; [apply Hm'; auto | eapply value_of_frame; eauto].
  - intros w Hw. unfold dict_mem in Hw |- *.
    destruct (decide (v = w)) as [<- |Hne];
      [rewrite dict_get_del_eq in Hw; discriminate |].
    rewrite dict_get_del_ne in Hw by exact Hne. exact Hw.
Qed.

Lemma is_empty_run h l c p :
  with_open APQ.is_empty (mkState h l c p) =
  (Return (bool_decide (APQ._size h = 0)), mkState h l c p).
Proof.
  unfold with_open, APQ.is_empty, bind, APQ.get_size. simpl.
  case_bool_decide; reflexivity.
Qed.

Lemma edges_of_state g v st o st' : edges_of g v st = (o, st') -> st' = st.
Proof.
  unfold edges_of. destruct v as [v'|]; [| intros [= _ <-]; reflexivity].
  destruct (Graph.get_edges v' g).1 as [[edges|]| |];
    intros [= _ <-]; reflexivity.
Qed.

(** Every step of the run keeps the invariant, the entries of [closed]
    and the vertices of [open] that it does not close. *)
Lemma step_spec g c st c' st' :
  Inv st -> step g c st = (Return (Some c'), st') ->
  Inv st' /\ later st st'.
Proof.
  intros HInv Hstep. destruct c as [|v cost [|e rest]]; simpl in Hstep.
  - destruct st as [h l c0 p].
    apply bind_Return_inv in Hstep as (emp & s1 & Hemp & Hstep).
    rewrite is_empty_run in Hemp. injection Hemp as <- <-.
    case_bool_decide as Hsz; [discriminate |].
    apply bind_Return_inv in Hstep as ([v cost] & st1 & Hext & Hstep).
    apply bind_Return_inv in Hstep as (edges & st2 & Hedges & Hstep).
    apply edges_of_state in Hedges as ->.
    injection Hstep as _ <-.
    destruct (extract_spec (mkState h l c0 p) HInv)
      as (r0 & e0 & pv & st1' & _ & _ & _ & _ & Hrun & HInv1 & _ & Hlater & _);
      [simpl; lia |].
    rewrite Hrun in Hext. injection Hext as _ _ <-. auto.
  - injection Hstep as _ <-. split; [exact HInv | apply later_refl].
  - apply bind_Return_inv in Hstep as ([] & st1 & Hrelax & Hstep).
    injection Hstep as _ <-.
    destruct (relax_spec v cost e st HInv) as (st1' & Hrun & HInv1 & Hgr & _).
    rewrite Hrun in Hrelax. injection Hrelax as <-.
    split; [exact HInv1 | apply grows_later, Hgr].
Qed.

Lemma steps_spec g n : forall c st c' st',
  Inv st -> steps g n c st = Some (c', st') -> Inv st' /\ later st st'.
Proof.
  induction n as [|n IH]; intros c st c' st' HInv Hsteps; simpl in Hsteps.
  - injection Hsteps as _ <-. split; [exact HInv | apply later_refl].
  - destruct (step g c st) as [[[c1|]| |] st1] eqn:Hstep;
      try discriminate.
    destruct (step_spec g c st c1 st1 HInv Hstep) as [HInv1 Hl1].
    destruct (IH c1 st1 c' st' HInv1 Hsteps) as [HInv' Hl'].
    split; [exact HInv' | eapply later_trans; eassumption].
Qed.

Lemma closed_not_open st w :
  Inv st -> dict_mem w (closed st) = true -> w ∉ open_values st.
Proof.
  intros HInv Hc Ho. apply elem_of_open_values in Ho as (r & Hr & Hv).
  destruct (inv_body st HInv r Hr) as (w0 & Hv0 & Hl0).
  assert (w0 = w) as -> by congruence.
  assert (Hl : dict_mem w (locs st) = true) by (apply dict_mem_true; eauto).
  rewrite (inv_closed st HInv w Hl) in Hc. discriminate.
Qed.

(** *** The loop of the source and the machine *)

Lemma steps_app g n m : forall c st c1 st1,
  steps g n c st = Some (c1, st1) ->
  steps g (n + m) c st = steps g m c1 st1.
Proof.
  induction n as [|n IH]; intros c st c1 st1 Hn; simpl in Hn |- *.
  - injection Hn as <- <-. reflexivity.
  - destruct (step g c st) as [[[c2|]| |] st2]; try discriminate.
    apply IH, Hn.
Qed.

Lemma for_each_steps g v cost edges : forall st st',
  for_each edges (relax v cost) st = (Return tt, st') ->
  steps g (length edges) (InFor v cost edges) st
  = Some (InFor v cost [], st').
Proof.
  induction edges as [|e rest IH]; intros st st' Hrun; simpl in Hrun |- *.
  - injection Hrun as <-. reflexivity.
  - apply bind_Return_inv in Hrun as ([] & st1 & Hrelax & Hrest).
    erewrite bind_Return by exact Hrelax. simpl. apply IH, Hrest.
Qed.

Lemma dijkstra_loop_unfold g fuel :
  dijkstra_loop g fuel =
  let* emp := with_open APQ.is_empty in
  if emp then ret tt
  else
    match fuel with
    | 0 => out_of_fuel
    | S fuel' =>
        let* '(v, cost) := extract in
        let* edges := edges_of g v in
        for_each edges (relax v cost);;
        dijkstra_loop g fuel'
    end.
Proof. destruct fuel; reflexivity. Qed.

(** A run of the [while] loop that returns is a run of the machine from
    the head of the loop to the head of the loop with [open] empty. *)
Lemma loop_steps g fuel : forall st st',
  dijkstra_loop g fuel st = (Return tt, st') ->
  exists n, steps g n AtHead st = Some (AtHead, st')
    /\ step g AtHead st' = (Return None, st').
Proof.
  induction fuel as [|fuel IH]; intros [h l c p] st' Hrun;
    rewrite dijkstra_loop_unfold in Hrun;
    apply bind_Return_inv in Hrun as (emp & s1 & Hemp & Hrun);
    rewrite is_empty_run in Hemp; injection Hemp as <- <-;
    (case_bool_decide as Hsz;
     [injection Hrun as <-; exists 0; split; [reflexivity |];
      simpl; erewrite bind_Return by apply is_empty_run;
      rewrite bool_decide_eq_true_2 by exact Hsz; reflexivity |]).
  - discriminate.
  - apply bind_Return_inv in Hrun as ([v cost] & st1 & Hext & Hrun).
    apply bind_Return_inv in Hrun as (edges & st2 & Hedges & Hrun).
    pose proof (edges_of_state _ _ _ _ _ Hedges) as ->.
    apply bind_Return_inv in Hrun as ([] & st3 & Hfor & Hrun).
    destruct (IH st3 st' Hrun) as (n & Hn & Hhalt).
    exists (S (length edges + S n)). split; [| exact Hhalt].
    simpl. erewrite bind_Return by apply is_empty_run.
    rewrite bool_decide_eq_false_2 by exact Hsz.
    erewrite bind_Return by exact Hext. cbv iota beta.
    erewrite bind_Return by exact Hedges.
    unfold ret at 1.
    rewrite (steps_app g _ _ _ _ _ _ (for_each_steps g v cost edges _ _ Hfor)).
    simpl. exact Hn.
Qed.

Lemma prologue_run s : prologue s (start_state s) = (Return tt, entry s).
Proof. reflexivity. Qed.

(** The states of [dijkstra] are the states of the machine. *)
Lemma dijkstra_steps g s d :
  dijkstra g s = Return d ->
  exists n st', steps g n AtHead (entry s) = Some (AtHead, st')
    /\ step g AtHead st' = (Return None, st') /\ closed st' = d.
Proof.
  unfold dijkstra, dijkstra_run. intros Hrun.
  erewrite bind_Return in Hrun by apply prologue_run.
  destruct (dijkstra_loop g (S (length (Graph._structure g))) (entry s))
    as [[[]| |] st'] eqn:Hloop.
  - erewrite bind_Return in Hrun by exact Hloop.
    simpl in Hrun. injection Hrun as <-.
    destruct (loop_steps g _ _ _ Hloop) as (n & Hn & Hhalt).
    exists n, st'. auto.
  - erewrite bind_Raise in Hrun by exact Hloop. discriminate.
  - unfold bind in Hrun. rewrite Hloop in Hrun. discriminate.
Qed.

(** C9.  In every run of [dijkstra], from any state of the run to any
    later one: the status of a vertex goes from unseen to open to
    closed and never back; an entry of [closed] stays as it is; a vertex
    in [closed] is not in [open].  The states of the run are those of
    the machine, the last of which holds the mapping [dijkstra]
    returns. *)
Theorem closed_is_final g s n m c st c' st' :
  steps g n AtHead (entry s) = Some (c, st) ->
  steps g m c st = Some (c', st') ->
  (forall w, status_le (status_of st w) (status_of st' w))
  /\ (forall w x, dict_get w (closed st) = Some x ->
        dict_get w (closed st') = Some x /\ w ∉ open_values st')
  /\ (forall d, dijkstra g s = Return d ->
        exists k st_end,
          steps g k AtHead (entry s) = Some (AtHead, st_end)
          /\ closed st_end = d).
Proof.
  intros Hn Hm.
  destruct (steps_spec g n _ _ _ _ (Inv_entry s) Hn) as [HInv _].
  destruct (steps_spec g m _ _ _ _ HInv Hm) as [HInv' [Hcl Hop]].
  split; [| split].
  3:{ intros d Hd. destruct (dijkstra_steps g s d Hd)
        as (k & st_end & Hk & _ & Hc). eauto. }
  - intros w. unfold status_of.
    destruct (dict_mem w (closed st)) eqn:Hc.
    + apply dict_mem_true in Hc as [x Hx].
      assert (dict_mem w (closed st') = true) as ->
        by (apply dict_mem_true; eauto).
      exact I.
    + case_bool_decide as Ho; [| exact I].
      destruct (Hop w Ho) as [Ho'|Hc'].
      * destruct (dict_mem w (closed st')); [exact I |].
        rewrite bool_decide_eq_true_2 by exact Ho'. exact I.
      * rewrite Hc'. exact I.
  - intros w x Hx. split; [auto |].
    apply closed_not_open; [exact HInv' |].
    apply dict_mem_true. eauto.
Qed.

(** *** Termination *)

Lemma filter_length_le {A} (P Q : A -> Prop)
  `{forall x, Decision (P x)} `{forall x, Decision (Q x)} (l : list A) :
  (forall x, Q x -> P x) ->
  length (filter Q l) <= length (filter P l).
Proof.
  intros HQP. induction l as [|x l IH]; [reflexivity |].
  rewrite !filter_cons.
  destruct (decide (Q x)) as [HQ|HQ].
  - rewrite decide_True by auto. simpl. lia.
  - destruct (decide (P x)); simpl; lia.
Qed.

Lemma filter_length_lt {A} (P Q : A -> Prop)
  `{forall x, Decision (P x)} `{forall x, Decision (Q x)} (l : list A) a :
  (forall x, Q x -> P x) -> a ∈ l -> P a -> ~ Q a ->
  length (filter Q l) < length (filter P l).
Proof.
  intros HQP Ha HPa HQa. induction l as [|x l IH]; [inversion Ha |].
  rewrite !filter_cons. apply elem_of_cons in Ha as [<- |Ha].
  - rewrite decide_False by exact HQa. rewrite decide_True by exact HPa.
    pose proof (filter_length_le P Q l HQP). simpl. lia.
  - specialize (IH Ha). destruct (decide (Q x)) as [HQ|HQ].
    + rewrite decide_True by auto. simpl. lia.
    + destruct (decide (P x)); simpl; lia.
Qed.

Lemma unclosed_decrease g st st1 v x :
  dict_mem v (Graph._structure g) = true ->
  dict_mem (Some v) (closed st) = false ->
  closed st1 = dict_set (Some v) x (closed st) ->
  length (unclosed g st1) < length (unclosed g st).
Proof.
  intros Hv Hc Hst1. unfold unclosed. rewrite Hst1.
  apply (filter_length_lt _ _ _ v).
  - intros u. rewrite dict_mem_set. case_decide; [discriminate | auto].
  - apply dict_mem_keys, Hv.
  - exact Hc.
  - rewrite dict_mem_set, decide_True by reflexivity. discriminate.
Qed.

Lemma edges_of_run g v adj st :
  dict_get v (Graph._structure g) = Some adj ->
  edges_of g (Some v) st = (Return (dict_values adj), st).
Proof.
  intros Hv. unfold edges_of, Graph.get_edges.
  erewrite bind_Return by reflexivity.
  unfold dict_mem. rewrite Hv.
  erewrite bind_Return by (apply structure_get_run; exact Hv).
  reflexivity.
Qed.

Lemma edges_ok g v adj :
  GraphInv.wf g -> dict_get v (Graph._structure g) = Some adj ->
  Forall (edge_ok g (Some v)) (dict_values adj).
Proof.
  intros Hwf Hv. apply Forall_forall. intros e He.
  unfold dict_values in He.
  apply list_elem_of_fmap in He as [[w e'] [-> Hin]]. simpl.
  destruct (Hwf v adj (dict_get_elem_of _ _ _ Hv) w e' Hin) as [Hm Ho].
  exists w. auto.
Qed.

(** The [for] loop over edges of the graph returns and keeps the
    invariants. *)
Lemma for_each_relax g v cost edges : forall st,
  Inv st -> VInv g st -> Forall (edge_ok g v) edges ->
  exists st', for_each edges (relax v cost) st = (Return tt, st')
    /\ Inv st' /\ VInv g st' /\ grows st st'.
Proof.
  induction edges as [|e rest IH]; intros st HInv HV Hok.
  - exists st. split; [reflexivity |]. auto using grows_refl.
  - apply Forall_cons in Hok as [(w & Hw & Hwg) Hok].
    destruct (relax_spec v cost e st HInv) as (st1 & Hrun & HInv1 & Hgr & Hl).
    assert (HV1 : VInv g st1).
    { intros w0 Hw0. destruct (Hl _ Hw0) as [Hold | ->]; [auto |].
      rewrite Hw. eauto. }
    destruct (IH st1 HInv1 HV1 Hok) as (st' & Hrun' & HInv' & HV' & Hgr').
    exists st'. split.
    + simpl. erewrite bind_Return by exact Hrun. exact Hrun'.
    + split; [exact HInv' |]. split; [exact HV' |].
      eapply grows_trans; eassumption.
Qed.

(** On a well-formed graph the [while] loop returns within as many
    iterations as there are vertices not closed; the state it returns
    has [open] empty, and the root of [open] at the start is in
    [closed] at the end with the key and predecessor it had. *)
Lemma loop_spec g :
  GraphInv.wf g ->
  forall fuel st,
    Inv st -> VInv g st -> length (unclosed g st) <= fuel ->
    exists st', dijkstra_loop g fuel st = (Return tt, st')
      /\ Inv st' /\ later st st' /\ APQ._size (open st') = 0
      /\ (forall r0 e0 p,
            APQ._body (open st) !! 0 = Some r0 ->
            APQ.objects (open st) !! r0 = Some e0 ->
            dict_get (APQ._value e0) (preds st) = Some p ->
            dict_get (APQ._value e0) (closed st')
            = Some (APQ._key e0, p)).
Proof.
  intros Hwf fuel. induction fuel as [|fuel IH];
    intros [h l c p] HInv HV Hfuel;
    rewrite dijkstra_loop_unfold;
    erewrite bind_Return by apply is_empty_run;
    (case_bool_decide as Hsz;
     [exists (mkState h l c p); split; [reflexivity |];
      split; [exact HInv |]; split; [apply later_refl |];
      split; [exact Hsz |];
      intros r0 e0 p0 Hr0; cbn [open] in Hr0;
      apply lookup_lt_Some in Hr0;
      destruct (inv_good _ HInv) as [[Hlen _] _]; cbn [open] in Hlen; lia
     |]);
    destruct (extract_spec (mkState h l c p) HInv)
      as (r0 & e0 & pv & st1 & Hr0 & He0 & Hpv & Hml & Hrun & HInv1 & Hc1
          & Hlater1 & Hl1 & Hs1); [cbn [open]; lia | | cbn [open]; lia |];
    destruct (HV _ Hml) as (v & Hv & Hvg);
    assert (Hnc : dict_mem (Some v) c = false)
      by (rewrite <- Hv; apply (inv_closed _ HInv); exact Hml);
    pose proof (unclosed_decrease g (mkState h l c p) st1 v _ Hvg Hnc
                  ltac:(rewrite <- Hv; exact Hc1)) as Hdec.
  - lia.
  - pose proof Hvg as Hadj. apply dict_mem_true in Hadj as [adj Hadj].
    assert (HV1 : VInv g st1) by (intros w Hw; apply HV, Hl1, Hw).
    destruct (for_each_relax g (Some v) (APQ._key e0) (dict_values adj) st1
                HInv1 HV1 (edges_ok g v adj Hwf Hadj))
      as (st2 & Hfor & HInv2 & HV2 & Hgr2).
    destruct (IH st2 HInv2 HV2) as (st' & Hloop & HInv' & Hlater' & Hsz' & _).
    { unfold unclosed in *. destruct Hgr2 as [-> _]. lia. }
    exists st'. split.
    { erewrite bind_Return by exact Hrun. cbv iota beta.
      rewrite Hv.
      erewrite bind_Return by (apply edges_of_run; exact Hadj).
      erewrite bind_Return by exact Hfor. exact Hloop. }
    split; [exact HInv' |].
    assert (Hl2 : later st1 st') by
      (eapply later_trans; [apply grows_later; exact Hgr2 | exact Hlater']).
    split; [eapply later_trans; eassumption |].
    split; [exact Hsz' |].
    intros r0' e0' p0 Hr0' He0' Hp0. cbn [open preds] in *.
    assert (r0' = r0) as -> by congruence.
    assert (e0' = e0) as -> by congruence.
    assert (p0 = pv) as -> by congruence.
    apply (proj1 Hl2). rewrite Hc1. apply dict_get_set_eq.
Qed.

Lemma VInv_entry g s :
  dict_mem s (Graph._structure g) = true -> VInv g (entry s).
Proof.
  intros Hs w Hw. change (locs (entry s)) with [(Some s, 0)] in Hw.
  unfold dict_mem in Hw. simpl in Hw.
  case_decide; [| discriminate]. eauto.
Qed.

Lemma unclosed_length g st :
  length (unclosed g st) <= length (Graph._structure g).
Proof.
  unfold unclosed, dict_keys.
  etransitivity; [apply length_filter |]. rewrite length_fmap. reflexivity.
Qed.

(** C10.  For a graph built by [add_vertex] and [add_edge] and a vertex
    [s] of it, [dijkstra(s)] returns a mapping in which [s] has cost 0
    and predecessor [None]; when [s] has no edges, the mapping is that
    entry alone. *)
Theorem dijkstra_source g s :
  GraphInv.built g -> dict_mem s (Graph._structure g) = true ->
  exists d, dijkstra g s = Return d
    /\ dict_get (Some s) d = Some (0%Z, None)
    /\ (dict_get s (Graph._structure g) = Some [] ->
          d = [(Some s, (0%Z, None))]).
Proof.
  intros Hbuilt Hs. pose proof (built_wf g Hbuilt) as Hwf.
  destruct (loop_spec g Hwf (S (length (Graph._structure g))) (entry s)
              (Inv_entry s) (VInv_entry g s Hs)
              (Nat.le_le_succ_r _ _ (unclosed_length g _)))
    as (st' & Hloop & HInv' & Hlater & Hsz & Hroot).
  exists (closed st'). split; [| split].
  - unfold dijkstra, dijkstra_run.
    erewrite bind_Return by apply prologue_run.
    erewrite bind_Return by exact Hloop. reflexivity.
  - apply (Hroot 0 (APQ.mkElement 0%Z (Some s) 0) None); try reflexivity.
    change (preds (entry s)) with [(Some s, @None Vertex)]. simpl.
    rewrite decide_True by reflexivity. reflexivity.
  - intros Hadj.
    destruct (extract_spec (entry s) (Inv_entry s))
      as (r0 & e0 & pv & st1 & Hr0 & He0 & Hpv & _ & Hrun & _ & Hc1 & _ & _
          & Hs1); [simpl; lia |].
    change (APQ._body (open (entry s))) with [0] in Hr0.
    injection Hr0 as <-.
    change (APQ.objects (open (entry s)))
      with [APQ.mkElement 0%Z (Some s) 0] in He0.
    injection He0 as <-. cbn [APQ._value APQ._key] in *.
    change (preds (entry s)) with [(Some s, @None Vertex)] in Hpv.
    simpl in Hpv. rewrite decide_True in Hpv by reflexivity.
    injection Hpv as <-.
    change (closed (entry s)) with (@nil (pyvertex * (Z * pyvertex))) in Hc1.
    simpl in Hc1.
    change (APQ._size (open (entry s))) with 1 in Hs1. simpl in Hs1.
    rewrite dijkstra_loop_unfold in Hloop.
    assert (Hentry : entry s = mkState (open (entry s)) (locs (entry s))
                     (closed (entry s)) (preds (entry s))) by reflexivity.
    rewrite Hentry in Hloop at 1.
    erewrite bind_Return in Hloop by apply is_empty_run.
    rewrite bool_decide_eq_false_2 in Hloop by (simpl; lia).
    rewrite <- Hentry in Hloop.
    erewrite bind_Return in Hloop by exact Hrun. cbv iota beta in Hloop.
    erewrite bind_Return in Hloop by (apply edges_of_run; exact Hadj).
    simpl dict_values in Hloop. simpl for_each in Hloop.
    erewrite bind_Return in Hloop by reflexivity.
    rewrite dijkstra_loop_unfold in Hloop.
    destruct st1 as [h1 l1 c1 p1]. cbn [open closed] in *.
    erewrite bind_Return in Hloop by apply is_empty_run.
    rewrite bool_decide_eq_true_2 in Hloop by exact Hs1.
    injection Hloop as <-. exact Hc1.
Qed.

(** X15. [dijkstra] from a source that is no vertex of the graph
    raises [TypeError], whatever the graph is: the source is taken from
    [open], [get_edges] returns [None] for it, and the [for] cannot
    iterate over [None]. *)
Lemma dijkstra_absent_source g s :
  dict_mem s (Graph._structure g) = false ->
  dijkstra g s = Raise TypeError.
Proof.
  intros Hs. unfold dijkstra, dijkstra_run.
  erewrite bind_Return by apply prologue_run.
  destruct (extract_spec (entry s) (Inv_entry s))
    as (r0 & e0 & pv & st1 & Hr0 & He0 & _ & _ & Hrun & _);
    [simpl; lia |].
  change (APQ._body (open (entry s))) with [0] in Hr0.
  injection Hr0 as <-.
  change (APQ.objects (open (entry s)))
    with [APQ.mkElement 0%Z (Some s) 0] in He0.
  injection He0 as <-. cbn [APQ._value APQ._key] in Hrun.
  erewrite bind_Raise; [reflexivity |].
  rewrite dijkstra_loop_unfold.
  assert (Hentry : entry s = mkState (open (entry s)) (locs (entry s))
                   (closed (entry s)) (preds (entry s))) by reflexivity.
  rewrite Hentry at 1.
  erewrite bind_Return by apply is_empty_run.
  rewrite bool_decide_eq_false_2 by (simpl; lia).
  rewrite <- Hentry.
  erewrite bind_Return by exact Hrun. cbv iota beta.
  erewrite bind_Raise; [reflexivity |].
  unfold edges_of, Graph.get_edges.
  erewrite bind_Return by reflexivity. rewrite Hs. reflexivity.
Qed.

End DijkstraFacts.

Lemma add_edge_returns g v w x :
  exists o, Graph.add_edge v w x g = (Return o, (Graph.add_edge v w x g).2).
Proof.
  destruct (dict_mem v (Graph._structure g)) eqn:Hv;
    [destruct (dict_mem w (Graph._structure g)) eqn:Hw |].
  - destruct (add_edge_present g v w x Hv Hw) as (g' & -> & _). eauto.
  - rewrite add_edge_absent by auto. eauto.
  - rewrite add_edge_absent by auto. eauto.
Qed.

Lemma built_add_edges es : forall g,
  GraphInv.built g -> GraphInv.built (add_edges es g).2.
Proof.
  induction es as [|[[v w] x] es IH]; intros g Hg; [exact Hg |].
  unfold add_edges. simpl.
  destruct (add_edge_returns g v w x) as [o Ho].
  erewrite bind_Return.
  2:{ erewrite bind_Return by exact Ho. reflexivity. }
  apply IH. apply GraphInv.built_add_edge, Hg.
Qed.

Lemma built_graph_of es : GraphInv.built (graph_of es).
Proof.
  unfold graph_of.
  erewrite bind_Return by reflexivity.
  erewrite bind_Return by reflexivity.
  erewrite bind_Return by reflexivity.
  erewrite bind_Return by reflexivity.
  apply built_add_edges.
  repeat apply GraphInv.built_add_vertex. apply GraphInv.built_init.
Qed.

Lemma example_graph_built : GraphInv.built example_graph.
Proof.
  change example_graph with (graph_of example_edges). apply built_graph_of.
Qed.

Lemma closed_is_final_witness :
  (forall w, Dijkstra.status_le
               (Dijkstra.status_of (example_at 3).2 w)
               (Dijkstra.status_of (example_at 8).2 w))
  /\ (forall w x,
        dict_get w (Dijkstra.closed (example_at 3).2) = Some x ->
        dict_get w (Dijkstra.closed (example_at 8).2) = Some x
        /\ w ∉ Dijkstra.open_values (example_at 8).2)
  /\ (forall d, Dijkstra.dijkstra example_graph vA = Return d ->
        exists k st_end,
          Dijkstra.steps example_graph k Dijkstra.AtHead (Dijkstra.entry vA)
          = Some (Dijkstra.AtHead, st_end)
          /\ Dijkstra.closed st_end = d).
Proof.
  apply (closed_is_final example_graph vA 3 5 (example_at 3).1
           (example_at 3).2 (example_at 8).1 (example_at 8).2).
  - vm_compute. reflexivity.
  - vm_compute. reflexivity.
Defined.

Lemma dijkstra_source_witness :
  exists d, Dijkstra.dijkstra example_graph vA = Return d
    /\ dict_get (Some vA) d = Some (0%Z, None)
    /\ (dict_get vA (Graph._structure example_graph) = Some [] ->
          d = [(Some vA, (0%Z, None))]).
Proof.
  apply dijkstra_source.
  - exact example_graph_built.
  - reflexivity.
Defined.

(** A vertex without edges: the result is its own entry. *)
Example dijkstra_isolated :
  Dijkstra.dijkstra (Graph.add_vertex "E" 4 example_graph).2 (mkVertex 4 "E")
  = Return [(Some (mkVertex 4 "E"), (0%Z, None))].
Proof. vm_compute. reflexivity. Qed.

Lemma example_digraph_consistent : DirectedInv.consistent example_digraph.
Proof.
  unfold example_digraph.
  repeat apply directed_consistent_add_vertex.
  apply directed_consistent_init.
Qed.

Lemma add_edge_contract_witness :
  Graph.add_edge vA (mkVertex 4 "dummy") 1 example_graph
    = (Return None, example_graph)
  /\ (exists g',
        Graph.add_edge vA vD 7 example_graph
          = (Return (Some (mkEdge (vA, vD) 7)), g')
        /\ GraphInv.edge_at g' vA vD = Some (mkEdge (vA, vD) 7)
        /\ GraphInv.edge_at g' vD vA = Some (mkEdge (vA, vD) 7))
  /\ DirectedGraph.add_edge vA vC 1 example_digraph
       = (Return None, example_digraph)
  /\ (exists g',
        DirectedGraph.add_edge vA vB 3 example_digraph
          = (Return (Some (mkEdge (vA, vB) 3)), g')
        /\ DirectedInv.out_edge_at g' vA vB = Some (mkEdge (vA, vB) 3)
        /\ DirectedInv.in_edge_at g' vB vA = Some (mkEdge (vA, vB) 3)).
Proof.
  split; [| split; [| split]].
  - apply (proj1 (add_edge_contract vA (mkVertex 4 "dummy") 1)).
    right. reflexivity.
  - destruct (proj1 (proj2 (add_edge_contract vA vD 7)) example_graph
                eq_refl eq_refl) as (g' & H1 & H2 & H3 & _).
    exists g'. auto.
  - apply (proj1 (proj2 (proj2 (add_edge_contract vA vC 1)))).
    right. reflexivity.
  - destruct (proj2 (proj2 (proj2 (add_edge_contract vA vB 3)))
                example_digraph example_digraph_consistent eq_refl eq_refl)
      as (g' & H1 & H2 & H3 & _).
    exists g'. auto.
Defined.

(** ** More on the priority queue *)

Section APQMore.

Import APQ APQInv APQClient.

Local Abbreviation length := List.length.

Context {V : Type}.

Implicit Types h : Heap_APQ V.

(** In a heap the root has the least key. *)
Lemma root_minimal h :
  heap_ordered h ->
  forall i, i < length (_body h) -> (key_at h 0 <= key_at h i)%Z.
Proof.
  intros Hheap i. induction i as [i IH] using lt_wf_ind. intros Hi.
  destruct (decide (i = 0)) as [-> |Hpos]; [lia |].
  pose proof (parent_lt i ltac:(lia)) as Hp.
  transitivity (key_at h (parent i)).
  - apply IH; lia.
  - apply Hheap. lia.
Qed.

Lemma root_least h r0 e0 :
  good h -> _body h !! 0 = Some r0 -> objects h !! r0 = Some e0 ->
  forall r e, r ∈ _body h -> objects h !! r = Some e ->
    (_key e0 <= _key e)%Z.
Proof.
  intros [Hwf Hheap] Hr0 He0 r e Hr He.
  apply list_elem_of_lookup in Hr as [i Hi].
  pose proof (root_minimal h Hheap i (lookup_lt_Some _ _ _ Hi)) as Hle.
  rewrite (key_at_cell h 0 r0 e0 Hr0 He0) in Hle.
  rewrite (key_at_cell h i r e Hi He) in Hle. exact Hle.
Qed.

(** X1.  [add] on a queue reached by valid operations returns a handle
    that was not in the queue, and is in it afterwards with the key
    given; the size grows by one and the elements that were there stay,
    with their keys and values. *)
Theorem add_contract h k v :
  reachable h ->
  exists r h',
    add k v h = (Return r, h')
    /\ (r ∉ _body h)
    /\ get_key r h' = (Return k, h')
    /\ (exists e, objects h' !! r = Some e /\ _value e = v)
    /\ _size h' = S (_size h)
    /\ (forall x, x ∈ _body h' <-> x ∈ _body h \/ x = r)
    /\ (forall x e, objects h !! x = Some e ->
          exists e', objects h' !! x = Some e'
            /\ _key e' = _key e /\ _value e' = _value e).
Proof.
  intros Hreach. pose proof (reachable_good h Hreach) as Hgood.
  destruct (add_spec h k v Hgood)
    as (h' & Hrun & _ & Hs & _ & Hf & (e & He & Hk & Hv) & Hm).
  exists (length (objects h)), h'.
  split; [exact Hrun |]. split.
  { intros Hin. apply list_elem_of_lookup in Hin as [i Hi].
    pose proof (body_ref_valid h i _ (proj1 Hgood) Hi). lia. }
  split.
  { unfold get_key. erewrite bind_Return by (apply deref_run; exact He).
    rewrite Hk. reflexivity. }
  split; [eauto |]. split; [exact Hs |]. split; [exact Hm | exact Hf].
Qed.

(** X2.  [min] on a queue that is not empty returns the value and key
    of an element of the queue whose key is the least, and changes
    nothing. *)
Theorem min_returns_least h :
  reachable h -> 0 < _size h ->
  exists r0 e0,
    r0 ∈ _body h /\ objects h !! r0 = Some e0
    /\ min h = (Return (_value e0, _key e0), h)
    /\ forall r e, r ∈ _body h -> objects h !! r = Some e ->
         (_key e0 <= _key e)%Z.
Proof.
  intros Hreach Hn. pose proof (reachable_good h Hreach) as Hgood.
  pose proof Hgood as [[Hsz Hinv] _].
  destruct (lookup_lt_is_Some_2 (_body h) 0 ltac:(lia)) as [r0 Hr0].
  destruct (Hinv _ _ Hr0) as (e0 & He0 & _).
  exists r0, e0. split; [eapply list_elem_of_lookup_2; eauto |].
  split; [exact He0 |]. split.
  - unfold min. erewrite bind_Return by (apply body_get_run; exact Hr0).
    erewrite bind_Return by (apply deref_run; exact He0). reflexivity.
  - apply (root_least h r0 e0 Hgood Hr0 He0).
Qed.

(** X3.  [remove_min] on a queue that is not empty returns the value
    and key of an element with the least key and takes exactly that
    element out: the size falls by one and the other elements stay,
    with their keys and values. *)
Theorem remove_min_contract h :
  reachable h -> 0 < _size h ->
  exists r0 e0 h',
    r0 ∈ _body h /\ objects h !! r0 = Some e0
    /\ remove_min h = (Return (Some (_value e0, _key e0)), h')
    /\ (forall r e, r ∈ _body h -> objects h !! r = Some e ->
          (_key e0 <= _key e)%Z)
    /\ _size h' = _size h - 1
    /\ (forall x, x ∈ _body h' <-> x ∈ _body h /\ x <> r0)
    /\ (forall x e, objects h !! x = Some e ->
          exists e', objects h' !! x = Some e'
            /\ _key e' = _key e /\ _value e' = _value e).
Proof.
  intros Hreach Hn. pose proof (reachable_good h Hreach) as Hgood.
  destruct (remove_min_spec h Hgood Hn)
    as (r0 & e0 & h' & Hr0 & He0 & Hrun & _ & Hs & _ & Hf & Hm).
  exists r0, e0, h'. split; [eapply list_elem_of_lookup_2; eauto |].
  split; [exact He0 |]. split; [exact Hrun |].
  split; [apply (root_least h r0 e0 Hgood Hr0 He0) |].
  split; [exact Hs |]. split; [exact Hm | exact Hf].
Qed.

(** X4.  [update_key] on an element of the queue sets its key:
    [get_key] then returns the new key; no element enters or leaves, and
    the other elements keep their keys, all their values. *)
Theorem update_key_contract h r k :
  reachable h -> r ∈ _body h ->
  exists h',
    update_key r k h = (Return tt, h')
    /\ get_key r h' = (Return k, h')
    /\ _size h' = _size h
    /\ (forall x, x ∈ _body h' <-> x ∈ _body h)
    /\ (forall x e, objects h !! x = Some e ->
          exists e', objects h' !! x = Some e'
            /\ _value e' = _value e
            /\ (x <> r -> _key e' = _key e)).
Proof.
  intros Hreach Hr. pose proof (reachable_good h Hreach) as Hgood.
  destruct (update_key_spec h r k Hgood Hr)
    as (h' & Hrun & _ & Hs & _ & Hm & Hf).
  destruct (elem_of_body h r (proj1 Hgood) Hr) as (e & He & _).
  exists h'. split; [exact Hrun |]. split.
  { destruct (Hf _ _ He) as (e' & He' & _ & Hk).
    rewrite decide_True in Hk by reflexivity.
    unfold get_key. erewrite bind_Return by (apply deref_run; exact He').
    rewrite Hk. reflexivity. }
  split; [exact Hs |]. split; [exact Hm |].
  intros x e0 He0. destruct (Hf _ _ He0) as (e' & He' & Hv & Hk).
  exists e'. split; [exact He' |]. split; [exact Hv |].
  intros Hne. rewrite decide_False in Hk by exact Hne. exact Hk.
Qed.

(** X5.  [remove] on an element of the queue that is not in the last
    slot, or is the only element, returns its value and key and takes
    exactly that element out; the size falls by one. *)
Theorem remove_contract h r e :
  reachable h -> r ∈ _body h -> objects h !! r = Some e ->
  _index e + 1 < _size h \/ _size h = 1 ->
  exists h',
    remove r h = (Return (Some (_value e, _key e)), h')
    /\ _size h' = _size h - 1
    /\ (forall x, x ∈ _body h' <-> x ∈ _body h /\ x <> r)
    /\ reachable h'.
Proof.
  intros Hreach Hr He Hidx.
  pose proof (reachable_good h Hreach) as Hgood.
  destruct (remove_spec h r Hgood Hr)
    as (e' & o & h' & He' & _ & Hrun & _ & Hs & Hm & Ho).
  assert (e' = e) as -> by congruence.
  pose proof (proj1 (proj1 Hgood)) as Hsz.
  destruct Ho as [(Hlast & Htwo & _) | (_ & ->)]; [lia |].
  exists h'. split; [exact Hrun |]. split; [exact Hs |].
  split; [exact Hm |].
  replace h' with (exec (Remove r) h).2
    by (unfold exec; erewrite bind_Return by exact Hrun; reflexivity).
  apply reachable_exec; [exact Hreach |].
  split; [| exact Hr].
  apply list_elem_of_lookup in Hr as [i Hi].
  apply lookup_lt_Some in Hi. lia.
Qed.

Lemma drain_spec n : forall h,
  good h -> n <= _size h ->
  exists l h',
    drain n h = (Return l, h') /\ good h'
    /\ _size h' = _size h - n /\ length l = n
    /\ Forall (fun x => exists r e,
                 x = Some (_value e, _key e)
                 /\ r ∈ _body h /\ objects h !! r = Some e) l
    /\ StronglySorted Z.le (keys_of l).
Proof.
  induction n as [|n IH]; intros h Hgood Hn.
  - exists [], h. split; [reflexivity |]. split; [exact Hgood |].
    split; [lia |]. split; [reflexivity |].
    split; constructor.
  - destruct (remove_min_spec h Hgood ltac:(lia))
      as (r0 & e0 & h1 & Hr0 & He0 & Hrun & Hgood1 & Hs1 & _ & Hf1 & Hm1).
    destruct (IH h1 Hgood1 ltac:(lia))
      as (l & h' & Hrun' & Hgood' & Hs' & Hlen & Hall & Hsorted).
    assert (Hall' : Forall (fun x => exists r e,
                      x = Some (_value e, _key e)
                      /\ r ∈ _body h /\ objects h !! r = Some e) l).
    { eapply Forall_impl; [exact Hall |].
      intros x (r & e1 & -> & Hr & He1). cbn beta.
      apply Hm1 in Hr as [Hr _].
      destruct (elem_of_body h r (proj1 Hgood) Hr) as (e & He & _).
      destruct (Hf1 _ _ He) as (e1' & He1' & Hk & Hv).
      assert (e1' = e1) as -> by congruence.
      exists r, e. rewrite Hk, Hv. auto. }
    exists (Some (_value e0, _key e0) :: l), h'. split.
    { simpl. erewrite bind_Return by exact Hrun.
      erewrite bind_Return by exact Hrun'. reflexivity. }
    split; [exact Hgood' |]. split; [lia |].
    split; [simpl; lia |]. split.
    + constructor; [| exact Hall'].
      exists r0, e0. split; [reflexivity |].
      split; [eapply list_elem_of_lookup_2; eauto | exact He0].
    + unfold keys_of. simpl. constructor; [exact Hsorted |].
      apply Forall_forall. intros k Hk.
      apply list_elem_of_omap in Hk as (x & Hx & Hkx).
      rewrite Forall_forall in Hall'.
      destruct (Hall' x Hx) as (r & e & -> & Hr & He).
      simpl in Hkx. injection Hkx as <-.
      apply (root_least h r0 e0 Hgood Hr0 He0 r e Hr He).
Qed.

(** X6.  As many [remove_min] in a row as the queue has elements empty
    it; every call returns the value and key of an element of the
    queue, and the keys come out in non-decreasing order. *)
Theorem drain_sorted h :
  reachable h ->
  exists l h',
    drain (_size h) h = (Return l, h')
    /\ _size h' = 0 /\ length l = _size h
    /\ length (keys_of l) = _size h
    /\ Forall (fun x => exists r e,
                 x = Some (_value e, _key e)
                 /\ r ∈ _body h /\ objects h !! r = Some e) l
    /\ StronglySorted Z.le (keys_of l).
Proof.
  intros Hreach. pose proof (reachable_good h Hreach) as Hgood.
  destruct (drain_spec (_size h) h Hgood (le_n _))
    as (l & h' & Hrun & _ & Hs & Hlen & Hall & Hsorted).
  exists l, h'. split; [exact Hrun |]. split; [lia |].
  split; [exact Hlen |]. split; [| split; [exact Hall | exact Hsorted]].
  rewrite <- Hlen. clear -Hall. induction Hall as [|x l Hx _ IH].
  - reflexivity.
  - destruct Hx as (r & e & -> & _). unfold keys_of in *. cbn.
    f_equal. exact IH.
Qed.

End APQMore.

Lemma add_contract_witness :
  exists r h',
    APQ.add 7%Z "g" sample_heap = (Return r, h')
    /\ (r ∉ APQ._body sample_heap)
    /\ APQ.get_key r h' = (Return 7%Z, h')
    /\ (exists e, APQ.objects h' !! r = Some e /\ APQ._value e = "g")
    /\ APQ._size h' = S (APQ._size sample_heap)
    /\ (forall x, x ∈ APQ._body h' <-> x ∈ APQ._body sample_heap \/ x = r)
    /\ (forall x e, APQ.objects sample_heap !! x = Some e ->
          exists e', APQ.objects h' !! x = Some e'
            /\ APQ._key e' = APQ._key e /\ APQ._value e' = APQ._value e).
Proof. apply add_contract. exact sample_heap_reachable. Defined.

Lemma min_returns_least_witness :
  exists r0 e0,
    r0 ∈ APQ._body sample_heap /\ APQ.objects sample_heap !! r0 = Some e0
    /\ APQ.min sample_heap = (Return (APQ._value e0, APQ._key e0), sample_heap)
    /\ forall r e, r ∈ APQ._body sample_heap ->
         APQ.objects sample_heap !! r = Some e ->
         (APQ._key e0 <= APQ._key e)%Z.
Proof.
  apply min_returns_least; [exact sample_heap_reachable |].
  vm_compute. lia.
Defined.

Lemma remove_min_contract_witness :
  exists r0 e0 h',
    r0 ∈ APQ._body sample_heap /\ APQ.objects sample_heap !! r0 = Some e0
    /\ APQ.remove_min sample_heap
       = (Return (Some (APQ._value e0, APQ._key e0)), h')
    /\ (forall r e, r ∈ APQ._body sample_heap ->
          APQ.objects sample_heap !! r = Some e ->
          (APQ._key e0 <= APQ._key e)%Z)
    /\ APQ._size h' = APQ._size sample_heap - 1
    /\ (forall x, x ∈ APQ._body h' <-> x ∈ APQ._body sample_heap /\ x <> r0)
    /\ (forall x e, APQ.objects sample_heap !! x = Some e ->
          exists e', APQ.objects h' !! x = Some e'
            /\ APQ._key e' = APQ._key e /\ APQ._value e' = APQ._value e).
Proof.
  apply remove_min_contract; [exact sample_heap_reachable |].
  vm_compute. lia.
Defined.

Lemma update_key_contract_witness :
  exists h',
    APQ.update_key 4 0%Z sample_heap = (Return tt, h')
    /\ APQ.get_key 4 h' = (Return 0%Z, h')
    /\ APQ._size h' = APQ._size sample_heap
    /\ (forall x, x ∈ APQ._body h' <-> x ∈ APQ._body sample_heap)
    /\ (forall x e, APQ.objects sample_heap !! x = Some e ->
          exists e', APQ.objects h' !! x = Some e'
            /\ APQ._value e' = APQ._value e
            /\ (x <> 4 -> APQ._key e' = APQ._key e)).
Proof.
  apply update_key_contract; [exact sample_heap_reachable |].
  vm_compute. repeat constructor.
Defined.

Lemma remove_contract_witness :
  exists h',
    APQ.remove 0 two_heap = (Return (Some ("a", 1%Z)), h')
    /\ APQ._size h' = APQ._size two_heap - 1
    /\ (forall x, x ∈ APQ._body h' <-> x ∈ APQ._body two_heap /\ x <> 0)
    /\ APQInv.reachable h'.
Proof.
  apply (remove_contract two_heap 0 (APQ.mkElement 1%Z "a" 0)).
  - exact two_heap_reachable.
  - vm_compute. repeat constructor.
  - reflexivity.
  - left. vm_compute. lia.
Defined.

Lemma drain_sorted_witness :
  exists l h',
    APQClient.drain (APQ._size sample_heap) sample_heap = (Return l, h')
    /\ APQ._size h' = 0 /\ length l = APQ._size sample_heap
    /\ length (APQClient.keys_of l) = APQ._size sample_heap
    /\ Forall (fun x => exists r e,
                 x = Some (APQ._value e, APQ._key e)
                 /\ r ∈ APQ._body sample_heap
                 /\ APQ.objects sample_heap !! r = Some e) l
    /\ StronglySorted Z.le (APQClient.keys_of l).
Proof. apply drain_sorted. exact sample_heap_reachable. Defined.

(** ** More on the undirected graph *)

Section GraphMoreFacts.

Import Graph GraphInv GraphMore.

Implicit Types g : Graph.

Lemma get_edges_run g v adj :
  dict_get v (_structure g) = Some adj ->
  get_edges v g = (Return (Some (dict_values adj)), g).
Proof.
  intros Hv. unfold get_edges. erewrite bind_Return by reflexivity.
  unfold dict_mem. rewrite Hv.
  erewrite bind_Return by (apply structure_get_run; exact Hv).
  reflexivity.
Qed.

Lemma degree_run g v adj :
  dict_get v (_structure g) = Some adj ->
  degree v g = (Return (length adj), g).
Proof.
  intros Hv. unfold degree.
  erewrite bind_Return by (apply structure_get_run; exact Hv).
  reflexivity.
Qed.

Lemma total_app (s1 s2 : list (Vertex * list (Vertex * Edge))) :
  total (s1 ++ s2) = total s1 + total s2.
Proof.
  induction s1 as [|[v adj] s1 IH]; [reflexivity |].
  simpl. rewrite !total_cons, IH. lia.
Qed.

Lemma dict_set_new {K V} `{EqDecision K} (k : K) (v : V) d :
  dict_get k d = None -> dict_set k v d = d ++ [(k, v)].
Proof.
  induction d as [|[k' v'] d IH]; simpl; intros Hk; [reflexivity |].
  destruct (decide (k = k')); [discriminate |]. rewrite IH by exact Hk.
  reflexivity.
Qed.

(** X7.  [add_vertex] with a new [Vertex] object returns the vertex
    with the label given; it is then the last vertex of the graph, with
    no edges and degree 0; the other vertices, all edges and
    [num_edges] are as before. *)
Theorem add_vertex_contract g element a :
  dict_mem (mkVertex a element) (_structure g) = false ->
  exists g',
    add_vertex element a g = (Return (mkVertex a element), g')
    /\ (vertices g').1 = Return (dict_keys (_structure g)
                                 ++ [mkVertex a element])
    /\ (num_vertices g').1 = Return (S (length (_structure g)))
    /\ get_edges (mkVertex a element) g' = (Return (Some []), g')
    /\ degree (mkVertex a element) g' = (Return 0, g')
    /\ (num_edges g').1 = (num_edges g).1
    /\ (forall v w, edge_at g' v w = edge_at g v w).
Proof.
  intros Hnew. apply dict_mem_false in Hnew.
  set (v0 := mkVertex a element) in *.
  exists {| _structure := dict_set v0 [] (_structure g) |}.
  split; [reflexivity |].
  assert (Hv0 : dict_get v0 (dict_set v0 ([] : list (Vertex * Edge))
                               (_structure g)) = Some [])
    by apply dict_get_set_eq.
  split; [simpl; rewrite dict_keys_set_new by exact Hnew; reflexivity |].
  split.
  { simpl. rewrite dict_set_new by exact Hnew.
    rewrite length_app. simpl. f_equal. lia. }
  split; [apply (get_edges_run _ v0 []); exact Hv0 |].
  split; [apply (degree_run _ v0 []); exact Hv0 |].
  split.
  { rewrite !num_edges_run. simpl. rewrite dict_set_new by exact Hnew.
    rewrite total_app. unfold total at 2. simpl.
    rewrite Nat.add_0_r. reflexivity. }
  intros v w. unfold edge_at. simpl.
  destruct (decide (v0 = v)) as [<- |Hne].
  - rewrite dict_get_set_eq, Hnew. reflexivity.
  - rewrite dict_get_set_ne by exact Hne. reflexivity.
Qed.

Lemma first_with_label_Some element vs v :
  first_with_label element vs = Some v ->
  v ∈ vs /\ v_element v = element.
Proof.
  induction vs as [|u vs IH]; simpl; [discriminate |].
  case_bool_decide as Hu.
  - intros [= <-]. split; [apply list_elem_of_here | exact Hu].
  - intros Hv. destruct (IH Hv). split; [apply list_elem_of_further |];
      assumption.
Qed.

Lemma first_with_label_None element vs :
  first_with_label element vs = None <->
  forall v, v ∈ vs -> v_element v <> element.
Proof.
  induction vs as [|u vs IH]; simpl.
  - split; [intros _ v Hv; inversion Hv | reflexivity].
  - case_bool_decide as Hu.
    + split; [discriminate |]. intros Hall.
      exfalso. apply (Hall u); [apply list_elem_of_here | exact Hu].
    + rewrite IH. split.
      * intros Hall v Hv. apply elem_of_cons in Hv as [-> |Hv]; auto.
      * intros Hall v Hv. apply Hall. apply list_elem_of_further, Hv.
Qed.

Lemma first_with_label_app element vs ws :
  first_with_label element (vs ++ ws) =
  match first_with_label element vs with
  | Some v => Some v
  | None => first_with_label element ws
  end.
Proof.
  induction vs as [|u vs IH]; simpl; [reflexivity |].
  case_bool_decide; [reflexivity | exact IH].
Qed.

(** X8.  [get_vertex_by_label] returns a vertex of the graph with the
    label, and [None] exactly when no vertex of the graph has the
    label; the graph is not changed. *)
Theorem get_vertex_by_label_contract g element :
  exists o,
    get_vertex_by_label element g = (Return o, g)
    /\ (forall v, o = Some v ->
          dict_mem v (_structure g) = true /\ v_element v = element)
    /\ (o = None <->
        forall v, dict_mem v (_structure g) = true ->
          v_element v <> element).
Proof.
  eexists. split; [reflexivity |]. split.
  - intros v Hv. apply first_with_label_Some in Hv as [Hin Hl].
    split; [apply dict_mem_keys, Hin | exact Hl].
  - rewrite first_with_label_None. split.
    + intros Hall v Hv. apply Hall, dict_mem_keys, Hv.
    + intros Hall v Hv. apply Hall, dict_mem_keys, Hv.
Qed.

(** X9.  [add_vertex_if_new] returns a vertex of the resulting graph
    with the label, the one [get_vertex_by_label] then finds; when the
    graph had a vertex with the label the graph is unchanged, otherwise
    the vertex is the new one, added as by [add_vertex]; a second call
    with the label returns the same vertex and changes nothing. *)
Theorem add_vertex_if_new_contract g element a b :
  exists v g',
    add_vertex_if_new element a g = (Return v, g')
    /\ v_element v = element
    /\ dict_mem v (_structure g') = true
    /\ get_vertex_by_label element g' = (Return (Some v), g')
    /\ add_vertex_if_new element b g' = (Return v, g')
    /\ ((exists u, dict_mem u (_structure g) = true
                   /\ v_element u = element) -> g' = g)
    /\ ((forall u, dict_mem u (_structure g) = true ->
           v_element u <> element) ->
        v = mkVertex a element
        /\ add_vertex element a g = (Return v, g')).
Proof.
  unfold add_vertex_if_new, get_vertex_by_label.
  destruct (first_with_label element (dict_keys (_structure g)))
    as [v|] eqn:Hfind.
  - pose proof (first_with_label_Some _ _ _ Hfind) as [Hin Hl].
    exists v, g. split; [reflexivity |]. split; [exact Hl |].
    split; [apply dict_mem_keys, Hin |].
    rewrite Hfind. split; [reflexivity |]. split; [reflexivity |].
    split; [reflexivity |].
    intros Hnone. exfalso. apply (Hnone v); [apply dict_mem_keys, Hin | exact Hl].
  - pose proof Hfind as Hnone. rewrite first_with_label_None in Hnone.
    set (v0 := mkVertex a element).
    assert (Hnew : dict_get v0 (_structure g) = None).
    { apply dict_mem_false. destruct (dict_mem v0 (_structure g)) eqn:E;
        [| reflexivity].
      exfalso. apply (Hnone v0); [apply dict_mem_keys, E | reflexivity]. }
    assert (Hfind' : first_with_label element
              (dict_keys (dict_set v0 ([] : list (Vertex * Edge))
                            (_structure g))) = Some v0).
    { rewrite dict_keys_set_new by exact Hnew.
      rewrite first_with_label_app, Hfind. simpl.
      rewrite bool_decide_eq_true_2 by reflexivity. reflexivity. }
    exists v0, {| _structure := dict_set v0 [] (_structure g) |}.
    split; [reflexivity |]. split; [reflexivity |].
    split; [simpl; rewrite dict_mem_set, decide_True by reflexivity;
            reflexivity |].
    simpl. rewrite Hfind'.
    split; [reflexivity |]. split; [reflexivity |]. split.
    + intros (u & Hu & Hl). exfalso.
      apply (Hnone u); [apply dict_mem_keys, Hu | exact Hl].
    + intros _. split; reflexivity.
Qed.

Lemma constructed_built g : constructed g -> built g.
Proof.
  induction 1; auto using built_init, built_add_vertex, built_add_edge.
Qed.

Lemma constructed_edges g :
  constructed g ->
  forall v w,
    edge_at g v w = edge_at g w v
    /\ forall e, edge_at g v w = Some e ->
         _vertices e = (v, w) \/ _vertices e = (w, v).
Proof.
  induction 1 as [|g element a _ IH Hnew|g v0 w0 x _ IH]; intros v w.
  - split; [reflexivity | discriminate].
  - destruct (add_vertex_contract g element a Hnew)
      as (g' & Hrun & _ & _ & _ & _ & _ & Hedge).
    rewrite Hrun. simpl. rewrite !Hedge. apply IH.
  - destruct (dict_mem v0 (_structure g)) eqn:Hv0;
      [| rewrite add_edge_absent by auto; apply IH].
    destruct (dict_mem w0 (_structure g)) eqn:Hw0;
      [| rewrite add_edge_absent by auto; apply IH].
    destruct (add_edge_present g v0 w0 x Hv0 Hw0)
      as (g' & Hrun & Hvw & Hwv & _ & Hother).
    rewrite Hrun. simpl.
    destruct (decide (v = v0 /\ w = w0)) as [[-> ->]|Hn1].
    { rewrite Hvw, Hwv. split; [reflexivity |].
      intros e [= <-]. left. reflexivity. }
    destruct (decide (v = w0 /\ w = v0)) as [[-> ->]|Hn2].
    { rewrite Hvw, Hwv. split; [reflexivity |].
      intros e [= <-]. right. reflexivity. }
    rewrite (Hother v w) by assumption.
    rewrite (Hother w v) by tauto. apply IH.
Qed.

(** X10.  A graph built by [add_vertex] and [add_edge] is symmetric:
    [get_edge(v, w)] and [get_edge(w, v)] return the same; the edge they
    return joins [v] and [w], which are both vertices of the graph. *)
Theorem get_edge_symmetric g v w :
  constructed g ->
  get_edge v w g = get_edge w v g
  /\ forall e, get_edge v w g = (Return (Some e), g) ->
       (_vertices e = (v, w) \/ _vertices e = (w, v))
       /\ dict_mem v (_structure g) = true
       /\ dict_mem w (_structure g) = true.
Proof.
  intros Hc. destruct (constructed_edges g Hc v w) as [Hsym Hends].
  rewrite !get_edge_run. split; [rewrite Hsym; reflexivity |].
  intros e [= He]. split; [apply Hends, He |].
  assert (Hmem : forall a b e0, edge_at g a b = Some e0 ->
                   dict_mem a (_structure g) = true).
  { intros a b e0. unfold edge_at, dict_mem.
    destruct (dict_get a (_structure g)); [reflexivity | discriminate]. }
  split; [eapply Hmem; exact He |].
  rewrite Hsym in He. eapply Hmem; exact He.
Qed.

Lemma total_set_gen (s : list (Vertex * list (Vertex * Edge))) v adj adj' :
  dict_get v s = Some adj ->
  total (dict_set v adj' s) + length adj = total s + length adj'.
Proof.
  intros Hv. induction s as [|[v0 a0] s IH]; [discriminate |].
  simpl in Hv |- *. destruct (decide (v = v0)) as [-> |Hne].
  - injection Hv as ->. rewrite !total_cons. lia.
  - rewrite !total_cons. specialize (IH Hv). lia.
Qed.

(** X11.  [add_edge] between two different vertices of the graph that
    have no edge between them raises [num_edges] by one and the degree
    of both by one. *)
Theorem add_edge_new_counts g v w x n dv dw :
  v <> w ->
  edge_at g v w = None -> edge_at g w v = None ->
  (num_edges g).1 = Return n ->
  degree v g = (Return dv, g) -> degree w g = (Return dw, g) ->
  let g' := (add_edge v w x g).2 in
  (num_edges g').1 = Return (S n)
  /\ degree v g' = (Return (S dv), g')
  /\ degree w g' = (Return (S dw), g').
Proof.
  intros Hne Hvw Hwv Hn Hdv Hdw g'.
  assert (Hmv : exists av, dict_get v (_structure g) = Some av).
  { unfold degree, bind, structure_get in Hdv.
    destruct (dict_get v (_structure g)); [eauto | discriminate]. }
  assert (Hmw : exists aw, dict_get w (_structure g) = Some aw).
  { unfold degree, bind, structure_get in Hdw.
    destruct (dict_get w (_structure g)); [eauto | discriminate]. }
  destruct Hmv as [av Hv]. destruct Hmw as [aw Hw].
  rewrite (degree_run g v av Hv) in Hdv. injection Hdv as <-.
  rewrite (degree_run g w aw Hw) in Hdw. injection Hdw as <-.
  unfold edge_at in Hvw, Hwv. rewrite Hv in Hvw. rewrite Hw in Hwv.
  destruct (add_edge_run g v w x av Hv ltac:(eauto)) as (aw' & Haw' & Hrun).
  rewrite dict_get_set_ne in Haw' by exact Hne.
  assert (aw' = aw) as -> by congruence.
  set (e := mkEdge (v, w) x) in *.
  assert (Hg' : g' = {| _structure :=
                 dict_set w (dict_set v e aw)
                   (dict_set v (dict_set w e av) (_structure g)) |})
    by (unfold g'; rewrite Hrun; reflexivity).
  assert (Hlv : length (dict_set w e av) = S (length av)).
  { rewrite dict_set_new by exact Hvw. rewrite length_app. simpl. lia. }
  assert (Hlw : length (dict_set v e aw) = S (length aw)).
  { rewrite dict_set_new by exact Hwv. rewrite length_app. simpl. lia. }
  split; [| split].
  - rewrite num_edges_run in Hn. injection Hn as <-.
    rewrite num_edges_run, Hg'. cbn [fst _structure]. f_equal.
    pose proof (total_set_gen (_structure g) v av (dict_set w e av) Hv) as H1.
    pose proof (total_set_gen
                  (dict_set v (dict_set w e av) (_structure g)) w aw
                  (dict_set v e aw)) as H2.
    rewrite dict_get_set_ne in H2 by exact Hne. specialize (H2 Hw).
    replace (total (dict_set w (dict_set v e aw)
                      (dict_set v (dict_set w e av) (_structure g))))
      with (total (_structure g) + 1 * 2) by lia.
    rewrite Nat.div_add by lia. apply Nat.add_1_r.
  - rewrite Hg'. erewrite degree_run; [rewrite Hlv; reflexivity |].
    simpl. rewrite dict_get_set_ne by congruence. apply dict_get_set_eq.
  - rewrite Hg'. erewrite degree_run; [rewrite Hlw; reflexivity |].
    simpl. apply dict_get_set_eq.
Qed.

End GraphMoreFacts.

(** ** More on the directed graph *)

Section DirectedMoreFacts.

Import DirectedGraph DirectedInv DirectedMore.

Implicit Types g : DirectedGraph.

Lemma directed_add_edge_total g v w x :
  add_edge v w x g = (Return None, g)
  \/ (exists av iw,
       dict_get v (_structure g) = Some av
       /\ dict_get w (_inedges g) = Some iw
       /\ add_edge v w x g =
          (Return (Some (mkEdge (v, w) x)),
           {| _structure :=
                dict_set v (dict_set w (mkEdge (v, w) x) av) (_structure g);
              _inedges :=
                dict_set w (dict_set v (mkEdge (v, w) x) iw) (_inedges g) |}))
  \/ dict_mem w (_inedges g) <> dict_mem w (_structure g).
Proof.
  destruct (dict_mem v (_structure g)) eqn:Hv;
    [| left; apply directed_add_edge_absent; auto].
  destruct (dict_mem w (_structure g)) eqn:Hw;
    [| left; apply directed_add_edge_absent; auto].
  destruct (dict_mem w (_inedges g)) eqn:Hiw;
    [| right; right; congruence].
  right. left.
  apply dict_mem_true in Hv as Hv'. destruct Hv' as [av Hav].
  apply dict_mem_true in Hiw as Hiw'. destruct Hiw' as [iw Hiw'].
  exists av, iw. split; [exact Hav |]. split; [exact Hiw' |].
  unfold add_edge.
  erewrite bind_Return by reflexivity.
  erewrite bind_Return by reflexivity.
  rewrite Hv, Hw.
  change (negb true || negb true) with false. cbv iota.
  unfold structure_set, inedges_set.
  erewrite bind_Return.
  2:{ erewrite bind_Return; [reflexivity |].
      unfold structure_get. rewrite Hav. reflexivity. }
  erewrite bind_Return.
  2:{ erewrite bind_Return; [reflexivity |].
      unfold inedges_get. simpl. rewrite Hiw'. reflexivity. }
  reflexivity.
Qed.

Lemma directed_constructed_inv g :
  constructed g ->
  consistent g
  /\ forall v w,
       out_edge_at g v w = in_edge_at g w v
       /\ forall e, out_edge_at g v w = Some e -> _vertices e = (v, w).
Proof.
  induction 1 as [|g element a _ [Hcons IH] Hnew|g v0 w0 x _ [Hcons IH]].
  - split; [apply directed_consistent_init |].
    intros v w. split; [reflexivity | discriminate].
  - split; [apply directed_consistent_add_vertex, Hcons |].
    pose proof Hnew as Hnewi. rewrite <- Hcons in Hnewi.
    apply dict_mem_false in Hnew. apply dict_mem_false in Hnewi.
    intros v w. unfold out_edge_at, in_edge_at. simpl.
    set (v1 := mkVertex a element) in *.
    assert (Hout : match dict_get v (dict_set v1 [] (_structure g)) with
                   | Some adj => dict_get w adj | None => None end
                   = out_edge_at g v w).
    { unfold out_edge_at. destruct (decide (v1 = v)) as [<- |Hne].
      - rewrite dict_get_set_eq, Hnew. reflexivity.
      - rewrite dict_get_set_ne by exact Hne. reflexivity. }
    assert (Hin : match dict_get w (dict_set v1 [] (_inedges g)) with
                  | Some adj => dict_get v adj | None => None end
                  = in_edge_at g w v).
    { unfold in_edge_at. destruct (decide (v1 = w)) as [<- |Hne].
      - rewrite dict_get_set_eq, Hnewi. reflexivity.
      - rewrite dict_get_set_ne by exact Hne. reflexivity. }
    rewrite Hout, Hin. apply IH.
  - destruct (dict_mem v0 (_structure g)) eqn:Hv0;
      [| rewrite directed_add_edge_absent by auto; split; assumption].
    destruct (dict_mem w0 (_structure g)) eqn:Hw0;
      [| rewrite directed_add_edge_absent by auto; split; assumption].
    destruct (directed_add_edge_present g v0 w0 x Hcons Hv0 Hw0)
      as (g' & Hrun & Hout & Hin & _ & _ & Hcons' & Hoo & Hio).
    rewrite Hrun. simpl. split; [exact Hcons' |].
    intros v w. destruct (decide (v = v0 /\ w = w0)) as [[-> ->]|Hn].
    + rewrite Hout, Hin. split; [reflexivity |].
      intros e [= <-]. reflexivity.
    + rewrite (Hoo v w) by exact Hn.
      rewrite (Hio w v) by tauto. apply IH.
Qed.

(** X12.  In a directed graph built by [add_vertex] and [add_edge],
    the out-edges and the in-edges hold the same edges: the edge kept
    for [w] among the out-edges of [v] is the one kept for [v] among
    the in-edges of [w], and it goes from [v] to [w]; both dictionaries
    have the same vertices. *)
Theorem directed_in_out_agree g v w :
  constructed g ->
  out_edge_at g v w = in_edge_at g w v
  /\ (forall e, out_edge_at g v w = Some e ->
        start e = v /\ end_ e = w)
  /\ dict_mem v (_inedges g) = dict_mem v (_structure g).
Proof.
  intros Hc. destruct (directed_constructed_inv g Hc) as [Hcons Hinv].
  destruct (Hinv v w) as [Hsym Hends].
  split; [exact Hsym |]. split; [| apply Hcons].
  intros e He. unfold start, end_. rewrite (Hends e He). auto.
Qed.

Lemma directed_total_set_gen
  (s : list (Vertex * list (Vertex * Edge))) v adj adj' :
  dict_get v s = Some adj ->
  GraphInv.total (dict_set v adj' s) + length adj
  = GraphInv.total s + length adj'.
Proof. apply total_set_gen. Qed.

(** X13.  In a directed graph built by [add_vertex] and [add_edge],
    [add_edge] from a vertex [v] to a vertex [w] (which may be [v]) with
    no edge from [v] to [w] yet raises [num_edges], the out-degree of
    [v] and the in-degree of [w] by one. *)
Theorem directed_add_edge_new_counts g v w x n dv dw :
  constructed g ->
  out_edge_at g v w = None ->
  (num_edges g).1 = Return n ->
  out_degree v g = (Return dv, g) -> in_degree w g = (Return dw, g) ->
  let g' := (add_edge v w x g).2 in
  (num_edges g').1 = Return (S n)
  /\ out_degree v g' = (Return (S dv), g')
  /\ in_degree w g' = (Return (S dw), g').
Proof.
  intros Hc Hvw Hn Hdv Hdw g'.
  destruct (directed_constructed_inv g Hc) as [Hcons Hinv].
  assert (Hmv : exists av, dict_get v (_structure g) = Some av).
  { unfold out_degree, bind, structure_get in Hdv.
    destruct (dict_get v (_structure g)); [eauto | discriminate]. }
  assert (Hmw : exists iw, dict_get w (_inedges g) = Some iw).
  { unfold in_degree, bind, inedges_get in Hdw.
    destruct (dict_get w (_inedges g)); [eauto | discriminate]. }
  destruct Hmv as [av Hv]. destruct Hmw as [iw Hw].
  assert (dv = length av) as ->.
  { unfold out_degree in Hdv.
    erewrite bind_Return in Hdv
      by (unfold structure_get; rewrite Hv; reflexivity).
    injection Hdv as <-. reflexivity. }
  assert (dw = length iw) as ->.
  { unfold in_degree in Hdw.
    erewrite bind_Return in Hdw
      by (unfold inedges_get; rewrite Hw; reflexivity).
    injection Hdw as <-. reflexivity. }
  pose proof (proj1 (Hinv v w)) as Hsym. rewrite Hvw in Hsym.
  unfold out_edge_at in Hvw. rewrite Hv in Hvw.
  unfold in_edge_at in Hsym. rewrite Hw in Hsym. symmetry in Hsym.
  set (e := mkEdge (v, w) x).
  assert (Hg' : g' = {| _structure :=
                          dict_set v (dict_set w e av) (_structure g);
                        _inedges :=
                          dict_set w (dict_set v e iw) (_inedges g) |}).
  { unfold g'.
    destruct (directed_add_edge_total g v w x)
      as [Habs | [(av' & iw' & Hv' & Hw' & Hrun) | Hbad]].
    - assert (Hmv : dict_mem v (_structure g) = true)
        by (apply dict_mem_true; eauto).
      assert (Hmw : dict_mem w (_structure g) = true)
        by (rewrite <- Hcons; apply dict_mem_true; eauto).
      destruct (directed_add_edge_present g v w x Hcons Hmv Hmw)
        as (g1 & Hrun & _). rewrite Hrun in Habs. discriminate.
    - assert (av' = av) as -> by congruence.
      assert (iw' = iw) as -> by congruence.
      rewrite Hrun. reflexivity.
    - exfalso. apply Hbad, Hcons. }
  assert (Hlv : length (dict_set w e av) = S (length av)).
  { rewrite dict_set_new by exact Hvw. rewrite length_app. simpl. lia. }
  assert (Hlw : length (dict_set v e iw) = S (length iw)).
  { rewrite dict_set_new by exact Hsym. rewrite length_app. simpl. lia. }
  split; [| split].
  - assert (Hn' : n = GraphInv.total (_structure g))
      by (injection Hn as <-; reflexivity).
    rewrite Hg'. unfold num_edges. cbn [fst _structure]. f_equal.
    pose proof (directed_total_set_gen (_structure g) v av
                  (dict_set w e av) Hv) as H1.
    fold (GraphInv.total
            (dict_set v (dict_set w e av) (_structure g))).
    lia.
  - rewrite Hg'. unfold out_degree.
    erewrite bind_Return.
    2:{ unfold structure_get. simpl. rewrite dict_get_set_eq. reflexivity. }
    rewrite Hlv. reflexivity.
  - rewrite Hg'. unfold in_degree.
    erewrite bind_Return.
    2:{ unfold inedges_get. simpl. rewrite dict_get_set_eq. reflexivity. }
    rewrite Hlw. reflexivity.
Qed.

(** X14.  For a vertex that is in neither dictionary of a directed
    graph, [get_edges], [get_outedges] and [get_inedges] return [None],
    while [degree], [out_degree] and [in_degree] raise [KeyError]; the
    graph is not changed. *)
Theorem directed_absent_vertex_queries g v :
  dict_mem v (_structure g) = false -> dict_mem v (_inedges g) = false ->
  get_edges v g = (Return None, g)
  /\ get_outedges v g = (Return None, g)
  /\ get_inedges v g = (Return None, g)
  /\ degree v g = (Raise KeyError, g)
  /\ out_degree v g = (Raise KeyError, g)
  /\ in_degree v g = (Raise KeyError, g).
Proof.
  intros Hs Hi.
  assert (Hout : get_outedges v g = (Return None, g)).
  { unfold get_outedges. erewrite bind_Return by reflexivity.
    rewrite Hs. reflexivity. }
  assert (Hdeg : out_degree v g = (Raise KeyError, g)).
  { unfold out_degree. erewrite bind_Raise; [reflexivity |].
    unfold structure_get. apply dict_mem_false in Hs. rewrite Hs.
    reflexivity. }
  split; [exact Hout |]. split; [exact Hout |]. split.
  { unfold get_inedges. erewrite bind_Return by reflexivity.
    rewrite Hs. reflexivity. }
  split; [exact Hdeg |]. split; [exact Hdeg |].
  unfold in_degree. erewrite bind_Raise; [reflexivity |].
  unfold inedges_get. apply dict_mem_false in Hi. rewrite Hi. reflexivity.
Qed.

End DirectedMoreFacts.

Lemma example_graph_constructed : GraphMore.constructed example_graph.
Proof.
  change example_graph with
    (Graph.add_edge vC vD 1
       (Graph.add_edge vA vC 5
          (Graph.add_edge vB vC 2
             (Graph.add_edge vA vB 1
                (Graph.add_vertex "D" 3
                   (Graph.add_vertex "C" 2
                      (Graph.add_vertex "B" 1
                         (Graph.add_vertex "A" 0 Graph.init).2).2).2).2).2).2).2).2.
  repeat apply GraphMore.constructed_add_edge.
  repeat (apply GraphMore.constructed_add_vertex; [| reflexivity]).
  apply GraphMore.constructed_init.
Qed.

Lemma add_vertex_contract_witness :
  exists g',
    Graph.add_vertex "E" 4 example_graph = (Return (mkVertex 4 "E"), g')
    /\ (Graph.vertices g').1
       = Return (dict_keys (Graph._structure example_graph)
                 ++ [mkVertex 4 "E"])
    /\ (Graph.num_vertices g').1
       = Return (S (length (Graph._structure example_graph)))
    /\ Graph.get_edges (mkVertex 4 "E") g' = (Return (Some []), g')
    /\ Graph.degree (mkVertex 4 "E") g' = (Return 0, g')
    /\ (Graph.num_edges g').1 = (Graph.num_edges example_graph).1
    /\ (forall v w,
          GraphInv.edge_at g' v w = GraphInv.edge_at example_graph v w).
Proof. apply add_vertex_contract. reflexivity. Defined.

Lemma get_edge_symmetric_witness :
  Graph.get_edge vA vC example_graph = Graph.get_edge vC vA example_graph
  /\ forall e,
       Graph.get_edge vA vC example_graph = (Return (Some e), example_graph) ->
       (_vertices e = (vA, vC) \/ _vertices e = (vC, vA))
       /\ dict_mem vA (Graph._structure example_graph) = true
       /\ dict_mem vC (Graph._structure example_graph) = true.
Proof. apply get_edge_symmetric. exact example_graph_constructed. Defined.

Lemma add_edge_new_counts_witness :
  let g' := (Graph.add_edge vA vD 7 example_graph).2 in
  (Graph.num_edges g').1 = Return 5
  /\ Graph.degree vA g' = (Return 3, g')
  /\ Graph.degree vD g' = (Return 2, g').
Proof.
  apply (add_edge_new_counts example_graph vA vD 7 4 2 1);
    try reflexivity.
  discriminate.
Defined.

Lemma example_dag_constructed : DirectedMore.constructed example_dag.
Proof.
  unfold example_dag, example_digraph.
  repeat apply DirectedMore.constructed_add_edge.
  repeat (apply DirectedMore.constructed_add_vertex; [| reflexivity]).
  apply DirectedMore.constructed_init.
Qed.

Lemma directed_in_out_agree_witness :
  DirectedInv.out_edge_at example_dag vA vB
    = DirectedInv.in_edge_at example_dag vB vA
  /\ (forall e, DirectedInv.out_edge_at example_dag vA vB = Some e ->
        start e = vA /\ end_ e = vB)
  /\ dict_mem vA (DirectedGraph._inedges example_dag)
     = dict_mem vA (DirectedGraph._structure example_dag).
Proof. apply directed_in_out_agree. exact example_dag_constructed. Defined.

Lemma directed_add_edge_new_counts_witness :
  let g' := (DirectedGraph.add_edge vC vA 4 example_dag).2 in
  (DirectedGraph.num_edges g').1 = Return 3
  /\ DirectedGraph.out_degree vC g' = (Return 1, g')
  /\ DirectedMore.in_degree vA g' = (Return 1, g').
Proof.
  apply (directed_add_edge_new_counts example_dag vC vA 4 2 0 0);
    try reflexivity.
  exact example_dag_constructed.
Defined.

Lemma directed_absent_vertex_queries_witness :
  DirectedGraph.get_edges vD example_dag = (Return None, example_dag)
  /\ DirectedGraph.get_outedges vD example_dag = (Return None, example_dag)
  /\ DirectedMore.get_inedges vD example_dag = (Return None, example_dag)
  /\ DirectedGraph.degree vD example_dag = (Raise KeyError, example_dag)
  /\ DirectedGraph.out_degree vD example_dag = (Raise KeyError, example_dag)
  /\ DirectedMore.in_degree vD example_dag = (Raise KeyError, example_dag).
Proof. apply directed_absent_vertex_queries; reflexivity. Defined.

(** ** What the traversal computes *)

Section DijkstraMoreFacts.

Import Dijkstra DijkstraInv DijkstraMore.

Local Abbreviation length := List.length.

Implicit Types st : State.

Lemma key_open_locs st w :
  Inv st -> (dict_mem w (locs st) = true <-> is_Some (key_open st w)).
Proof.
  intros HInv. unfold key_open. rewrite dict_mem_true. split.
  - intros [r Hr]. rewrite Hr.
    destruct (inv_locs st HInv w r Hr) as [_ Hv]. unfold value_of in Hv.
    destruct (APQ.objects (open st) !! r); [simpl; eauto | discriminate].
  - destruct (dict_get w (locs st)); [eauto | intros [? ?]; discriminate].
Qed.

Lemma locs_injective st w1 w2 r :
  Inv st -> dict_get w1 (locs st) = Some r ->
  dict_get w2 (locs st) = Some r -> w1 = w2.
Proof.
  intros HInv H1 H2.
  destruct (inv_locs st HInv _ _ H1) as [_ Hv1].
  destruct (inv_locs st HInv _ _ H2) as [_ Hv2]. congruence.
Qed.

(** Lines 79 to 88 return, and change the keys and predecessors as
    [relax_rel] says. *)
Lemma relax_view v cost e st :
  Inv st ->
  exists st', relax v cost e st = (Return tt, st')
    /\ relax_rel v cost e st st'.
Proof.
  intros HInv. pose proof HInv as HInv0. destruct st as [h l c p].
  destruct HInv as [Hgood Hlocs Hbody Hpreds Hclosed]. simpl in *.
  unfold relax, relax_rel. set (w := opposite e v).
  set (nc := (cost + e_element e)%Z).
  erewrite bind_Return by reflexivity. cbn [closed locs].
  destruct (dict_mem w c) eqn:Hc.
  { exists (mkState h l c p). split; [reflexivity |].
    split; [reflexivity |]. split; reflexivity. }
  change (negb false) with true. cbv iota.
  destruct (dict_mem w l) eqn:Hl.
  - change (negb true) with false. cbv iota.
    pose proof Hl as Hl'. apply dict_mem_true in Hl' as [r Hr].
    destruct (Hlocs _ _ Hr) as [Hrb Hrv].
    unfold value_of in Hrv.
    destruct (APQ.objects h !! r) as [er|] eqn:Her; [| discriminate].
    assert (Hkw : key_open (mkState h l c p) w = Some (APQ._key er)).
    { unfold key_open. simpl. rewrite Hr, Her. reflexivity. }
    rewrite Hkw.
    erewrite bind_Return by (unfold locs_get; simpl; rewrite Hr; reflexivity).
    erewrite bind_Return
      by (apply with_open_run, get_key_run; simpl; exact Her).
    cbn [open locs closed preds].
    destruct (nc <? APQ._key er)%Z.
    2:{ exists (mkState h l c p). split; [reflexivity |].
        split; [reflexivity |]. split; reflexivity. }
    destruct (update_key_spec h r nc Hgood Hrb)
      as (h' & Hrun & Hgood' & Hs' & Ho' & Hm' & Hf').
    erewrite bind_Return by reflexivity.
    erewrite bind_Return by (unfold locs_get; simpl; rewrite Hr; reflexivity).
    erewrite with_open_run by (simpl; exact Hrun). simpl.
    eexists. split; [reflexivity |]. split; [reflexivity |]. split.
    + intros x. unfold key_open. cbn [open locs].
      destruct (decide (x = w)) as [-> |Hne].
      * rewrite Hr. destruct (Hf' _ _ Her) as (e' & -> & _ & Hk).
        rewrite decide_True in Hk by reflexivity. simpl. congruence.
      * destruct (dict_get x l) as [rx|] eqn:Hrx; [| reflexivity].
        destruct (Hlocs _ _ Hrx) as [_ Hvx]. unfold value_of in Hvx.
        destruct (APQ.objects h !! rx) as [ex|] eqn:Hex; [| discriminate].
        destruct (Hf' _ _ Hex) as (e' & -> & _ & Hk).
        rewrite decide_False in Hk; [simpl; congruence |].
        intros ->. apply Hne.
        eapply (locs_injective _ _ _ _ HInv0); simpl; eauto.
    + intros x. cbn [preds]. destruct (decide (x = w)) as [-> |Hne].
      * apply dict_get_set_eq.
      * apply dict_get_set_ne. congruence.
  - change (negb false) with true. cbv iota.
    assert (Hkw : key_open (mkState h l c p) w = None).
    { unfold key_open. simpl. apply dict_mem_false in Hl. rewrite Hl.
      reflexivity. }
    rewrite Hkw.
    destruct (add_spec h nc w Hgood)
      as (h' & Hrun & Hgood' & Hs' & Ho' & Hf' & (en & Hen & Hkn & Hvn) & Hm').
    erewrite bind_Return by reflexivity.
    erewrite bind_Return by (apply with_open_run; simpl; exact Hrun).
    simpl.
    eexists. split; [reflexivity |]. split; [reflexivity |]. split.
    + intros x. unfold key_open. cbn [open locs].
      destruct (decide (x = w)) as [-> |Hne].
      * rewrite dict_get_set_eq, Hen. simpl. congruence.
      * rewrite dict_get_set_ne by congruence.
        destruct (dict_get x l) as [rx|] eqn:Hrx; [| reflexivity].
        destruct (Hlocs _ _ Hrx) as [_ Hvx]. unfold value_of in Hvx.
        destruct (APQ.objects h !! rx) as [ex|] eqn:Hex; [| discriminate].
        destruct (Hf' _ _ Hex) as (e' & -> & Hk & _). simpl. congruence.
    + intros x. cbn [preds]. destruct (decide (x = w)) as [-> |Hne].
      * apply dict_get_set_eq.
      * apply dict_get_set_ne. congruence.
Qed.

(** Lines 74 to 77 on a queue that is not empty return, and change the
    state as [extract_rel] says. *)
Lemma extract_view st :
  Inv st -> 0 < APQ._size (open st) ->
  exists v k p st',
    extract st = (Return (v, k), st') /\ extract_rel st v k p st'.
Proof.
  intros HInv Hsize. pose proof HInv as HInv0. destruct st as [h l c p].
  destruct HInv as [Hgood Hlocs Hbody Hpreds Hclosed]. simpl in *.
  destruct (remove_min_spec h Hgood Hsize)
    as (r0 & e0 & h' & Hr0 & He0 & Hrun & Hgood' & Hs' & Ho' & Hf' & Hm').
  assert (Hr0b : r0 ∈ APQ._body h) by (eapply list_elem_of_lookup_2; eauto).
  destruct (Hbody _ Hr0b) as (v & Hv & Hlv).
  assert (Hv0 : APQ._value e0 = v).
  { unfold value_of in Hv. rewrite He0 in Hv. simpl in Hv. congruence. }
  assert (Hml : dict_mem v l = true) by (apply dict_mem_true; eauto).
  assert (Hmp : dict_mem v p = true) by (rewrite Hpreds; exact Hml).
  pose proof Hmp as Hp. apply dict_mem_true in Hp as [pv Hpv].
  exists v, (APQ._key e0), pv.
  eexists. split.
  { unfold extract.
    erewrite bind_Return by (apply with_open_run; simpl; exact Hrun).
    rewrite Hv0. cbv iota beta.
    erewrite bind_Return
      by (unfold locs_del; cbn [locs]; rewrite Hml; reflexivity).
    erewrite bind_Return
      by (unfold preds_pop; cbn [preds]; rewrite Hpv; reflexivity).
    erewrite bind_Return by reflexivity.
    reflexivity. }
  assert (Hcv : dict_get v c = None) by (apply dict_mem_false, Hclosed, Hml).
  unfold extract_rel. cbn [open locs closed preds].
  split; [unfold key_open; simpl; rewrite Hlv, He0; reflexivity |].
  split; [exact Hpv |]. split; [exact Hcv |]. split.
  { intros x k'. unfold key_open. simpl.
    destruct (dict_get x l) as [rx|] eqn:Hrx; [| discriminate].
    destruct (APQ.objects h !! rx) as [ex|] eqn:Hex; [| discriminate].
    intros [= <-]. destruct (Hlocs _ _ Hrx) as [Hrxb _].
    apply (root_least h r0 e0 Hgood Hr0 He0 rx ex Hrxb Hex). }
  split.
  { intros x. destruct (decide (x = v)) as [-> |Hne].
    - apply dict_get_set_eq.
    - apply dict_get_set_ne. congruence. }
  split; [apply dict_keys_set_new, Hcv |]. split.
  - intros x. unfold key_open. cbn [open locs].
    destruct (decide (x = v)) as [-> |Hne].
    + rewrite dict_get_del_eq. reflexivity.
    + rewrite dict_get_del_ne by congruence.
      destruct (dict_get x l) as [rx|] eqn:Hrx; [| reflexivity].
      destruct (Hlocs _ _ Hrx) as [_ Hvx]. unfold value_of in Hvx.
      destruct (APQ.objects h !! rx) as [ex|] eqn:Hex; [| discriminate].
      destruct (Hf' _ _ Hex) as (e' & -> & Hk & _). simpl. congruence.
  - intros x. destruct (decide (x = v)) as [-> |Hne].
    + apply dict_get_del_eq.
    + apply dict_get_del_ne. congruence.
Qed.

Lemma edges_of_inv g v st edges st' :
  edges_of g v st = (Return edges, st') ->
  exists v' adj, v = Some v'
    /\ dict_get v' (Graph._structure g) = Some adj
    /\ edges = dict_values adj.
Proof.
  unfold edges_of. destruct v as [v'|]; [| discriminate].
  destruct (dict_get v' (Graph._structure g)) as [adj|] eqn:Hadj.
  - rewrite (get_edges_run g v' adj Hadj). simpl.
    intros [= <- _]. eauto.
  - unfold Graph.get_edges. erewrite bind_Return by reflexivity.
    unfold dict_mem. rewrite Hadj. discriminate.
Qed.

(** A step of the run, by the point it starts at. *)
Lemma step_cases g c st c' st' :
  Inv st -> step g c st = (Return (Some c'), st') ->
  match c with
  | AtHead =>
      exists v k p, extract_rel st v k p st'
        /\ exists v' adj, v = Some v'
             /\ dict_get v' (Graph._structure g) = Some adj
             /\ c' = InFor v k (dict_values adj)
  | InFor v cost [] => c' = AtHead /\ st' = st
  | InFor v cost (e :: rest) =>
      c' = InFor v cost rest /\ relax_rel v cost e st st'
  end.
Proof.
  intros HInv Hstep. destruct c as [|v cost [|e rest]]; simpl in Hstep.
  - assert (Hsz : 0 < APQ._size (open st)).
    { destruct st as [h l c0 p].
      apply bind_Return_inv in Hstep as (emp & s1 & Hemp & Hstep).
      rewrite is_empty_run in Hemp. injection Hemp as <- <-.
      case_bool_decide as Hsz; [discriminate |]. simpl. lia. }
    destruct (extract_view st HInv Hsz) as (v & k & p & st1 & Hext & Hrel).
    destruct st as [h l c0 p0].
    apply bind_Return_inv in Hstep as (emp & s1 & Hemp & Hstep).
    rewrite is_empty_run in Hemp. injection Hemp as <- <-.
    rewrite bool_decide_eq_false_2 in Hstep by (simpl in Hsz; lia).
    apply bind_Return_inv in Hstep as ([v0 k0] & st2 & Hext2 & Hstep).
    rewrite Hext in Hext2. injection Hext2 as <- <- <-.
    apply bind_Return_inv in Hstep as (edges & st3 & Hedges & Hstep).
    pose proof (edges_of_state _ _ _ _ _ Hedges) as ->.
    apply edges_of_inv in Hedges as (v' & adj & -> & Hadj & ->).
    injection Hstep as <- <-.
    exists (Some v'), k, p. split; [exact Hrel |]. eauto.
  - injection Hstep as <- <-. auto.
  - destruct (relax_view v cost e st HInv) as (st1 & Hrun & Hrel).
    erewrite bind_Return in Hstep by exact Hrun.
    injection Hstep as <- <-. auto.
Qed.

(** What every step keeps holds after any number of steps. *)
Lemma steps_preserve g (P : control -> State -> Prop) :
  (forall c st c' st',
     Inv st -> P c st -> step g c st = (Return (Some c'), st') ->
     P c' st') ->
  forall n c st c' st',
    Inv st -> P c st -> steps g n c st = Some (c', st') -> P c' st'.
Proof.
  intros Hstep. induction n as [|n IH]; intros c st c' st' HInv HP Hn;
    simpl in Hn.
  - injection Hn as <- <-. exact HP.
  - destruct (step g c st) as [[[c1|]| |] st1] eqn:Hs; try discriminate.
    destruct (step_spec g c st c1 st1 HInv Hs) as [HInv1 _].
    apply (IH c1 st1 c' st' HInv1); [| exact Hn].
    exact (Hstep c st c1 st1 HInv HP Hs).
Qed.

Lemma via_mono g s d d' w c p :
  (forall x y, dict_get x d = Some y -> dict_get x d' = Some y) ->
  via g s d w c p -> via g s d' w c p.
Proof.
  intros Hd [H|(cp & pp & e & Hp & He & Ho & Hc)]; [left; exact H |].
  right. exists cp, pp, e. auto.
Qed.

Lemma edge_of_values g v adj e :
  dict_get v (Graph._structure g) = Some adj ->
  edge_of g (Some v) e -> e ∈ dict_values adj.
Proof.
  intros Hadj (v0 & adj0 & [= <-] & Hadj0 & Hin). congruence.
Qed.

(** *** The costs and predecessors, whatever the weights *)

Lemma Tree_entry g s : Tree g s AtHead (entry s).
Proof.
  assert (Hk : forall x, key_open (entry s) x
                         = if decide (x = Some s) then Some 0%Z else None).
  { intros x. unfold key_open.
    change (locs (entry s)) with [(Some s, 0)].
    change (APQ.objects (open (entry s)))
      with [APQ.mkElement 0%Z (Some s) 0].
    simpl. case_decide; reflexivity. }
  split.
  - intros w k p Hw. discriminate.
  - intros w k Hw. rewrite Hk in Hw.
    case_decide as Hx; [| discriminate]. injection Hw as <-. subst w.
    split; [constructor |]. intros p Hp.
    change (preds (entry s)) with [(Some s, @None Vertex)] in Hp.
    simpl in Hp. rewrite decide_True in Hp by reflexivity.
    injection Hp as <-. left. auto.
  - intros p e Hp. discriminate.
  - exact I.
  - constructor.
  - left. split; [reflexivity |]. split; [reflexivity |].
    split; [exact Hk |].
    change (preds (entry s)) with [(Some s, @None Vertex)]. simpl.
    rewrite decide_True by reflexivity. reflexivity.
Qed.

Lemma Tree_extract g s st v k p st' v' adj :
  Tree g s AtHead st -> extract_rel st v k p st' ->
  v = Some v' -> dict_get v' (Graph._structure g) = Some adj ->
  Tree g s (InFor v k (dict_values adj)) st'.
Proof.
  intros [Tc To Tcov _ Tnd Tsrc]
    (Hkv & Hpv & Hcv & Hmin & Hcl & Hkeys & Hko & Hpr) -> Hadj.
  assert (Hkeep : forall x y, dict_get x (closed st) = Some y ->
                              dict_get x (closed st') = Some y).
  { intros x y Hx. rewrite Hcl. case_decide; [congruence | exact Hx]. }
  split.
  - intros w k0 p0 Hw. rewrite Hcl in Hw. case_decide as Hx.
    + injection Hw as <- <-. subst w.
      destruct (To _ _ Hkv) as [Hwalk Hvia]. split; [exact Hwalk |].
      eapply via_mono; [exact Hkeep | apply Hvia, Hpv].
    + destruct (Tc _ _ _ Hw) as [Hwalk Hvia]. split; [exact Hwalk |].
      eapply via_mono; eauto.
  - intros w k0 Hw. rewrite Hko in Hw. case_decide as Hx; [discriminate |].
    destruct (To _ _ Hw) as [Hwalk Hvia]. split; [exact Hwalk |].
    intros p0 Hp0. rewrite Hpr in Hp0.
    rewrite decide_False in Hp0 by exact Hx.
    eapply via_mono; eauto.
  - intros p0 e0 Hm He0. apply dict_mem_true in Hm as [y Hy].
    rewrite Hcl in Hy. case_decide as Hx.
    + subst p0. left. split; [reflexivity |].
      eapply edge_of_values; eauto.
    + assert (Hm : dict_mem p0 (closed st) = true)
        by (apply dict_mem_true; eauto).
      destruct (Tcov _ _ Hm He0) as [[]|[Hc|Ho]].
      * right. left. apply dict_mem_true in Hc as [z Hz].
        apply dict_mem_true. eauto.
      * right. destruct (decide (opposite e0 p0 = Some v')) as [Hv|Hv].
        -- left. apply dict_mem_true. rewrite Hcl.
           rewrite decide_True by exact Hv. eauto.
        -- right. rewrite Hko. rewrite decide_False by exact Hv. exact Ho.
  - split.
    + exists p. rewrite Hcl. rewrite decide_True by reflexivity. reflexivity.
    + apply Forall_forall. intros e He. exists v', adj. auto.
  - rewrite Hkeys. apply NoDup_app. split; [exact Tnd |]. split.
    + intros x Hx Hx'. apply list_elem_of_singleton in Hx'. subst x.
      apply dict_mem_keys, dict_mem_true in Hx as [y Hy]. congruence.
    + apply NoDup_singleton.
  - right. destruct Tsrc as [(_ & _ & Hall & Hps)|Hs]; [| auto].
    rewrite Hall in Hkv. case_decide as Hx; [| discriminate].
    injection Hkv as <-. injection Hx as ->.
    rewrite Hps in Hpv. injection Hpv as <-.
    rewrite Hcl. rewrite decide_True by reflexivity. reflexivity.
Qed.

Lemma Tree_done g s v cost st :
  Tree g s (InFor v cost []) st -> Tree g s AtHead st.
Proof.
  intros [Tc To Tcov Tctl Tnd Tsrc]. split; auto.
  - intros p e Hp He. destruct (Tcov p e Hp He) as [[_ Hin]|H]; [| auto].
    inversion Hin.
  - destruct Tsrc as [(_ & [=] & _)|Hs]. auto.
Qed.

Lemma Tree_same g s v cost e rest st st' :
  Tree g s (InFor v cost (e :: rest)) st ->
  closed st' = closed st -> same_view st st' ->
  dict_mem (opposite e v) (closed st) = true
  \/ is_Some (key_open st (opposite e v)) ->
  Tree g s (InFor v cost rest) st'.
Proof.
  intros [Tc To Tcov [Tv Trest] Tnd Tsrc] Hcl [Hk Hp] Hw.
  split; rewrite ?Hcl.
  - exact Tc.
  - intros w k Hwk. rewrite Hk in Hwk.
    destruct (To _ _ Hwk) as [Hwalk Hvia]. split; [exact Hwalk |].
    intros p0. rewrite Hp. apply Hvia.
  - intros p0 e0 Hm He0. rewrite Hk.
    destruct (Tcov _ _ Hm He0) as [[-> Hin]|H]; [| auto].
    apply elem_of_cons in Hin as [-> |Hin]; [right; exact Hw |].
    left. split; [reflexivity | exact Hin].
  - split; [exact Tv |]. eapply Forall_inv_tail. exact Trest.
  - exact Tnd.
  - destruct Tsrc as [(_ & [=] & _)|Hs]. auto.
Qed.

Lemma Tree_upd g s v cost e rest st st' :
  Tree g s (InFor v cost (e :: rest)) st ->
  closed st' = closed st ->
  upd_view (opposite e v) (cost + e_element e) v st st' ->
  Tree g s (InFor v cost rest) st'.
Proof.
  intros [Tc To Tcov [[pv Tv] Trest] Tnd Tsrc] Hcl [Hk Hp].
  pose proof (Forall_inv Trest) as He.
  split; rewrite ?Hcl.
  - exact Tc.
  - intros w k Hwk. rewrite Hk in Hwk. case_decide as Hx.
    + injection Hwk as <-. subst w. split.
      * apply walk_edge; [| exact He]. apply (Tc _ _ _ Tv).
      * intros p0. rewrite Hp. rewrite decide_True by reflexivity.
        intros [= <-]. right. exists cost, pv, e. auto.
    + destruct (To _ _ Hwk) as [Hwalk Hvia]. split; [exact Hwalk |].
      intros p0. rewrite Hp. rewrite decide_False by exact Hx. apply Hvia.
  - intros p0 e0 Hm He0. rewrite Hk.
    destruct (Tcov _ _ Hm He0) as [[-> Hin]|[Hc|Ho]].
    + apply elem_of_cons in Hin as [-> |Hin].
      * right. right. rewrite decide_True by reflexivity. eauto.
      * left. split; [reflexivity | exact Hin].
    + auto.
    + right. right. case_decide; [eauto | exact Ho].
  - split; [eauto |]. eapply Forall_inv_tail. exact Trest.
  - exact Tnd.
  - destruct Tsrc as [(_ & [=] & _)|Hs]. auto.
Qed.

Lemma Tree_step g s c st c' st' :
  Inv st -> Tree g s c st -> step g c st = (Return (Some c'), st') ->
  Tree g s c' st'.
Proof.
  intros HInv HT Hstep. apply step_cases in Hstep; [| exact HInv].
  destruct c as [|v cost [|e rest]].
  - destruct Hstep as (v & k & p & Hrel & v' & adj & Hv & Hadj & ->).
    eapply Tree_extract; eauto.
  - destruct Hstep as [-> ->]. eapply Tree_done; eauto.
  - destruct Hstep as [-> [Hcl Hview]]. cbv zeta in Hview.
    destruct (dict_mem (opposite e v) (closed st)) eqn:Hc.
    { eapply Tree_same; eauto. }
    destruct (key_open st (opposite e v)) as [k|] eqn:Hk.
    + destruct (cost + e_element e <? k)%Z.
      * eapply Tree_upd; eauto.
      * eapply Tree_same;
          [exact HT | exact Hcl | exact Hview | right; rewrite Hk; eauto].
    + eapply Tree_upd; eauto.
Qed.

(** *** The costs when no weight is negative *)

Lemma Opt_entry g s : Opt g AtHead (entry s).
Proof.
  split; [intros u cu pu e Hu | intros u cu pu x k Hu | exact I];
    discriminate.
Qed.

Lemma Opt_extract g st v k p st' v' adj :
  Opt g AtHead st -> extract_rel st v k p st' ->
  v = Some v' -> dict_get v' (Graph._structure g) = Some adj ->
  Opt g (InFor v k (dict_values adj)) st'.
Proof.
  intros [Oe Oo _]
    (Hkv & Hpv & Hcv & Hmin & Hcl & Hkeys & Hko & Hpr) -> Hadj.
  split.
  - intros u cu pu e0 Hu He0. rewrite Hcl in Hu. case_decide as Hx.
    + subst u. left. split; [reflexivity |].
      eapply edge_of_values; eauto.
    + destruct (Oe _ _ _ _ Hu He0)
        as [[]|[(cw & pw & Hw & Hle)|(k0 & Hk0 & Hle)]].
      * right. left. exists cw, pw. split; [| exact Hle].
        rewrite Hcl. case_decide; [congruence | exact Hw].
      * right. destruct (decide (opposite e0 u = Some v')) as [Hv|Hv].
        -- left. exists k, p. rewrite Hcl.
           rewrite decide_True by exact Hv. split; [reflexivity |].
           rewrite Hv in Hk0. assert (k0 = k) by congruence. lia.
        -- right. exists k0. rewrite Hko.
           rewrite decide_False by exact Hv. auto.
  - intros u cu pu x k0 Hu Hx. rewrite Hko in Hx.
    case_decide as Hxv; [discriminate |].
    rewrite Hcl in Hu. case_decide as Huv.
    + injection Hu as <- <-. eapply Hmin; eauto.
    + eapply Oo; eauto.
  - intros u cu pu Hu. rewrite Hcl in Hu. case_decide as Huv.
    + injection Hu as <- <-. lia.
    + eapply Oo; eauto.
Qed.

Lemma Opt_done g v cost st : Opt g (InFor v cost []) st -> Opt g AtHead st.
Proof.
  intros [Oe Oo Oc]. split; auto.
  intros u cu pu e Hu He. destruct (Oe _ _ _ _ Hu He) as [[_ Hin]|H]; [| auto].
  inversion Hin.
Qed.

Lemma Opt_same g s v cost e rest st st' :
  Tree g s (InFor v cost (e :: rest)) st ->
  Opt g (InFor v cost (e :: rest)) st ->
  closed st' = closed st -> same_view st st' ->
  (0 <= e_element e)%Z ->
  dict_mem (opposite e v) (closed st) = true
  \/ (exists k, key_open st (opposite e v) = Some k
        /\ (k <= cost + e_element e)%Z) ->
  Opt g (InFor v cost rest) st'.
Proof.
  intros [_ _ _ [[pv Tv] _] _ _] [Oe Oo Oc] Hcl [Hk Hp] Hwt Hw.
  split; rewrite ?Hcl.
  - intros u cu pu e0 Hu He0. rewrite Hk.
    destruct (Oe _ _ _ _ Hu He0) as [[-> Hin]|H]; [| auto].
    assert (cu = cost) as -> by congruence.
    apply elem_of_cons in Hin as [-> |Hin].
    + right. destruct Hw as [Hc|Hw]; [left | right; exact Hw].
      apply dict_mem_true in Hc as [[cw pw] Hc]. exists cw, pw.
      split; [exact Hc |]. pose proof (Oc _ _ _ Hc). lia.
    + left. split; [reflexivity | exact Hin].
  - intros u cu pu x k Hu. rewrite Hk. eapply Oo; eauto.
  - exact Oc.
Qed.

Lemma Opt_upd g s v cost e rest st st' :
  Tree g s (InFor v cost (e :: rest)) st ->
  Opt g (InFor v cost (e :: rest)) st ->
  closed st' = closed st ->
  upd_view (opposite e v) (cost + e_element e) v st st' ->
  (0 <= e_element e)%Z ->
  (forall k, key_open st (opposite e v) = Some k ->
     (cost + e_element e <= k)%Z) ->
  Opt g (InFor v cost rest) st'.
Proof.
  intros [_ _ _ [[pv Tv] _] _ _] [Oe Oo Oc] Hcl [Hk Hp] Hwt Hw.
  split; rewrite ?Hcl.
  - intros u cu pu e0 Hu He0. rewrite Hk.
    destruct (Oe _ _ _ _ Hu He0)
      as [[-> Hin]|[H|(k0 & Hk0 & Hle)]].
    + assert (cu = cost) as -> by congruence.
      apply elem_of_cons in Hin as [-> |Hin].
      * right. right. rewrite decide_True by reflexivity.
        eexists. split; [reflexivity | lia].
      * left. split; [reflexivity | exact Hin].
    + auto.
    + right. right. case_decide as Hx.
      * rewrite Hx in Hk0. pose proof (Hw _ Hk0).
        eexists. split; [reflexivity | lia].
      * eauto.
  - intros u cu pu x k Hu. rewrite Hk. case_decide as Hx.
    + intros [= <-]. pose proof (Oc _ _ _ Hu). lia.
    + eapply Oo; eauto.
  - exact Oc.
Qed.

Lemma Both_step g s c st c' st' :
  nonneg g -> Inv st -> Tree g s c st /\ Opt g c st ->
  step g c st = (Return (Some c'), st') ->
  Tree g s c' st' /\ Opt g c' st'.
Proof.
  intros Hnn HInv [HT HO] Hstep.
  split; [eapply Tree_step; eauto |].
  apply step_cases in Hstep; [| exact HInv].
  destruct c as [|v cost [|e rest]].
  - destruct Hstep as (v & k & p & Hrel & v' & adj & Hv & Hadj & ->).
    eapply Opt_extract; eauto.
  - destruct Hstep as [-> ->]. eapply Opt_done; eauto.
  - destruct Hstep as [-> [Hcl Hview]]. cbv zeta in Hview.
    assert (Hwt : (0 <= e_element e)%Z).
    { apply (Hnn v). apply (Forall_inv (proj2 (tree_ctl _ _ _ _ HT))). }
    destruct (dict_mem (opposite e v) (closed st)) eqn:Hc.
    { eapply Opt_same; eauto. }
    destruct (key_open st (opposite e v)) as [k|] eqn:Hk.
    + destruct (cost + e_element e <? k)%Z eqn:Hlt.
      * eapply Opt_upd; eauto. intros k0 Hk0.
        assert (k0 = k) as -> by congruence.
        apply Z.ltb_lt in Hlt. lia.
      * apply Z.ltb_ge in Hlt.
        eapply Opt_same;
          [exact HT | exact HO | exact Hcl | exact Hview | exact Hwt |].
        right. exists k. auto.
    + eapply Opt_upd; eauto. intros k0 Hk0. congruence.
Qed.

(** *** The end of the run *)

(** When the loop ends no vertex is open. *)
Lemma halted_no_open g st :
  Inv st -> step g AtHead st = (Return None, st) ->
  forall x, key_open st x = None.
Proof.
  intros HInv Hstep x. unfold key_open.
  destruct (dict_get x (locs st)) as [r|] eqn:Hr; [| reflexivity].
  destruct (inv_locs st HInv x r Hr) as [Hrb _].
  destruct (inv_good st HInv) as [[Hsz _] _].
  destruct st as [h l c p]. simpl in *.
  destruct (bool_decide (APQ._size h = 0)) eqn:Hemp.
  - apply bool_decide_eq_true in Hemp. rewrite Hemp in Hsz.
    destruct (APQ._body h); [inversion Hrb | discriminate].
  - erewrite bind_Return in Hstep by apply is_empty_run.
    rewrite Hemp in Hstep.
    destruct (extract_view (mkState h l c p) HInv)
      as (v & k & pv & st1 & Hext & _).
    { apply bool_decide_eq_false in Hemp. simpl. lia. }
    erewrite bind_Return in Hstep by exact Hext. cbv iota beta in Hstep.
    unfold bind in Hstep.
    destruct (edges_of g v st1) as [[?| |] ?]; discriminate.
Qed.

Lemma dijkstra_end g s d :
  dijkstra g s = Return d ->
  exists st, Inv st /\ Tree g s AtHead st
    /\ (nonneg g -> Opt g AtHead st)
    /\ (forall x, key_open st x = None) /\ closed st = d.
Proof.
  intros Hrun.
  destruct (dijkstra_steps g s d Hrun) as (n & st & Hn & Hhalt & Hd).
  destruct (steps_spec g n _ _ _ _ (Inv_entry s) Hn) as [HInv _].
  exists st. split; [exact HInv |]. split; [| split; [| split]].
  - eapply (steps_preserve g (Tree g s)); [| apply Inv_entry | | exact Hn].
    + intros; eapply Tree_step; eauto.
    + apply Tree_entry.
  - intros Hnn.
    eapply (steps_preserve g (fun c st => Tree g s c st /\ Opt g c st));
      [| apply Inv_entry | | exact Hn].
    + intros; eapply Both_step; eauto.
    + split; [apply Tree_entry | apply Opt_entry].
  - eapply halted_no_open; eauto.
  - exact Hd.
Qed.

Lemma nonnegb_nonneg g : nonnegb g = true -> nonneg g.
Proof.
  unfold nonnegb. intros Hb p e (v & adj & -> & Hadj & Hin).
  rewrite forallb_forall in Hb.
  apply dict_get_elem_of, list_elem_of_In in Hadj.
  specialize (Hb _ Hadj). simpl in Hb. rewrite forallb_forall in Hb.
  apply list_elem_of_In in Hin. apply Hb in Hin. apply Z.leb_le, Hin.
Qed.

Lemma dijkstra_returns g s :
  GraphInv.built g -> dict_mem s (Graph._structure g) = true ->
  exists d, dijkstra g s = Return d.
Proof.
  intros Hbuilt Hs. pose proof (built_wf g Hbuilt) as Hwf.
  destruct (loop_spec g Hwf (S (length (Graph._structure g))) (entry s)
              (Inv_entry s) (VInv_entry g s Hs)
              (Nat.le_le_succ_r _ _ (unclosed_length g _)))
    as (st' & Hloop & _).
  exists (closed st'). unfold dijkstra, dijkstra_run.
  erewrite bind_Return by apply prologue_run.
  erewrite bind_Return by exact Hloop. reflexivity.
Qed.

(** X16. Whatever the weights are, the dictionary that [dijkstra]
    returns has one entry for each of its vertices, the entry
    [(0, None)] for the source, and for every other vertex [w] an entry
    [(c, p)] where [p] has an entry itself, an edge of [p] leads to [w]
    and [c] is the cost of [p] plus the weight of that edge; so [c] is
    the weight of a walk from the source to [w]. *)
Theorem dijkstra_tree g s d :
  dijkstra g s = Return d ->
  dict_get (Some s) d = Some (0%Z, None)
  /\ NoDup (dict_keys d)
  /\ forall w c p, dict_get w d = Some (c, p) ->
       walk g s w c /\ via g s d w c p.
Proof.
  intros Hrun.
  destruct (dijkstra_end g s d Hrun) as (st & _ & HT & _ & Hno & <-).
  destruct HT as [Tc _ _ _ Tnd Tsrc]. split; [| split; [exact Tnd | exact Tc]].
  destruct Tsrc as [(_ & _ & Hall & _)|Hs]; [| exact Hs].
  specialize (Hall (Some s)). rewrite Hno in Hall.
  rewrite decide_True in Hall by reflexivity. discriminate.
Qed.

(** X17. The vertices in the dictionary that [dijkstra] returns are
    the vertices that a walk from the source reaches, no more and no
    less. *)
Theorem dijkstra_reaches g s d :
  dijkstra g s = Return d ->
  forall w, dict_mem w d = true <-> exists L, walk g s w L.
Proof.
  intros Hrun.
  destruct (dijkstra_end g s d Hrun) as (st & _ & HT & _ & Hno & <-).
  assert (Hs : dict_mem (Some s) (closed st) = true).
  { destruct (tree_source _ _ _ _ HT) as [(_ & _ & Hall & _)|Hs].
    - specialize (Hall (Some s)). rewrite Hno in Hall.
      rewrite decide_True in Hall by reflexivity. discriminate.
    - apply dict_mem_true. eauto. }
  intros w. split.
  - intros Hw. apply dict_mem_true in Hw as [[c p] Hw].
    exists c. apply (tree_closed _ _ _ _ HT _ _ _ Hw).
  - intros [L Hwalk]. induction Hwalk as [|p L e Hwalk IH He].
    + exact Hs.
    + destruct (tree_cover _ _ _ _ HT _ _ IH He) as [[]|[Hc|Ho]].
      * exact Hc.
      * rewrite Hno in Ho. destruct Ho as [? Ho]. discriminate.
Qed.

(** X18. On a graph made by [add_vertex] and [add_edge] in which no
    weight is negative, [dijkstra] from a vertex of the graph returns,
    and the cost it gives for a vertex is the least weight of a walk
    from the source to it: every vertex that a walk reaches has an
    entry, whose cost is the weight of a walk and at most the weight of
    the walk given. *)
Theorem dijkstra_shortest g s :
  GraphInv.built g -> dict_mem s (Graph._structure g) = true ->
  nonneg g ->
  exists d, dijkstra g s = Return d
    /\ forall w L, walk g s w L ->
         exists c p, dict_get w d = Some (c, p)
           /\ walk g s w c /\ (c <= L)%Z.
Proof.
  intros Hbuilt Hs Hnn.
  destruct (dijkstra_returns g s Hbuilt Hs) as [d Hrun].
  exists d. split; [exact Hrun |].
  destruct (dijkstra_end g s d Hrun) as (st & _ & HT & HO & Hno & <-).
  specialize (HO Hnn).
  assert (Hsrc : dict_get (Some s) (closed st) = Some (0%Z, None)).
  { destruct (tree_source _ _ _ _ HT) as [(_ & _ & Hall & _)|H]; [| exact H].
    specialize (Hall (Some s)). rewrite Hno in Hall.
    rewrite decide_True in Hall by reflexivity. discriminate. }
  intros w L Hwalk. induction Hwalk as [|p L e Hwalk IH He].
  - exists 0%Z, None. split; [exact Hsrc |]. split; [constructor | lia].
  - destruct IH as (cp & pp & Hp & _ & Hle).
    destruct (opt_edge _ _ _ HO _ _ _ _ Hp He)
      as [[]|[(cw & pw & Hw & Hle')|(k & Hk & _)]].
    + exists cw, pw. split; [exact Hw |]. split; [| lia].
      apply (tree_closed _ _ _ _ HT _ _ _ Hw).
    + rewrite Hno in Hk. discriminate.
Qed.

End DijkstraMoreFacts.

Lemma dijkstra_absent_source_witness :
  Dijkstra.dijkstra example_graph (mkVertex 9 "Z") = Raise TypeError.
Proof. apply dijkstra_absent_source. reflexivity. Defined.

Lemma dijkstra_tree_witness :
  dict_get (Some vA) example_result = Some (0%Z, None)
  /\ NoDup (dict_keys example_result)
  /\ forall w c p, dict_get w example_result = Some (c, p) ->
       DijkstraMore.walk example_graph vA w c
       /\ DijkstraMore.via example_graph vA example_result w c p.
Proof. apply dijkstra_tree. reflexivity. Defined.

Lemma dijkstra_reaches_witness :
  Dijkstra.dijkstra example_graph vA = Return example_result
  /\ forall w, dict_mem w example_result = true
               <-> exists L, DijkstraMore.walk example_graph vA w L.
Proof.
  split; [reflexivity |]. apply dijkstra_reaches. reflexivity.
Defined.

Lemma dijkstra_shortest_witness :
  exists d, Dijkstra.dijkstra example_graph vA = Return d
    /\ forall w L, DijkstraMore.walk example_graph vA w L ->
         exists c p, dict_get w d = Some (c, p)
           /\ DijkstraMore.walk example_graph vA w c /\ (c <= L)%Z.
Proof.
  apply dijkstra_shortest.
  - exact example_graph_built.
  - reflexivity.
  - apply nonnegb_nonneg. reflexivity.
Defined.

(** ** The stack *)

Section StackFacts.

Context {A : Type}.

Implicit Types s : Stack.Stack A.

(** X19. The stack is last in, first out, and forgiving: [pop] after
    [push(x)] returns [x] and leaves the stack as it was before the
    [push]; [top] after [push(x)] returns [x] and removes nothing;
    [pop] and [top] on a stack without elements return [None] and
    change nothing; [length] counts the pushes. *)
Theorem stack_lifo s (x : A) :
  (Stack.push x;; Stack.pop) s = (Return (Some x), s)
  /\ (Stack.push x;; Stack.top) s = (Return (Some x), (Stack.push x s).2)
  /\ (Stack.push x;; Stack.length) s
     = (Return (Datatypes.S (List.length (Stack._list s))),
        (Stack.push x s).2)
  /\ (Stack._list s = [] ->
      Stack.pop s = (Return None, s) /\ Stack.top s = (Return None, s)).
Proof.
  destruct s as [l]. unfold bind, Stack.push, Stack.pop, Stack.top,
    Stack.length. simpl.
  assert (Hlen : List.length (l ++ [x]) <> 0)
    by (rewrite length_app; simpl; lia).
  rewrite !decide_False by exact Hlen.
  rewrite last_snoc, removelast_last, length_app. simpl.
  rewrite Nat.add_1_r.
  repeat split; try reflexivity; subst; reflexivity.
Qed.

End StackFacts.

(** ** The vertex of highest degree *)

Section GraphDegreeFacts.

Import Graph GraphDegree.

Local Abbreviation length := List.length.

Implicit Types g : Graph.

Lemma degree_of_run g v :
  dict_mem v (_structure g) = true ->
  degree v g = (Return (degree_of g v), g).
Proof.
  intros Hv. apply dict_mem_true in Hv as [adj Hadj].
  unfold degree_of. rewrite Hadj. apply degree_run, Hadj.
Qed.

Lemma highest_loop_spec g : forall vs hd hdv,
  (forall v, v ∈ vs -> dict_mem v (_structure g) = true) ->
  exists r, highest_loop vs hd hdv g = (Return r, g)
    /\ ((r = hdv
         /\ forall u, u ∈ vs -> (Z.of_nat (degree_of g u) <= hd)%Z)
        \/ exists pre v post,
             vs = pre ++ v :: post /\ r = Some v
             /\ (hd < Z.of_nat (degree_of g v))%Z
             /\ (forall u, u ∈ pre -> degree_of g u < degree_of g v)
             /\ (forall u, u ∈ post -> degree_of g u <= degree_of g v)).
Proof.
  induction vs as [|v vs IH]; intros hd hdv Hvs.
  - exists hdv. split; [reflexivity |]. left. split; [reflexivity |].
    intros u Hu. inversion Hu.
  - assert (Hv : dict_mem v (_structure g) = true)
      by (apply Hvs, elem_of_cons; auto).
    assert (Hrest : forall u, u ∈ vs -> dict_mem u (_structure g) = true)
      by (intros u Hu; apply Hvs, elem_of_cons; auto).
    simpl. erewrite bind_Return by (apply degree_of_run, Hv).
    destruct (hd <? Z.of_nat (degree_of g v))%Z eqn:Hlt.
    + apply Z.ltb_lt in Hlt.
      erewrite bind_Return by (apply degree_of_run, Hv).
      destruct (IH (Z.of_nat (degree_of g v)) (Some v) Hrest)
        as (r & Hrun & [[-> Hall]|(pre & v' & post & -> & -> & Hd & Hpre
                                   & Hpost)]).
      * exists (Some v). split; [exact Hrun |]. right.
        exists [], v, vs. repeat split; auto.
        -- intros u Hu. inversion Hu.
        -- intros u Hu. specialize (Hall u Hu). lia.
      * exists (Some v'). split; [exact Hrun |]. right.
        exists (v :: pre), v', post. repeat split; auto.
        -- lia.
        -- intros u Hu. apply elem_of_cons in Hu as [-> |Hu]; [lia | auto].
    + apply Z.ltb_ge in Hlt.
      destruct (IH hd hdv Hrest)
        as (r & Hrun & [[-> Hall]|(pre & v' & post & -> & -> & Hd & Hpre
                                   & Hpost)]).
      * exists hdv. split; [exact Hrun |]. left. split; [reflexivity |].
        intros u Hu. apply elem_of_cons in Hu as [-> |Hu]; auto.
      * exists (Some v'). split; [exact Hrun |]. right.
        exists (v :: pre), v', post. repeat split; auto.
        intros u Hu. apply elem_of_cons in Hu as [-> |Hu]; [lia | auto].
Qed.

(** X20. [highestdegreevertex] never raises and changes nothing; on a
    graph without vertices it returns [None]; otherwise it returns the
    first vertex, in the order in which the vertices were added, whose
    degree no vertex exceeds: every vertex before it has a smaller
    degree, every vertex after it none greater. *)
Theorem highestdegreevertex_contract g :
  exists r, highestdegreevertex g = (Return r, g)
    /\ match r with
       | None => _structure g = []
       | Some v =>
           exists pre post,
             dict_keys (_structure g) = pre ++ v :: post
             /\ (forall u, u ∈ pre -> degree_of g u < degree_of g v)
             /\ (forall u, u ∈ post -> degree_of g u <= degree_of g v)
       end.
Proof.
  destruct (highest_loop_spec g (dict_keys (_structure g)) (-1)%Z None)
    as (r & Hrun & [[-> Hall]|(pre & v & post & Hvs & -> & _ & Hpre & Hpost)]).
  - intros v Hv. apply dict_mem_keys, Hv.
  - exists None. split; [exact Hrun |].
    destruct (_structure g) as [|[v adj] rest]; [reflexivity |].
    specialize (Hall v). simpl in Hall.
    specialize (Hall (list_elem_of_here _ _)). lia.
  - exists (Some v). split; [exact Hrun |]. exists pre, post. auto.
Qed.

End GraphDegreeFacts.

(** ** The breadth-first search *)

Section BFSFacts.

Import Dijkstra DijkstraMore BFS BFSInv.

Local Abbreviation length := List.length.

Lemma iter_edges_run {S} g v adj (st : S) :
  dict_get v (Graph._structure g) = Some adj ->
  iter_edges g (Some v) st = (Return (dict_values adj), st).
Proof.
  intros Hadj. unfold iter_edges. rewrite (get_edges_run g v adj Hadj).
  reflexivity.
Qed.

Lemma iter_edges_absent {S} g v (st : S) :
  dict_mem v (Graph._structure g) = false ->
  iter_edges g (Some v) st = (Raise TypeError, st).
Proof.
  intros Hv. unfold iter_edges, Graph.get_edges.
  erewrite bind_Return by reflexivity. rewrite Hv. reflexivity.
Qed.

Lemma entry_ok_mono g s m m' x w k :
  (forall y v, dict_get y m = Some v -> dict_get y m' = Some v) ->
  entry_ok g s m x w k -> entry_ok g s m' x w k.
Proof.
  intros Hm [H|(w' & k' & e & Hw & Hk & He & Ho)]; [left; exact H |].
  right. exists w', k', e. auto.
Qed.

Lemma Inv_weaken g s l lvl lvl' (pend pend' : pyvertex -> Edge -> Prop)
  N st :
  Inv g s l lvl pend N st ->
  (forall p, p ∈ lvl' -> p ∈ lvl) ->
  (forall p e, edge_of g p e -> pend p e -> pend' p e) ->
  Inv g s l lvl' pend' N st.
Proof.
  intros [Hr Hb Hl Hn Hc Hg Hs Hcnt] Hlvl Hpend. split; auto.
  intros p wp kp e Hp He.
  destruct (Hc _ _ _ _ Hp He) as [H|H]; [left; auto | right; exact H].
Qed.

Lemma unmarked_decrease {X} g (m : dict pyvertex X) v (x : X) :
  dict_mem v (Graph._structure g) = true ->
  dict_mem (Some v) m = false ->
  length (unmarked g (dict_set (Some v) x m)) < length (unmarked g m).
Proof.
  intros Hv Hm. unfold unmarked.
  apply (filter_length_lt _ _ _ v).
  - intros u. rewrite dict_mem_set. case_decide; [discriminate | auto].
  - apply dict_mem_keys, Hv.
  - exact Hm.
  - rewrite dict_mem_set, decide_True by reflexivity. discriminate.
Qed.

(** Lines 311 to 314 keep the invariant. *)
Lemma Inv_visit g s l cur e es rest N st :
  Inv g s l (cur :: rest) (pending cur (e :: es) rest) N st ->
  edge_of g cur e -> DijkstraInv.edge_ok g cur e ->
  exists st', visit cur (S l) e st = (Return tt, st')
    /\ Inv g s l (cur :: rest) (pending cur es rest) N st'.
Proof.
  intros HInv He (x' & Hx' & Hx'g). destruct st as [m nl].
  pose proof HInv as [Hr Hb Hl Hn Hc Hg Hs Hcnt]. simpl in *.
  destruct (Hl cur (list_elem_of_here _ _)) as [wc Hcur].
  unfold visit. erewrite bind_Return by reflexivity. cbn [marked nextlevel].
  rewrite Hx'. destruct (dict_mem (Some x') m) eqn:Hm.
  - exists (mkState m nl). split; [reflexivity |].
    split; simpl; auto.
    intros p wp kp e0 Hp He0.
    destruct (Hc _ _ _ _ Hp He0) as [[[-> Hin]|Hin]|H]; [| | auto].
    + apply elem_of_cons in Hin as [-> |Hin].
      * right. right. rewrite Hx'.
        apply dict_mem_true in Hm as [[wx kx] Hx]. exists wx, kx.
        split; [exact Hx |]. assert (kp = l) as -> by congruence.
        eapply Hb; eauto.
      * left. left. auto.
    + left. right. exact Hin.
  - apply dict_mem_false in Hm.
    assert (Hget : forall y, dict_get y (dict_set (Some x') (cur, S l) m)
                   = if decide (y = Some x') then Some (cur, S l)
                     else dict_get y m).
    { intros y. case_decide as Hy.
      - subst y. apply dict_get_set_eq.
      - apply dict_get_set_ne. congruence. }
    assert (Hkeep : forall y v, dict_get y m = Some v ->
                    dict_get y (dict_set (Some x') (cur, S l) m) = Some v).
    { intros y v Hy. rewrite Hget. case_decide; [congruence | exact Hy]. }
    eexists. split; [reflexivity |]. split; simpl.
    + intros x w k Hx. rewrite Hget in Hx. case_decide as Hxx.
      * injection Hx as <- <-. subst x. split.
        -- rewrite <- Hx'. apply path_edge; [| exact He].
           apply (Hr _ _ _ Hcur).
        -- right. exists wc, l, e. auto.
      * destruct (Hr _ _ _ Hx) as [Hp Hok]. split; [exact Hp |].
        eapply entry_ok_mono; eauto.
    + intros x w k Hx. rewrite Hget in Hx. case_decide as Hxx.
      * injection Hx as <- <-. lia.
      * eapply Hb; eauto.
    + intros p Hp. destruct (Hl p Hp) as [w Hw]. eauto.
    + intros x Hx. apply elem_of_app in Hx as [Hx|Hx].
      * destruct (Hn x Hx) as [w Hw]. eauto.
      * apply list_elem_of_singleton in Hx. subst x. exists cur.
        rewrite Hget. rewrite decide_True by reflexivity. reflexivity.
    + intros p wp kp e0 Hp He0. rewrite Hget in Hp.
      case_decide as Hpx.
      { subst p. right. left. apply elem_of_app. right.
        apply list_elem_of_singleton. reflexivity. }
      destruct (Hc _ _ _ _ Hp He0) as [[[-> Hin]|Hin]|[Hin|H]].
      * apply elem_of_cons in Hin as [-> |Hin].
        -- right. right. rewrite Hx'. exists cur, (S l).
           rewrite Hget. rewrite decide_True by reflexivity.
           split; [reflexivity |].
           assert (kp = l) as -> by congruence. lia.
        -- left. left. auto.
      * left. right. exact Hin.
      * right. left. apply elem_of_app. auto.
      * right. right. destruct H as (wx & kx & Hx & Hle).
        exists wx, kx. auto.
    + intros x Hx. rewrite dict_mem_set in Hx. case_decide as Hxx.
      * subst x. eauto.
      * auto.
    + rewrite Hget. rewrite decide_False; [exact Hs |].
      intros Heq. rewrite Heq in Hs. congruence.
    + rewrite length_app. simpl.
      pose proof (unmarked_decrease g m x' (cur, S l) Hx'g
                    (proj2 (dict_mem_false _ _) Hm)).
      lia.
Qed.

Lemma Inv_edges g s l cur rest N : forall es st,
  Inv g s l (cur :: rest) (pending cur es rest) N st ->
  Forall (edge_of g cur) es -> Forall (DijkstraInv.edge_ok g cur) es ->
  exists st', for_each es (visit cur (S l)) st = (Return tt, st')
    /\ Inv g s l (cur :: rest) (pending cur [] rest) N st'.
Proof.
  induction es as [|e es IH]; intros st HInv Hof Hok.
  - exists st. split; [reflexivity | exact HInv].
  - apply Forall_cons in Hof as [He Hof].
    apply Forall_cons in Hok as [Hke Hok].
    destruct (Inv_visit _ _ _ _ _ _ _ _ _ HInv He Hke) as (st1 & Hrun & HInv1).
    destruct (IH st1 HInv1 Hof Hok) as (st' & Hrun' & HInv').
    exists st'. split; [| exact HInv'].
    simpl. erewrite bind_Return by exact Hrun. exact Hrun'.
Qed.

(** Lines 310 to 314 for a vertex of the level. *)
Lemma Inv_scan g s l w rest N st :
  GraphInv.wf g ->
  Inv g s l (w :: rest) (fun p _ => p ∈ w :: rest) N st ->
  exists st', scan g (S l) w st = (Return tt, st')
    /\ Inv g s l rest (fun p _ => p ∈ rest) N st'.
Proof.
  intros Hwf HInv.
  destruct (inv_level _ _ _ _ _ _ _ HInv w (list_elem_of_here _ _))
    as [ww Hw].
  destruct (inv_graph _ _ _ _ _ _ _ HInv w) as (v & -> & Hv).
  { apply dict_mem_true. eauto. }
  pose proof Hv as Hadj. apply dict_mem_true in Hadj as [adj Hadj].
  destruct (Inv_edges g s l (Some v) rest N (dict_values adj) st)
    as (st' & Hrun & HInv').
  - eapply Inv_weaken; [exact HInv | auto |].
    intros p e He Hp. apply elem_of_cons in Hp as [-> |Hp].
    + left. split; [reflexivity |]. eapply edge_of_values; eauto.
    + right. exact Hp.
  - apply Forall_forall. intros e He. exists v, adj. auto.
  - eapply edges_ok; eauto.
  - exists st'. split.
    + unfold scan. erewrite bind_Return by (apply iter_edges_run, Hadj).
      exact Hrun.
    + eapply Inv_weaken; [exact HInv' | |].
      * intros p Hp. apply elem_of_cons. auto.
      * intros p e _ [[_ Hin]|Hin]; [inversion Hin | exact Hin].
Qed.

(** Lines 309 to 314: the [for] over the level. *)
Lemma Inv_level g s l N :
  GraphInv.wf g ->
  forall level st,
    Inv g s l level (fun p _ => p ∈ level) N st ->
    exists st', for_each level (scan g (S l)) st = (Return tt, st')
      /\ Inv g s l [] (fun _ _ => False) N st'.
Proof.
  intros Hwf. induction level as [|w rest IH]; intros st HInv.
  - exists st. split; [reflexivity |].
    eapply Inv_weaken; [exact HInv | auto |].
    intros p e _ Hin. inversion Hin.
  - destruct (Inv_scan _ _ _ _ _ _ _ Hwf HInv) as (st1 & Hrun & HInv1).
    destruct (IH st1 HInv1) as (st' & Hrun' & HInv').
    exists st'. split; [| exact HInv'].
    simpl. erewrite bind_Return by exact Hrun. exact Hrun'.
Qed.

(** The [while] loop returns, with every edge of a marked vertex
    leading to a marked vertex at most one level further. *)
Lemma bfs_loop_spec g s :
  GraphInv.wf g ->
  forall fuel level l m nl0,
    Inv g s l level (fun p _ => p ∈ level) (length (unmarked g m))
      (mkState m []) ->
    level = [] \/ length (unmarked g m) < fuel ->
    exists st' l',
      bfs_loop g fuel level (S l) (mkState m nl0) = (Return tt, st')
      /\ Inv g s l' [] (fun _ _ => False)
           (length (unmarked g (marked st'))) (mkState (marked st') []).
Proof.
  intros Hwf. induction fuel as [|fuel IH]; intros level l m nl0 HInv Hfuel.
  - destruct Hfuel as [-> |Hfuel]; [| lia].
    exists (mkState m nl0), l. split; [reflexivity |].
    eapply Inv_weaken; [exact HInv | auto |].
    intros p e _ Hin. inversion Hin.
  - destruct level as [|w rest].
    { exists (mkState m nl0), l. split; [reflexivity |].
      eapply Inv_weaken; [exact HInv | auto |].
      intros p e _ Hin. inversion Hin. }
    destruct Hfuel as [[=]|Hfuel].
    destruct (Inv_level g s l _ Hwf _ _ HInv) as ([m1 nl1] & Hrun & HInv1).
    destruct (IH nl1 (S l) m1 nl1) as (st' & l' & Hrun' & HInv').
    + destruct HInv1 as [Hr Hb Hl Hn Hc Hg Hs Hcnt]. simpl in *.
      split; simpl; auto.
      * intros x w0 k Hx. specialize (Hb _ _ _ Hx). lia.
      * intros x Hx. inversion Hx.
      * intros p wp kp e Hp He.
        destruct (Hc _ _ _ _ Hp He) as [[]|[Hin|H]]; auto.
    + pose proof (inv_count _ _ _ _ _ _ _ HInv1) as Hcnt. simpl in Hcnt.
      destruct nl1 as [|x nl1]; [left; reflexivity | right].
      simpl in Hcnt. lia.
    + exists st', l'. split; [| exact HInv'].
      change (bfs_loop g (S fuel) (w :: rest) (S l))
        with ((let* st := get in
               put {| marked := marked st; nextlevel := [] |});;
              for_each (w :: rest) (scan g (S l));;
              let* st := get in
              bfs_loop g fuel (nextlevel st) (S (S l))).
      erewrite bind_Return by reflexivity. cbn [marked].
      erewrite bind_Return by exact Hrun.
      erewrite bind_Return by reflexivity. exact Hrun'.
Qed.

Lemma BFS_length_end g s :
  GraphInv.built g -> dict_mem s (Graph._structure g) = true ->
  exists d l, BFS_length g s = Return d
    /\ Inv g s l [] (fun _ _ => False) (length (unmarked g d))
         (mkState d []).
Proof.
  intros Hbuilt Hs. pose proof (built_wf g Hbuilt) as Hwf.
  destruct (bfs_loop_spec g s Hwf (S (length (Graph._structure g)))
              [Some s] 0 [(Some s, (None, 0))] [])
    as (st' & l' & Hrun & HInv').
  - split; simpl.
    + intros x w k Hx. case_decide as Hxs; [| discriminate].
      injection Hx as <- <-. subst x. split; [constructor |]. left. auto.
    + intros x w k Hx. case_decide as Hxs; [| discriminate].
      injection Hx as <- <-. lia.
    + intros p Hp. apply list_elem_of_singleton in Hp. subst p.
      exists None. rewrite decide_True by reflexivity. reflexivity.
    + intros x Hx. inversion Hx.
    + intros p wp kp e Hp He. case_decide as Hps; [| discriminate].
      left. subst p. apply list_elem_of_here.
    + intros x Hx. unfold dict_mem in Hx. simpl in Hx.
      case_decide as Hxs; [| discriminate]. eauto.
    + rewrite decide_True by reflexivity. reflexivity.
    + reflexivity.
  - right. unfold unmarked, dict_keys.
    apply Nat.lt_succ_r. etransitivity; [apply length_filter |].
    rewrite length_fmap. reflexivity.
  - exists (marked st'), l'. split; [| exact HInv'].
    unfold BFS_length. rewrite Hrun. reflexivity.
Qed.

(** X21. On a graph made by [add_vertex] and [add_edge], [BFS_length]
    from a vertex of the graph returns a dictionary in which the source
    has the entry [(None, 0)] and every other entry [x: (w, k)] names a
    vertex [w] that has an entry of level [k - 1] and an edge that leads
    to [x]; so [x] is [k] edges away from the source along listed
    edges. *)
Theorem BFS_length_tree g s :
  GraphInv.built g -> dict_mem s (Graph._structure g) = true ->
  exists d, BFS_length g s = Return d
    /\ dict_get (Some s) d = Some (None, 0)
    /\ forall x w k, dict_get x d = Some (w, k) ->
         path g s x k /\ entry_ok g s d x w k.
Proof.
  intros Hbuilt Hs.
  destruct (BFS_length_end g s Hbuilt Hs) as (d & l & Hrun & HInv).
  exists d. split; [exact Hrun |]. split.
  - apply (inv_source _ _ _ _ _ _ _ HInv).
  - apply (inv_real _ _ _ _ _ _ _ HInv).
Qed.

(** X22. On such a graph, the dictionary that [BFS_length] returns has
    an entry for every vertex that a walk from the source reaches, and
    the level in the entry is the least number of edges of such a walk:
    it is at most the number of edges of the walk given. *)
Theorem BFS_length_shortest g s :
  GraphInv.built g -> dict_mem s (Graph._structure g) = true ->
  exists d, BFS_length g s = Return d
    /\ forall x n, path g s x n ->
         exists w k, dict_get x d = Some (w, k) /\ path g s x k /\ k <= n.
Proof.
  intros Hbuilt Hs.
  destruct (BFS_length_end g s Hbuilt Hs) as (d & l & Hrun & HInv).
  exists d. split; [exact Hrun |].
  intros x n Hpath. induction Hpath as [|p n e Hpath IH He].
  - exists None, 0. split; [apply (inv_source _ _ _ _ _ _ _ HInv) |].
    split; [constructor | lia].
  - destruct IH as (wp & kp & Hp & _ & Hle).
    destruct (inv_cover _ _ _ _ _ _ _ HInv _ _ _ _ Hp He)
      as [[]|[Hin|(wx & kx & Hx & Hle')]]; [inversion Hin |].
    exists wx, kx. split; [exact Hx |]. split; [| lia].
    apply (inv_real _ _ _ _ _ _ _ HInv _ _ _ Hx).
Qed.

(** X23. [BFS_length] from a vertex that is not in the graph raises
    [TypeError], whatever the graph is: [get_edges] returns [None] for
    it, over which the [for] cannot iterate. *)
Theorem BFS_length_absent g s :
  dict_mem s (Graph._structure g) = false ->
  BFS_length g s = Raise TypeError.
Proof.
  intros Hs. unfold BFS_length.
  change (bfs_loop g (S (length (Graph._structure g))) [Some s] 1)
    with ((let* st := get in
           put {| marked := marked st; nextlevel := [] |});;
          for_each [Some s] (scan g 1);;
          let* st := get in
          bfs_loop g (length (Graph._structure g)) (nextlevel st) 2).
  erewrite bind_Return by reflexivity.
  erewrite bind_Raise; [reflexivity |].
  simpl for_each. erewrite bind_Raise; [reflexivity |].
  unfold scan. erewrite bind_Raise; [reflexivity |].
  apply iter_edges_absent, Hs.
Qed.

End BFSFacts.

Lemma BFS_length_tree_witness :
  exists d, BFS.BFS_length example_graph vA = Return d
    /\ dict_get (Some vA) d = Some (None, 0)
    /\ forall x w k, dict_get x d = Some (w, k) ->
         BFSInv.path example_graph vA x k
         /\ BFSInv.entry_ok example_graph vA d x w k.
Proof.
  apply BFS_length_tree; [exact example_graph_built | reflexivity].
Defined.

Lemma BFS_length_shortest_witness :
  exists d, BFS.BFS_length example_graph vA = Return d
    /\ forall x n, BFSInv.path example_graph vA x n ->
         exists w k, dict_get x d = Some (w, k)
           /\ BFSInv.path example_graph vA x k /\ k <= n.
Proof.
  apply BFS_length_shortest; [exact example_graph_built | reflexivity].
Defined.

Lemma BFS_length_absent_witness :
  BFS.BFS_length example_graph (mkVertex 9 "Z") = Raise TypeError.
Proof. apply BFS_length_absent. reflexivity. Defined.

(** The levels of the example: [A] 0, [B] and [C] 1, [D] 2. *)
Example BFS_length_example :
  BFS.BFS_length example_graph vA
  = Return [(Some vA, (None, 0)); (Some vB, (Some vA, 1));
            (Some vC, (Some vA, 1)); (Some vD, (Some vC, 2))].
Proof. vm_compute. reflexivity. Qed.

(** ** The depth-first search with a stack *)

Section DFSFacts.

Import Dijkstra DijkstraMore BFSInv DFS DFSInv.

Local Abbreviation length := List.length.

Lemma push_edges_run vertex m : forall es l,
  for_each es (push_edge vertex) (mkState m (Stack.mkStack l))
  = (Return tt,
     mkState m (Stack.mkStack
                  (l ++ map (fun e => (opposite e vertex, Some e)) es))).
Proof.
  induction es as [|e es IH]; intros l; simpl.
  - rewrite app_nil_r. reflexivity.
  - erewrite bind_Return by reflexivity. simpl. rewrite IH.
    rewrite <- app_assoc. reflexivity.
Qed.

Lemma item_ok_mono g s m m' x e :
  (forall y, dict_mem y m = true -> dict_mem y m' = true) ->
  item_ok g s m x e -> item_ok g s m' x e.
Proof.
  intros Hm [H|(p & e' & -> & Hp & He & Ho)]; [left; exact H |].
  right. exists p, e'. auto.
Qed.

Lemma weight_le {X} (m : dict pyvertex X) w (x : X) st :
  weight (dict_set w x m) st <= weight m st.
Proof.
  unfold weight. induction st as [|[v adj] st IH]; simpl; [lia |].
  rewrite dict_mem_set. case_decide; [lia |].
  destruct (dict_mem (Some v) m); lia.
Qed.

Lemma weight_mark {X} (m : dict pyvertex X) v adj (x : X) st :
  (v, adj) ∈ st -> dict_mem (Some v) m = false ->
  weight (dict_set (Some v) x m) st + length adj <= weight m st.
Proof.
  intros Hin Hm. induction st as [|[v0 a0] st IH]; [inversion Hin |].
  apply elem_of_cons in Hin as [[= <- <-]|Hin].
  - pose proof (weight_le m (Some v) x st) as Hle.
    unfold weight in *. simpl. rewrite dict_mem_set.
    rewrite decide_True by reflexivity. rewrite Hm. lia.
  - specialize (IH Hin). pose proof (weight_le m (Some v) x [(v0, a0)]) as Hle.
    unfold weight in *. simpl in *. lia.
Qed.

Lemma weight_nil {X} st : weight (@nil (pyvertex * X)) st = GraphInv.total st.
Proof.
  unfold weight. induction st as [|[v adj] st IH]; [reflexivity |].
  rewrite total_cons. cbn [sum_list_with]. rewrite IH. reflexivity.
Qed.

(** An iteration of the [while] loop keeps the invariant and uses up
    one unit of the measure. *)
Lemma Inv_pop g s m l w0 e0 :
  GraphInv.wf g -> Inv g s m (l ++ [(w0, e0)]) ->
  if dict_mem w0 m then Inv g s m l
  else exists v0 adj,
    w0 = Some v0 /\ dict_get v0 (Graph._structure g) = Some adj
    /\ Inv g s (dict_set w0 e0 m)
         (l ++ map (fun e => (opposite e w0, Some e)) (dict_values adj)).
Proof.
  intros Hwf [Hr Hi Hc Hs].
  destruct (Hi w0 e0) as ([n0 Hp0] & Hok0 & v0 & -> & Hv0).
  { apply elem_of_app. right. apply list_elem_of_here. }
  destruct (dict_mem (Some v0) m) eqn:Hm.
  - split.
    + exact Hr.
    + intros w e Hin. apply Hi, elem_of_app. auto.
    + intros p e Hp He. destruct (Hc p e Hp He) as [H|[e1 Hin]]; [auto |].
      apply elem_of_app in Hin as [Hin|Hin]; [right; eauto |].
      apply list_elem_of_singleton in Hin. injection Hin as Hin _.
      left. rewrite Hin. exact Hm.
    + destruct Hs as [[-> Hl]|Hs]; [discriminate | auto].
  - apply dict_mem_true in Hv0 as [adj Hadj]. exists v0, adj.
    split; [reflexivity |]. split; [exact Hadj |].
    assert (Hmono : forall y, dict_mem y m = true ->
                    dict_mem y (dict_set (Some v0) e0 m) = true).
    { intros y Hy. rewrite dict_mem_set. case_decide; auto. }
    assert (Hnew : dict_mem (Some v0) (dict_set (Some v0) e0 m) = true).
    { rewrite dict_mem_set. rewrite decide_True by reflexivity.
      reflexivity. }
    split.
    + intros x e Hx. destruct (decide (x = Some v0)) as [-> |Hne].
      * rewrite dict_get_set_eq in Hx. injection Hx as <-.
        split; [eauto |]. eapply item_ok_mono; eauto.
      * rewrite dict_get_set_ne in Hx by congruence.
        destruct (Hr _ _ Hx) as [Hp Hok]. split; [exact Hp |].
        eapply item_ok_mono; eauto.
    + intros w e Hin. apply elem_of_app in Hin as [Hin|Hin].
      * destruct (Hi w e) as (Hp & Hok & Hv).
        { apply elem_of_app. auto. }
        split; [exact Hp |]. split; [| exact Hv].
        eapply item_ok_mono; eauto.
      * apply list_elem_of_fmap in Hin as (e' & [= -> ->] & Hin).
        assert (He' : edge_of g (Some v0) e') by (exists v0, adj; auto).
        split; [exists (S n0); apply path_edge; auto |].
        split; [right; exists (Some v0), e'; auto |].
        pose proof (edges_ok g v0 adj Hwf Hadj) as Hok.
        rewrite Forall_forall in Hok.
        destruct (Hok e' Hin) as (x & Hx & Hxg). eauto.
    + intros p e Hp He. destruct (decide (p = Some v0)) as [-> |Hne].
      * right. exists (Some e). apply elem_of_app. right.
        apply list_elem_of_fmap. exists e. split; [reflexivity |].
        eapply edge_of_values; eauto.
      * rewrite dict_mem_set in Hp. rewrite decide_False in Hp by congruence.
        destruct (Hc p e Hp He) as [H|[e1 Hin]]; [auto |].
        apply elem_of_app in Hin as [Hin|Hin].
        -- right. exists e1. apply elem_of_app. auto.
        -- apply list_elem_of_singleton in Hin. injection Hin as Hin _.
           left. rewrite Hin. exact Hnew.
    + right. destruct Hs as [[-> Hl]|Hs].
      * destruct l as [|? [|? ?]]; try discriminate.
        simpl in Hl. injection Hl as -> ->. apply dict_get_set_eq.
      * rewrite dict_get_set_ne; [exact Hs |].
        intros Heq. rewrite <- Heq in Hs. apply dict_mem_false in Hm.
        congruence.
Qed.

Lemma dfs_loop_unfold g fuel :
  dfs_loop g fuel
  = (let* n := with_stack Stack.length in
     if (0 <? n) then
       match fuel with
       | 0 => out_of_fuel
       | S fuel' =>
           let* r := with_stack Stack.pop in
           match r with
           | None => raise TypeError
           | Some (vertex, edge) =>
               (let* st := get in
                if negb (dict_mem vertex (marked st)) then
                  put {| marked := dict_set vertex edge (marked st);
                         stack := stack st |};;
                  let* edges := iter_edges g vertex in
                  for_each edges (push_edge vertex)
                else ret tt);;
               dfs_loop g fuel'
           end
       end
     else ret tt).
Proof. destruct fuel; reflexivity. Qed.

Lemma pop_run m (l : list (pyvertex * option Edge)) x :
  with_stack Stack.pop (mkState m (Stack.mkStack (l ++ [x])))
  = (Return (Some x), mkState m (Stack.mkStack l)).
Proof.
  unfold with_stack, Stack.pop. simpl.
  rewrite decide_False by (rewrite length_app; simpl; lia).
  rewrite last_snoc, removelast_last. reflexivity.
Qed.

(** The [while] loop returns with an empty stack. *)
Lemma dfs_loop_spec g s :
  GraphInv.wf g ->
  forall fuel m l,
    Inv g s m l ->
    length l + weight m (Graph._structure g) <= fuel ->
    exists m', dfs_loop g fuel (mkState m (Stack.mkStack l))
               = (Return tt, mkState m' (Stack.mkStack []))
      /\ Inv g s m' [].
Proof.
  intros Hwf. induction fuel as [|fuel IH]; intros m l HInv Hfuel;
    rewrite dfs_loop_unfold;
    (erewrite bind_Return by reflexivity); cbn [Stack._list].
  - destruct l; [| simpl in Hfuel; lia]. exists m. auto.
  - destruct l as [|x l0] using rev_ind; [exists m; auto |]. clear IHl0.
    cbn [Stack._list stack marked].
    rewrite length_app in Hfuel |- *. simpl in Hfuel |- *.
    replace (0 <? length l0 + 1) with true
      by (symmetry; apply Nat.ltb_lt; lia).
    destruct x as [w0 e0].
    erewrite bind_Return by apply pop_run. cbv iota beta.
    pose proof (Inv_pop g s m l0 w0 e0 Hwf HInv) as Hpop.
    destruct (dict_mem w0 m) eqn:Hm.
    + destruct (IH m l0 Hpop) as (m' & Hrun & HInv'); [lia |].
      exists m'. split; [| exact HInv'].
      erewrite bind_Return; [exact Hrun |].
      erewrite bind_Return by reflexivity. cbn [marked]. rewrite Hm.
      reflexivity.
    + destruct Hpop as (v0 & adj & -> & Hadj & HInv1).
      destruct (IH _ _ HInv1) as (m' & Hrun & HInv').
      { rewrite length_app, length_map.
        pose proof (weight_mark m v0 adj e0 (Graph._structure g)
                      (dict_get_elem_of _ _ _ Hadj) Hm) as Hw.
        unfold dict_values. rewrite length_fmap. lia. }
      exists m'. split; [| exact HInv'].
      erewrite bind_Return; [exact Hrun |].
      erewrite bind_Return by reflexivity. cbn [marked stack]. rewrite Hm.
      change (negb false) with true. cbv iota.
      erewrite bind_Return by reflexivity.
      erewrite bind_Return by (apply iter_edges_run, Hadj).
      apply push_edges_run.
Qed.

(** X24. On a graph made by [add_vertex] and [add_edge], [dfs_stack]
    from a vertex of the graph returns a dictionary whose keys are the
    vertices that a walk from the start reaches, no more and no less;
    the start has the entry [None], and every other vertex has an edge
    of a marked vertex that leads to it. *)
Theorem dfs_stack_reaches g s :
  GraphInv.built g -> dict_mem s (Graph._structure g) = true ->
  exists d, dfs_stack g s = Return d
    /\ dict_get (Some s) d = Some None
    /\ (forall x, dict_mem x d = true <-> exists n, path g s x n)
    /\ (forall x e, dict_get x d = Some e -> item_ok g s d x e).
Proof.
  intros Hbuilt Hs. pose proof (built_wf g Hbuilt) as Hwf.
  destruct (dfs_loop_spec g s Hwf (S (GraphInv.total (Graph._structure g)))
              [] [(Some s, None)]) as (d & Hrun & [Hr Hi Hc Hsrc]).
  - split.
    + intros x e Hx. discriminate.
    + intros w e Hin. apply list_elem_of_singleton in Hin.
      injection Hin as -> ->. split; [exists 0; constructor |].
      split; [left; auto | eauto].
    + intros p e Hp. discriminate.
    + left. auto.
  - rewrite weight_nil. simpl. lia.
  - assert (Hsd : dict_get (Some s) d = Some None).
    { destruct Hsrc as [[_ [=]]|H]. exact H. }
    exists d. split; [| split; [exact Hsd | split]].
    + unfold dfs_stack.
      rewrite (bind_Return _ _ _ tt
                 (mkState [] (Stack.mkStack [(Some s, None)])))
        by reflexivity.
      rewrite Hrun. reflexivity.
    + intros x. split.
      * intros Hx. apply dict_mem_true in Hx as [e Hx].
        apply (Hr _ _ Hx).
      * intros [n Hpath]. induction Hpath as [|p n e Hpath IH He].
        -- apply dict_mem_true. eauto.
        -- destruct (Hc p e IH He) as [H|[e0 Hin]]; [exact H |].
           inversion Hin.
    + intros x e Hx. apply (Hr _ _ Hx).
Qed.

(** X25. [dfs_stack] from a vertex that is not in the graph raises
    [TypeError], whatever the graph is: the vertex is popped and
    marked, [get_edges] returns [None] for it, and the [for] cannot
    iterate over [None]. *)
Theorem dfs_stack_absent g s :
  dict_mem s (Graph._structure g) = false ->
  dfs_stack g s = Raise TypeError.
Proof.
  intros Hs. unfold dfs_stack.
  rewrite (bind_Return _ _ _ tt
             (mkState [] (Stack.mkStack [(Some s, None)])))
    by reflexivity.
  rewrite dfs_loop_unfold. erewrite bind_Return by reflexivity.
  cbn [Stack._list stack marked List.length].
  change (0 <? 1) with true. cbv iota.
  erewrite bind_Return by (apply (pop_run [] [])).
  cbv iota beta. erewrite bind_Raise; [reflexivity |].
  erewrite bind_Return by reflexivity. cbn [marked dict_mem dict_get].
  change (negb false) with true. cbv iota.
  erewrite bind_Return by reflexivity.
  erewrite bind_Raise; [reflexivity |].
  apply iter_edges_absent, Hs.
Qed.

End DFSFacts.

Lemma dfs_stack_reaches_witness :
  exists d, DFS.dfs_stack example_graph vA = Return d
    /\ dict_get (Some vA) d = Some None
    /\ (forall x, dict_mem x d = true
                  <-> exists n, BFSInv.path example_graph vA x n)
    /\ (forall x e, dict_get x d = Some e ->
          DFSInv.item_ok example_graph vA d x e).
Proof.
  apply dfs_stack_reaches; [exact example_graph_built | reflexivity].
Defined.

Lemma dfs_stack_absent_witness :
  DFS.dfs_stack example_graph (mkVertex 9 "Z") = Raise TypeError.
Proof. apply dfs_stack_absent. reflexivity. Defined.

(** ** The recursive depth-first search *)

Section DFSRecFacts.

Import Dijkstra DijkstraMore BFSInv DFSInv DFSRec DFSRecInv.

Local Abbreviation length := List.length.

Implicit Types m : dict pyvertex (option Edge).









(** X27. The recursive [depthfirstsearch] from a vertex that is not in
    the graph raises [TypeError], whatever the graph is. *)
Theorem depthfirstsearch_absent g s :
  dict_mem s (Graph._structure g) = false ->
  depthfirstsearch g s = Raise TypeError.
Proof.
  intros Hs. unfold depthfirstsearch. simpl.
  erewrite bind_Raise; [reflexivity |]. apply iter_edges_absent, Hs.
Qed.

End DFSRecFacts.


Lemma depthfirstsearch_absent_witness :
  DFSRec.depthfirstsearch example_graph (mkVertex 9 "Z") = Raise TypeError.
Proof. apply depthfirstsearch_absent. reflexivity. Defined.

(** ** The two breadth-first searches *)

Section BFSEdgesFacts.

Import Dijkstra BFSEdges.

Local Abbreviation length := List.length.

Lemma same_entry_mem d1 d2 x :
  Forall2 same_entry d1 d2 -> dict_mem x d1 = dict_mem x d2.
Proof.
  unfold dict_mem. induction 1 as [|[x1 e1] [x2 [w2 k2]] d1 d2 [Hx _] _ IH];
    [reflexivity |].
  simpl in Hx. subst x2. simpl. case_decide; [reflexivity | exact IH].
Qed.

Lemma sim_visit w l e st1 st2 :
  sim st1 st2 -> agree (visit w e st1) (BFS.visit w l e st2).
Proof.
  intros [Hm Hn]. destruct st1 as [m1 n1], st2 as [m2 n2]. simpl in *.
  unfold visit, BFS.visit, bind, get, put, ret. simpl.
  rewrite (same_entry_mem m1 m2 _ Hm).
  destruct (dict_mem (opposite e w) m2) eqn:Hx; simpl.
  - split; assumption.
  - pose proof Hx as Hx1. rewrite <- (same_entry_mem m1 m2 _ Hm) in Hx1.
    apply dict_mem_false in Hx, Hx1.
    rewrite !dict_set_new by assumption.
    split; simpl; [| congruence].
    apply Forall2_app; [exact Hm |].
    constructor; [| constructor]. split; reflexivity.
Qed.

Lemma sim_edges w l : forall es st1 st2,
  sim st1 st2 ->
  agree (for_each es (visit w) st1) (for_each es (BFS.visit w l) st2).
Proof.
  induction es as [|e es IH]; intros st1 st2 Hsim; [exact Hsim |].
  pose proof (sim_visit w l e st1 st2 Hsim) as Hv.
  simpl. unfold bind.
  destruct (visit w e st1) as [[[]| |] st1'],
    (BFS.visit w l e st2) as [[[]| |] st2'];
    try exact Hv; try (exfalso; exact Hv).
  apply IH, Hv.
Qed.

Lemma iter_edges_state {S1 S2} g w (st1 : S1) (st2 : S2) :
  (iter_edges g w st1).1 = (iter_edges g w st2).1
  /\ (iter_edges g w st1).2 = st1.
Proof.
  unfold iter_edges. destruct w as [v|]; [| split; reflexivity].
  destruct (Graph.get_edges v g).1 as [[es|]| |]; split; reflexivity.
Qed.

Lemma sim_scan g w l st1 st2 :
  sim st1 st2 -> agree (scan g w st1) (BFS.scan g l w st2).
Proof.
  intros Hsim. unfold scan, BFS.scan, bind.
  destruct (iter_edges_state g w st1 st2) as [Ho H1].
  destruct (iter_edges_state g w st2 st1) as [_ H2].
  destruct (iter_edges g w st1) as [o1 s1], (iter_edges g w st2) as [o2 s2].
  simpl in *. subst o2 s1 s2. destruct o1 as [es| |].
  - apply sim_edges, Hsim.
  - reflexivity.
  - exact I.
Qed.

Lemma sim_level g l : forall level st1 st2,
  sim st1 st2 ->
  agree (for_each level (scan g) st1) (for_each level (BFS.scan g l) st2).
Proof.
  induction level as [|w level IH]; intros st1 st2 Hsim; [exact Hsim |].
  pose proof (sim_scan g w l st1 st2 Hsim) as Hv.
  simpl. unfold bind.
  destruct (scan g w st1) as [[[]| |] st1'],
    (BFS.scan g l w st2) as [[[]| |] st2'];
    try exact Hv; try (exfalso; exact Hv).
  apply IH, Hv.
Qed.

Lemma sim_loop g : forall fuel level l st1 st2,
  sim st1 st2 ->
  agree (bfs_loop g fuel level st1) (BFS.bfs_loop g fuel level l st2).
Proof.
  induction fuel as [|fuel IH]; intros level l st1 st2 Hsim; simpl;
    destruct (0 <? length level); try exact Hsim; try exact I.
  destruct st1 as [m1 n1], st2 as [m2 n2]. destruct Hsim as [Hm _].
  simpl in Hm.
  assert (Hsim0 : sim (mkState m1 []) (BFS.mkState m2 []))
    by (split; [exact Hm | reflexivity]).
  pose proof (sim_level g l level _ _ Hsim0) as Hl.
  unfold bind, get, put. simpl.
  destruct (for_each level (scan g) (mkState m1 [])) as [[[]| |] st1'],
    (for_each level (BFS.scan g l) (BFS.mkState m2 []))
    as [[[]| |] st2']; try exact Hl; try (exfalso; exact Hl).
  unfold agree in Hl. simpl in Hl.
  rewrite (proj2 Hl). apply IH, Hl.
Qed.

(** X28. [breadthfirstsearch] and [BFS_length] are the same search:
    from the same start on the same graph they raise the same
    exception, or they return dictionaries with the same vertices in
    the same order, in which the edge that [breadthfirstsearch] keeps
    for a vertex joins it to the parent that [BFS_length] keeps for it,
    and the start has no edge and no parent. *)
Theorem breadthfirstsearch_BFS_length g v :
  same_result (breadthfirstsearch g v) (BFS.BFS_length g v).
Proof.
  unfold breadthfirstsearch, BFS.BFS_length.
  pose proof (sim_loop g (S (length (Graph._structure g))) [Some v] 1
                (mkState [(Some v, None)] [])
                (BFS.mkState [(Some v, (None, 0))] [])) as Hsim.
  unfold agree in Hsim.
  destruct (bfs_loop g _ _ _) as [[[]| |] st1],
    (BFS.bfs_loop g _ _ _ _) as [[[]| |] st2]; simpl in *;
    try (apply Hsim; split; [| reflexivity];
         constructor; [split; reflexivity | constructor]).
Qed.

End BFSEdgesFacts.

(** ** The list of all edges *)

Section GraphEdgesFacts.

Import Graph GraphInv GraphMore GraphEdges.

Local Abbreviation length := List.length.

Implicit Types g : Graph.

Lemma dict_set_nodup {K V} `{EqDecision K} (k : K) (v : V) d :
  NoDup (dict_keys d) -> NoDup (dict_keys (dict_set k v d)).
Proof.
  intros Hd. destruct (dict_get k d) as [x|] eqn:Hk.
  - rewrite dict_keys_set_mem by eauto. exact Hd.
  - rewrite dict_keys_set_new by exact Hk.
    apply NoDup_app. split; [exact Hd |]. split; [| apply NoDup_singleton].
    intros y Hy Hy'. apply list_elem_of_singleton in Hy'. subst y.
    apply dict_mem_keys, dict_mem_true in Hy as [x Hx]. congruence.
Qed.

Lemma elem_of_dict_nodup {K V} `{EqDecision K} (k : K) (x : V) d :
  NoDup (dict_keys d) -> (k, x) ∈ d -> dict_get k d = Some x.
Proof.
  unfold dict_keys. induction d as [|[k' v'] d IH]; intros Hnd Hin;
    [inversion Hin |].
  simpl in Hnd. apply NoDup_cons in Hnd as [Hk' Hnd]. simpl.
  apply elem_of_cons in Hin as [[= -> ->]|Hin].
  - rewrite decide_True by reflexivity. reflexivity.
  - destruct (decide (k = k')) as [-> |Hne]; [| auto].
    exfalso. apply Hk'. apply list_elem_of_fmap. exists (k', x). auto.
Qed.

Lemma constructed_unique_keys g : constructed g -> unique_keys g.
Proof.
  induction 1 as [|g element a _ [IH1 IH2] Hnew|g v w x _ [IH1 IH2]].
  - split; [constructor |]. intros v adj Hin. inversion Hin.
  - split; simpl.
    + apply dict_set_nodup, IH1.
    + intros v adj Hin. apply elem_of_dict_set in Hin as [[_ ->]|Hin];
        [constructor | eauto].
  - destruct (dict_mem v (_structure g)) eqn:Hmv;
      [| rewrite add_edge_absent by auto; split; assumption].
    destruct (dict_mem w (_structure g)) eqn:Hmw;
      [| rewrite add_edge_absent by auto; split; assumption].
    apply dict_mem_true in Hmv as [av Hv].
    pose proof Hmw as Hmw'. apply dict_mem_true in Hmw'.
    destruct (add_edge_run g v w x av Hv Hmw') as (aw & Haw & Hrun).
    rewrite Hrun. simpl. set (e := mkEdge (v, w) x) in *.
    assert (Hav : NoDup (dict_keys av))
      by (eapply IH2, dict_get_elem_of; eauto).
    assert (H1 : forall u adj,
              (u, adj) ∈ dict_set v (dict_set w e av) (_structure g) ->
              NoDup (dict_keys adj)).
    { intros u adj Hin. apply elem_of_dict_set in Hin as [[_ ->]|Hin];
        [apply dict_set_nodup, Hav | eauto]. }
    split.
    + apply dict_set_nodup, dict_set_nodup, IH1.
    + intros u adj Hin. apply elem_of_dict_set in Hin as [[_ ->]|Hin];
        [| eauto].
      apply dict_set_nodup. eapply H1, dict_get_elem_of; eauto.
Qed.

(** X29. On a graph made by [add_vertex] and [add_edge], [edges]
    changes nothing and returns a list without duplicates that holds
    exactly the edges that [get_edge] returns for some pair of
    vertices: every edge of the graph once, whichever way round it was
    added. *)
Theorem edges_contract g :
  constructed g ->
  exists es, edges g = (Return es, g)
    /\ NoDup es
    /\ forall e, e ∈ es
         <-> exists v w, get_edge v w g = (Return (Some e), g).
Proof.
  intros Hc. destruct (constructed_unique_keys g Hc) as [Hk1 Hk2].
  pose proof (constructed_edges g Hc) as Hsym.
  assert (Hat : forall v adj w e,
            (v, adj) ∈ _structure g -> (w, e) ∈ adj ->
            edge_at g v w = Some e).
  { intros v adj w e Hv Hw. unfold edge_at.
    rewrite (elem_of_dict_nodup _ _ _ Hk1 Hv).
    apply elem_of_dict_nodup; eauto. }
  eexists. split; [reflexivity |]. split.
  - apply NoDup_bind.
    + intros [v1 a1] [v2 a2] e H1 H2 He1 He2. simpl in *.
      apply list_elem_of_filter in He1 as [Hs1 _].
      apply list_elem_of_filter in He2 as [Hs2 _].
      assert (v1 = v2) as <- by congruence.
      pose proof (elem_of_dict_nodup _ _ _ Hk1 H1).
      pose proof (elem_of_dict_nodup _ _ _ Hk1 H2). congruence.
    + intros [v adj] Hv. simpl. apply NoDup_filter.
      unfold dict_values. apply NoDup_fmap_2_strong.
      * intros [w1 e1] [w2 e2] Hw1 Hw2 He. simpl in He. subst e2.
        pose proof (Hat _ _ _ _ Hv Hw1) as Ha1.
        pose proof (Hat _ _ _ _ Hv Hw2) as Ha2.
        destruct (proj2 (Hsym v w1) _ Ha1) as [E1|E1],
          (proj2 (Hsym v w2) _ Ha2) as [E2|E2];
          rewrite E1 in E2; injection E2 as ?; subst; try reflexivity;
          congruence.
      * eapply NoDup_fmap_1. apply (Hk2 _ _ Hv).
    + eapply NoDup_fmap_1. exact Hk1.
  - intros e. rewrite list_elem_of_bind. split.
    + intros ([v adj] & He & Hv). simpl in He.
      apply list_elem_of_filter in He as [_ He].
      unfold dict_values in He.
      apply list_elem_of_fmap in He as ([w e'] & -> & Hw). simpl.
      exists v, w. rewrite get_edge_run. f_equal. f_equal. eauto.
    + intros (v & w & Hget). rewrite get_edge_run in Hget.
      injection Hget as Hget.
      assert (Hfind : forall a b,
                edge_at g a b = Some e -> start e = a ->
                exists va, e ∈ filter (fun e0 => start e0 = va.1)
                                 (dict_values va.2)
                  /\ va ∈ _structure g).
      { intros a b Hab Hs. unfold edge_at in Hab.
        destruct (dict_get a (_structure g)) as [adj|] eqn:Ha;
          [| discriminate].
        exists (a, adj). split; [| apply dict_get_elem_of, Ha].
        apply list_elem_of_filter. split; [exact Hs |].
        unfold dict_values. apply list_elem_of_fmap. exists (b, e).
        split; [reflexivity |]. apply dict_get_elem_of, Hab. }
      destruct (proj2 (Hsym v w) _ Hget) as [E|E].
      * apply (Hfind v w Hget). unfold start. rewrite E. reflexivity.
      * apply (Hfind w v).
        -- rewrite <- (proj1 (Hsym v w)). exact Hget.
        -- unfold start. rewrite E. reflexivity.
Qed.

End GraphEdgesFacts.

Lemma edges_contract_witness :
  exists es, GraphEdges.edges example_graph = (Return es, example_graph)
    /\ NoDup es
    /\ forall e, e ∈ es
         <-> exists v w,
               Graph.get_edge v w example_graph
               = (Return (Some e), example_graph).
Proof. apply edges_contract. exact example_graph_constructed. Defined.

(** ** The topological sort *)

Section TopSortFacts.

Import Dijkstra DirectedGraph DirectedInv DirectedMore TopSort TopSortInv.

Local Abbreviation length := List.length.

Implicit Types g : DirectedGraph.

Lemma constructed_shaped g : constructed g -> shaped g.
Proof.
  intros Hc. destruct (directed_constructed_inv g Hc) as [Hcons Hinv].
  assert (Hrest : NoDup (dict_keys (_structure g))
    /\ (forall v a, dict_get v (_structure g) = Some a ->
          NoDup (dict_keys a))
    /\ (forall u iu, dict_get u (_inedges g) = Some iu ->
          NoDup (dict_keys iu))
    /\ (forall v w e, out_edge_at g v w = Some e ->
          dict_mem w (_structure g) = true)).
  { clear Hcons Hinv.
    induction Hc as [|g element a Hc (IH1 & IH2 & IH3 & IH4) Hnew
                     |g v0 w0 x Hc (IH1 & IH2 & IH3 & IH4)].
    - split; [constructor |]. split; [discriminate |].
      split; [discriminate |]. discriminate.
    - simpl. set (v1 := mkVertex a element) in *.
      split; [apply dict_set_nodup, IH1 |]. split; [| split].
      + intros v a0. destruct (decide (v = v1)) as [-> |Hne].
        * rewrite dict_get_set_eq. intros [= <-]. constructor.
        * rewrite dict_get_set_ne by congruence. apply IH2.
      + intros u iu. destruct (decide (u = v1)) as [-> |Hne].
        * rewrite dict_get_set_eq. intros [= <-]. constructor.
        * rewrite dict_get_set_ne by congruence. apply IH3.
      + intros v w e. unfold out_edge_at. simpl.
        destruct (decide (v = v1)) as [-> |Hne].
        * rewrite dict_get_set_eq. discriminate.
        * rewrite dict_get_set_ne by congruence. intros He.
          rewrite dict_mem_set. case_decide; [reflexivity |].
          apply (IH4 v w e). exact He.
    - destruct (directed_constructed_inv g Hc) as [Hcons _].
      destruct (directed_add_edge_total g v0 w0 x)
        as [Hrun|[(av & iw & Hav & Hiw & Hrun)|Hbad]].
      + rewrite Hrun. simpl. auto.
      + rewrite Hrun. simpl. set (e := mkEdge (v0, w0) x) in *.
        assert (Hw0 : dict_mem w0 (_structure g) = true).
        { rewrite <- Hcons. apply dict_mem_true. eauto. }
        split; [apply dict_set_nodup, IH1 |]. split; [| split].
        * intros v a0. destruct (decide (v = v0)) as [-> |Hne].
          -- rewrite dict_get_set_eq. intros [= <-].
             apply dict_set_nodup. eauto.
          -- rewrite dict_get_set_ne by congruence. apply IH2.
        * intros u iu. destruct (decide (u = w0)) as [-> |Hne].
          -- rewrite dict_get_set_eq. intros [= <-].
             apply dict_set_nodup. eauto.
          -- rewrite dict_get_set_ne by congruence. apply IH3.
        * intros v w e0. unfold out_edge_at. simpl. intros He0.
          rewrite dict_mem_set. case_decide; [reflexivity |].
          destruct (decide (v = v0)) as [-> |Hne].
          -- rewrite dict_get_set_eq in He0.
             destruct (decide (w = w0)) as [-> |Hnw]; [exact Hw0 |].
             rewrite dict_get_set_ne in He0 by congruence.
             apply (IH4 v0 w e0). unfold out_edge_at. rewrite Hav.
             exact He0.
          -- rewrite dict_get_set_ne in He0 by congruence.
             apply (IH4 v w e0). exact He0.
      + exfalso. apply Hbad, Hcons. }
  destruct Hrest as (H1 & H2 & H3 & H4).
  split; auto.
  - intros v w. apply Hinv.
  - intros v w e. apply Hinv.
Qed.

Lemma preds_spec g u p : p ∈ preds g u <-> is_Some (in_edge_at g u p).
Proof.
  unfold preds, in_edge_at. destruct (dict_get u (_inedges g)) as [iu|].
  - rewrite <- dict_mem_keys. apply dict_mem_true.
  - split; [inversion 1 | intros [? ?]; discriminate].
Qed.

Lemma succs_spec g w u : u ∈ succs g w <-> is_Some (out_edge_at g w u).
Proof.
  unfold succs, out_edge_at. destruct (dict_get w (_structure g)) as [a|].
  - rewrite <- dict_mem_keys. apply dict_mem_true.
  - split; [inversion 1 | intros [? ?]; discriminate].
Qed.

Lemma preds_succs g u p : shaped g -> p ∈ preds g u <-> u ∈ succs g p.
Proof.
  intros Hsh. rewrite preds_spec, succs_spec, (sh_agree g Hsh). reflexivity.
Qed.

Lemma preds_nodup g u : shaped g -> NoDup (preds g u).
Proof.
  intros Hsh. unfold preds.
  destruct (dict_get u (_inedges g)) as [iu|] eqn:Hu; [| constructor].
  eapply sh_in; eauto.
Qed.

Lemma succs_nodup g w : shaped g -> NoDup (succs g w).
Proof.
  intros Hsh. unfold succs.
  destruct (dict_get w (_structure g)) as [a|] eqn:Hw; [| constructor].
  eapply sh_out; eauto.
Qed.

Lemma preds_vertex g u p :
  shaped g -> p ∈ preds g u -> dict_mem p (_structure g) = true.
Proof.
  intros Hsh Hp. apply preds_spec in Hp. rewrite <- (sh_agree g Hsh) in Hp.
  destruct Hp as [e He]. unfold out_edge_at in He.
  apply dict_mem_true. destruct (dict_get p (_structure g)); [eauto |].
  discriminate.
Qed.

Lemma live_true T pend u p :
  live T pend u p = true
  <-> Some p ∉ T
      \/ exists cur rest, pend = Some (cur, rest) /\ p = cur /\ u ∈ rest.
Proof.
  unfold live. rewrite orb_true_iff, negb_true_iff, bool_decide_eq_false.
  destruct pend as [[cur rest]|].
  - rewrite andb_true_iff, !bool_decide_eq_true. split.
    + intros [H|[H1 H2]]; [auto | right; eauto].
    + intros [H|(c & r & [= <- <-] & H1 & H2)]; auto.
  - split; [intros [H|H]; [auto | discriminate] |].
    intros [H|(c & r & H & _)]; [auto | discriminate].
Qed.

Lemma filter_ext_elem {A} (P Q : A -> Prop)
  `{forall x, Decision (P x)} `{forall x, Decision (Q x)} (l : list A) :
  (forall x, x ∈ l -> (P x <-> Q x)) -> filter P l = filter Q l.
Proof.
  induction l as [|x l IH]; intros Hext; [reflexivity |].
  rewrite !filter_cons.
  assert (Hx : P x <-> Q x) by (apply Hext, list_elem_of_here).
  rewrite IH by (intros y Hy; apply Hext, list_elem_of_further, Hy).
  destruct (decide (P x)) as [HP|HP].
  - rewrite decide_True by (apply Hx, HP). reflexivity.
  - rewrite decide_False by (intros HQ; apply HP, Hx, HQ). reflexivity.
Qed.

Lemma filter_all {A} (P : A -> Prop) `{forall x, Decision (P x)}
  (l : list A) :
  (forall x, x ∈ l -> P x) -> filter P l = l.
Proof.
  induction l as [|x l IH]; intros Hall; [reflexivity |].
  rewrite filter_cons. rewrite decide_True by apply Hall, list_elem_of_here.
  f_equal. apply IH. intros y Hy. apply Hall, list_elem_of_further, Hy.
Qed.

Lemma filter_remove_one {A} (P Q : A -> Prop)
  `{forall x, Decision (P x)} `{forall x, Decision (Q x)} (l : list A) a :
  NoDup l -> a ∈ l -> P a -> ~ Q a ->
  (forall x, x ∈ l -> x <> a -> (P x <-> Q x)) ->
  length (filter P l) = S (length (filter Q l)).
Proof.
  induction l as [|x l IH]; intros Hnd Ha HPa HQa Hext; [inversion Ha |].
  apply NoDup_cons in Hnd as [Hx Hnd]. rewrite !filter_cons.
  apply elem_of_cons in Ha as [<- |Ha].
  - rewrite decide_True by exact HPa. rewrite decide_False by exact HQa.
    simpl. f_equal. f_equal. apply filter_ext_elem.
    intros y Hy. apply Hext; [apply list_elem_of_further, Hy |].
    intros ->. contradiction.
  - assert (Hne : x <> a) by (intros ->; contradiction).
    assert (Hpq : P x <-> Q x)
      by (apply Hext; [apply list_elem_of_here | exact Hne]).
    assert (HIH : length (filter P l) = S (length (filter Q l))).
    { apply (IH Hnd Ha HPa HQa).
      intros y Hy. apply Hext, list_elem_of_further, Hy. }
    destruct (decide (P x)) as [HP|HP].
    + rewrite decide_True by (apply Hpq, HP). simpl. rewrite HIH.
      reflexivity.
    + rewrite decide_False by (intros HQ; apply HP, Hpq, HQ). exact HIH.
Qed.

Lemma in_degree_run g v :
  shaped g -> dict_mem v (_structure g) = true ->
  (in_degree v g).1 = Return (length (preds g v)).
Proof.
  intros Hsh Hv. rewrite <- (sh_consistent g Hsh) in Hv.
  apply dict_mem_true in Hv as [iv Hiv].
  unfold in_degree, inedges_get, bind, preds. rewrite Hiv. simpl.
  unfold dict_keys. rewrite length_fmap. reflexivity.
Qed.

Lemma iter_outedges_run {S} g w a (st : S) :
  dict_get w (_structure g) = Some a ->
  iter_outedges g (Some w) st = (Return (dict_values a), st).
Proof.
  intros Hw. unfold iter_outedges, get_edges, get_outedges, mem,
    structure_get, bind. simpl. unfold dict_mem. rewrite Hw. simpl.
  rewrite Hw. reflexivity.
Qed.

(** Lines 405 to 409: after the first [for], every vertex has the
    number of its in-edges as its count, and the vertices without
    in-edges are available. *)
Lemma count_loop g :
  shaped g ->
  forall todo done cnt,
    (forall v, v ∈ todo -> dict_mem v (_structure g) = true) ->
    (forall x, dict_get x cnt
       = match x with
         | Some u => if bool_decide (u ∈ done)
                     then Some (Z.of_nat (length (preds g u))) else None
         | None => None
         end) ->
    exists cnt',
      for_each todo (count_in g)
        (mkState cnt []
           (Some <$> filter (fun u => length (preds g u) = 0) done))
      = (Return tt,
         mkState cnt' []
           (Some <$> filter (fun u => length (preds g u) = 0)
                       (done ++ todo)))
      /\ forall x, dict_get x cnt'
           = match x with
             | Some u => if bool_decide (u ∈ done ++ todo)
                         then Some (Z.of_nat (length (preds g u)))
                         else None
             | None => None
             end.
Proof.
  intros Hsh. induction todo as [|v todo IH]; intros done cnt Hv Hcnt.
  - exists cnt. rewrite app_nil_r. split; [reflexivity | exact Hcnt].
  - destruct (IH (done ++ [v])
                (dict_set (Some v) (Z.of_nat (length (preds g v))) cnt))
      as (cnt' & Hrun & Hcnt').
    + intros u Hu. apply Hv, list_elem_of_further, Hu.
    + intros [u|].
      * destruct (decide (u = v)) as [-> |Hne].
        -- rewrite dict_get_set_eq.
           rewrite bool_decide_eq_true_2; [reflexivity |].
           apply elem_of_app. right. apply list_elem_of_here.
        -- rewrite dict_get_set_ne by congruence. rewrite (Hcnt (Some u)).
           destruct (bool_decide (u ∈ done)) eqn:Hd.
           ++ apply bool_decide_eq_true in Hd.
              rewrite bool_decide_eq_true_2; [reflexivity |].
              apply elem_of_app. auto.
           ++ apply bool_decide_eq_false in Hd.
              rewrite bool_decide_eq_false_2; [reflexivity |].
              intros Hin. apply elem_of_app in Hin as [Hin|Hin]; [auto |].
              apply list_elem_of_singleton in Hin. auto.
      * rewrite dict_get_set_ne by discriminate. apply (Hcnt None).
    + exists cnt'. rewrite <- app_assoc in Hrun, Hcnt'. simpl in Hrun, Hcnt'.
      split; [| exact Hcnt'].
      simpl. erewrite bind_Return; [exact Hrun |].
      unfold count_in.
      rewrite (in_degree_run g v Hsh)
        by (apply Hv, list_elem_of_here).
      erewrite bind_Return by reflexivity.
      unfold put. cbn [inedgecount tsort available]. f_equal. f_equal.
      rewrite filter_app, fmap_app, filter_cons, filter_nil.
      destruct (decide (length (preds g v) = 0)); simpl;
        [reflexivity | rewrite app_nil_r; reflexivity].
Qed.

Lemma Inv_start g cnt :
  shaped g ->
  (forall x, dict_get x cnt
     = match x with
       | Some u => if bool_decide (u ∈ dict_keys (_structure g))
                   then Some (Z.of_nat (length (preds g u))) else None
       | None => None
       end) ->
  Inv g None
    (mkState cnt []
       (Some <$> filter (fun u => length (preds g u) = 0)
                   (dict_keys (_structure g)))).
Proof.
  intros Hsh Hcnt. split; cbn [inedgecount tsort available].
  - intros x Hx. apply dict_mem_true in Hx as [c Hc].
    rewrite Hcnt in Hc. destruct x as [u|]; [| discriminate].
    exists u. split; [reflexivity |].
    destruct (bool_decide (u ∈ dict_keys (_structure g))) eqn:Hu;
      [| discriminate].
    apply bool_decide_eq_true in Hu. apply dict_mem_keys, Hu.
  - intros u Hu. rewrite (Hcnt (Some u)).
    rewrite bool_decide_eq_true_2 by (apply dict_mem_keys, Hu).
    rewrite filter_all; [reflexivity |].
    intros p _. apply live_true. left. intros Hin. inversion Hin.
  - rewrite app_nil_r. apply NoDup_fmap_2; [intros ? ? [=]; auto |].
    apply NoDup_filter, (sh_keys g Hsh).
  - rewrite app_nil_r. intros x Hx.
    apply list_elem_of_fmap in Hx as (v & -> & Hv).
    apply list_elem_of_filter in Hv as [_ Hv].
    exists v. split; [reflexivity | apply dict_mem_keys, Hv].
  - intros u Hu. rewrite app_nil_r. rewrite (Hcnt (Some u)).
    rewrite bool_decide_eq_true_2 by (apply dict_mem_keys, Hu).
    split.
    + intros [= Hz]. apply list_elem_of_fmap. exists u.
      split; [reflexivity |]. apply list_elem_of_filter.
      split; [lia | apply dict_mem_keys, Hu].
    + intros Hin. apply list_elem_of_fmap in Hin as (v & [= <-] & Hv).
      apply list_elem_of_filter in Hv as [Hz _]. rewrite Hz. reflexivity.
  - intros u T1 T2 HT. destruct T1; discriminate.
  - exact I.
Qed.

Lemma elem_of_snoc_app {A} (x y : A) l t :
  x ∈ (l ++ [y]) ++ t <-> x = y \/ x ∈ l ++ t.
Proof. rewrite !elem_of_app, list_elem_of_singleton. tauto. Qed.

Lemma NoDup_snoc_app {A} (y : A) l t :
  NoDup ((l ++ [y]) ++ t) <-> (y ∉ l ++ t) /\ NoDup (l ++ t).
Proof.
  assert (HP : (l ++ [y]) ++ t ≡ₚ y :: (l ++ t)).
  { rewrite <- app_assoc. simpl. symmetry. apply Permutation_middle. }
  rewrite HP. apply NoDup_cons.
Qed.

(** Lines 413 and 414: a vertex is taken from [available] and put at
    the end of [tsort]; all its out-edges are still to be released. *)
Lemma Inv_take g cnt T A w0 :
  shaped g -> Inv g None (mkState cnt T (A ++ [w0])) ->
  exists w, w0 = Some w /\ dict_mem w (_structure g) = true
    /\ Inv g (Some (w, succs g w)) (mkState cnt (T ++ [w0]) A).
Proof.
  intros Hsh [Hk Hc Hnd Hv Hz Ho _].
  cbn [inedgecount tsort available] in *.
  destruct (Hv w0) as (w & -> & Hw).
  { apply elem_of_snoc_app. auto. }
  exists w. split; [reflexivity |]. split; [exact Hw |].
  apply NoDup_snoc_app in Hnd as [HwAT Hnd].
  assert (HwT : Some w ∉ T)
    by (intros Hin; apply HwAT, elem_of_app; auto).
  assert (Hmem : forall x, x ∈ A ++ T ++ [Some w]
                           <-> x ∈ (A ++ [Some w]) ++ T).
  { intros x. rewrite !elem_of_app, list_elem_of_singleton. tauto. }
  split; cbn [inedgecount tsort available].
  - exact Hk.
  - intros u Hu. rewrite (Hc u Hu). do 3 f_equal.
    apply filter_ext_elem. intros p Hp. rewrite !live_true. split.
    + intros [Hn|(c & r & [=] & _)].
      destruct (decide (p = w)) as [-> |Hne].
      * right. exists w, (succs g w). split; [reflexivity |].
        split; [reflexivity |]. apply preds_succs; assumption.
      * left. intros Hin. apply elem_of_app in Hin as [Hin|Hin]; [auto |].
        apply list_elem_of_singleton in Hin. congruence.
    + intros [Hn|(c & r & [= <- <-] & -> & _)].
      * left. intros Hin. apply Hn, elem_of_app. auto.
      * left. exact HwT.
  - rewrite app_assoc. apply NoDup_app. split; [exact Hnd |].
    split; [| apply NoDup_singleton].
    intros x Hx Hx'. apply list_elem_of_singleton in Hx'. subst x.
    contradiction.
  - intros x Hx. apply Hv, Hmem, Hx.
  - intros u Hu. rewrite (Hz u Hu). symmetry. apply Hmem.
  - intros u T1 T2 HT p Hp. destruct T2 as [|x T2 _] using rev_ind.
    + apply app_inj_tail in HT as [-> [= ->]].
      destruct (decide (Some p ∈ T1)) as [Hin|Hout]; [exact Hin |].
      exfalso.
      assert (Hzero : dict_get (Some u) cnt = Some 0%Z).
      { apply (Hz u Hw). apply elem_of_snoc_app. auto. }
      rewrite (Hc u Hw) in Hzero. injection Hzero as Hzero.
      assert (Hlive : p ∈ filter (fun p => live T1 None u p = true)
                            (preds g u)).
      { apply list_elem_of_filter. split; [| exact Hp].
        apply live_true. auto. }
      destruct (filter (fun p => live T1 None u p = true) (preds g u));
        [inversion Hlive | simpl in Hzero; lia].
    + rewrite app_comm_cons, app_assoc in HT.
      apply app_inj_tail in HT as [-> _]. eapply Ho; eauto.
  - split; [apply elem_of_app; right; apply list_elem_of_here |].
    split; [apply succs_nodup, Hsh | auto].
Qed.

(** Lines 416 to 419 for the edge to [u0]. *)
Lemma Inv_release g w u0 rest e st :
  shaped g -> Inv g (Some (w, u0 :: rest)) st ->
  opposite e (Some w) = Some u0 ->
  exists st', release (Some w) e st = (Return tt, st')
    /\ Inv g (Some (w, rest)) st' /\ tsort st' = tsort st.
Proof.
  intros Hsh HInv Hopp. destruct st as [cnt T A].
  destruct HInv as [Hk Hc Hnd Hv Hz Ho (HwT & Hndr & Hsub)].
  cbn [inedgecount tsort available] in *.
  apply NoDup_cons in Hndr as [Hu0 Hndr].
  assert (Hs0 : u0 ∈ succs g w) by apply Hsub, list_elem_of_here.
  assert (Hu0g : dict_mem u0 (_structure g) = true).
  { apply succs_spec in Hs0 as [e0 He0]. eapply sh_target; eauto. }
  assert (Hp0 : w ∈ preds g u0) by (apply preds_succs; assumption).
  assert (Hlen :
    length (filter (fun p => live T (Some (w, u0 :: rest)) u0 p = true)
              (preds g u0))
    = S (length (filter (fun p => live T (Some (w, rest)) u0 p = true)
                   (preds g u0)))).
  { apply (filter_remove_one _ _ _ w).
    - apply preds_nodup, Hsh.
    - exact Hp0.
    - apply live_true. right. exists w, (u0 :: rest).
      repeat split. apply list_elem_of_here.
    - rewrite live_true.
      intros [Hn|(c & r & [= <- <-] & _ & Hin)]; [apply Hn, HwT |].
      contradiction.
    - intros x _ Hne. rewrite !live_true.
      split; (intros [Hn|(c & r & [= <- <-] & -> & _)];
              [left; exact Hn | congruence]). }
  pose proof (Hc u0 Hu0g) as Hc0. rewrite Hlen in Hc0.
  set (k := length (filter (fun p => live T (Some (w, rest)) u0 p = true)
                      (preds g u0))) in *.
  assert (HnotIn : Some u0 ∉ A ++ T).
  { intros Hin. apply (Hz u0 Hu0g) in Hin. rewrite Hc0 in Hin.
    injection Hin. lia. }
  exists (mkState (dict_set (Some u0) (Z.of_nat k) cnt) T
            (if decide (Z.of_nat k = 0%Z) then A ++ [Some u0] else A)).
  split.
  { unfold release. rewrite Hopp. erewrite bind_Return by reflexivity.
    cbn [inedgecount tsort available]. rewrite Hc0.
    replace (Z.of_nat (S k) - 1)%Z with (Z.of_nat k) by lia.
    reflexivity. }
  split; [| reflexivity].
  split; cbn [inedgecount tsort available].
  - intros x Hx. rewrite dict_mem_set in Hx.
    case_decide as Hxx; [subst x; eauto | auto].
  - intros u Hu. destruct (decide (u = u0)) as [-> |Hne].
    + rewrite dict_get_set_eq. reflexivity.
    + rewrite dict_get_set_ne by congruence. rewrite (Hc u Hu).
      do 3 f_equal. apply filter_ext_elem. intros p _.
      rewrite !live_true.
      split; (intros [Hn|(c & r & [= <- <-] & -> & Hin)]; [auto |]);
        right; eexists _, _; (split; [reflexivity |]);
        (split; [reflexivity |]).
      * apply elem_of_cons in Hin as [-> |Hin]; [contradiction | exact Hin].
      * apply list_elem_of_further, Hin.
  - destruct (decide (Z.of_nat k = 0%Z)); [| exact Hnd].
    apply NoDup_snoc_app. auto.
  - intros x Hx. destruct (decide (Z.of_nat k = 0%Z)); [| auto].
    apply elem_of_snoc_app in Hx as [-> |Hx]; [eauto | auto].
  - intros u Hu. destruct (decide (u = u0)) as [-> |Hne].
    + rewrite dict_get_set_eq.
      destruct (decide (Z.of_nat k = 0%Z)) as [Hk0|Hk0].
      * rewrite Hk0. split; [intros _ | reflexivity].
        apply elem_of_snoc_app. auto.
      * split; [intros [= H]; contradiction | intros Hin; contradiction].
    + rewrite dict_get_set_ne by congruence. rewrite (Hz u Hu).
      destruct (decide (Z.of_nat k = 0%Z)); [| reflexivity].
      rewrite elem_of_snoc_app. split; [auto |].
      intros [[= ->]|H]; [contradiction | exact H].
  - exact Ho.
  - split; [exact HwT |]. split; [exact Hndr |].
    intros u Hu. apply Hsub, list_elem_of_further, Hu.
Qed.

(** Lines 415 to 419: the [for] over the out-edges. *)
Lemma Inv_release_loop g w :
  shaped g ->
  forall (pairs : list (Vertex * Edge)) st,
    Inv g (Some (w, pairs.*1)) st ->
    (forall u e, (u, e) ∈ pairs -> opposite e (Some w) = Some u) ->
    exists st', for_each pairs.*2 (release (Some w)) st = (Return tt, st')
      /\ Inv g (Some (w, [])) st' /\ tsort st' = tsort st.
Proof.
  intros Hsh. induction pairs as [|[u0 e] pairs IH]; intros st HInv Hopp.
  - exists st. split; [reflexivity |]. auto.
  - destruct (Inv_release g w u0 (pairs.*1) e st Hsh HInv)
      as (st1 & Hrun & HInv1 & HT1).
    { apply Hopp, list_elem_of_here. }
    destruct (IH st1 HInv1) as (st' & Hrun' & HInv' & HT').
    { intros u e' Hin. apply Hopp, list_elem_of_further, Hin. }
    exists st'. split; [| split; [exact HInv' | congruence]].
    simpl. erewrite bind_Return by exact Hrun. exact Hrun'.
Qed.

Lemma Inv_close g w st : Inv g (Some (w, [])) st -> Inv g None st.
Proof.
  intros [Hk Hc Hnd Hv Hz Ho _]. split; auto.
  intros u Hu. rewrite (Hc u Hu). do 3 f_equal.
  apply filter_ext_elem. intros p _. rewrite !live_true.
  split; (intros [Hn|(c & r & Heq & _ & Hin)]; [auto |]).
  - injection Heq as <- <-. inversion Hin.
  - discriminate.
Qed.

Lemma sort_loop_unfold g fuel :
  sort_loop g fuel
  = (let* st := get in
     if (0 <? length (available st)) then
       match fuel with
       | 0 => out_of_fuel
       | S fuel' =>
           match last (available st) with
           | None => raise IndexError
           | Some w =>
               put {| inedgecount := inedgecount st;
                      tsort := tsort st ++ [w];
                      available := removelast (available st) |};;
               let* edges := iter_outedges g w in
               for_each edges (release w);;
               sort_loop g fuel'
           end
       end
     else ret tt).
Proof. destruct fuel; reflexivity. Qed.

(** The [while] loop returns, with nothing left in [available]. *)
Lemma sort_loop_spec g :
  shaped g ->
  forall fuel st,
    Inv g None st ->
    length (_structure g) < fuel + length (tsort st) ->
    exists st', sort_loop g fuel st = (Return tt, st')
      /\ Inv g None st' /\ available st' = [].
Proof.
  intros Hsh. induction fuel as [|fuel IH]; intros [cnt T A] HInv Hfuel;
    rewrite sort_loop_unfold; (erewrite bind_Return by reflexivity);
    cbn [inedgecount tsort available] in *;
    (destruct A as [|x A _] using rev_ind;
     [exists (mkState cnt T []); auto |]).
  all: assert (Hle : length ((A ++ [x]) ++ T) <= length (_structure g)).
  all: try (etransitivity;
            [apply (submseteq_length _
                      (Some <$> dict_keys (_structure g))),
               NoDup_submseteq; [apply (inv_nodup _ _ _ HInv) |];
             intros y Hy;
             destruct (inv_vertices _ _ _ HInv y Hy) as (v & -> & Hv);
             apply list_elem_of_fmap; exists v; split; [reflexivity |];
             apply dict_mem_keys, Hv
            | unfold dict_keys; rewrite !length_fmap; reflexivity]).
  all: rewrite !length_app in Hle; simpl in Hle.
  - lia.
  - replace (0 <? length (A ++ [x])) with true
      by (symmetry; apply Nat.ltb_lt; rewrite length_app; simpl; lia).
    rewrite last_snoc, removelast_last.
    destruct (Inv_take g cnt T A x Hsh HInv) as (w & -> & Hw & HInv1).
    pose proof Hw as Ha. apply dict_mem_true in Ha as [a Ha].
    destruct (Inv_release_loop g w Hsh a
                (mkState cnt (T ++ [Some w]) A))
      as (st2 & Hrun2 & HInv2 & HT2).
    { replace (a.*1) with (succs g w); [exact HInv1 |].
      unfold succs. rewrite Ha. reflexivity. }
    { intros u e Hin.
      assert (He : out_edge_at g w u = Some e).
      { unfold out_edge_at. rewrite Ha.
        apply elem_of_dict_nodup; [eapply sh_out; eauto | exact Hin]. }
      unfold opposite. rewrite (sh_ends g Hsh _ _ _ He). simpl.
      rewrite decide_True by reflexivity. reflexivity. }
    destruct (IH st2 (Inv_close _ _ _ HInv2)) as (st' & Hrun' & HInv' & HA').
    { rewrite HT2. cbn [tsort]. rewrite length_app. simpl. lia. }
    exists st'. split; [| auto].
    erewrite bind_Return by reflexivity.
    erewrite bind_Return by (apply iter_outedges_run, Ha).
    erewrite bind_Return by exact Hrun2. exact Hrun'.
Qed.

(** X30. On a directed graph made by [add_vertex] and [add_edge],
    [topological_sort] returns.  When it returns a list, the list holds
    every vertex of the graph once, and for every edge its first vertex
    comes before its second one.  When it returns [None], the graph has
    vertices of which each one has an edge from one of them, so there
    is a cycle. *)
Theorem topological_sort_contract g :
  constructed g ->
  exists r, topological_sort g = Return r
    /\ match r with
       | Some t =>
           t ≡ₚ Some <$> dict_keys (_structure g)
           /\ forall v w e, out_edge_at g v w = Some e ->
                exists t1 t2, t = t1 ++ Some w :: t2 /\ Some v ∈ t1
       | None =>
           exists C : list Vertex, C <> []
             /\ forall u, u ∈ C ->
                  dict_mem u (_structure g) = true
                  /\ exists p e, p ∈ C /\ out_edge_at g p u = Some e
       end.
Proof.
  intros Hc. pose proof (constructed_shaped g Hc) as Hsh.
  destruct (count_loop g Hsh (dict_keys (_structure g)) [] [])
    as (cnt & Hrun & Hcnt).
  { intros v Hv. apply dict_mem_keys, Hv. }
  { intros [u|]; reflexivity. }
  simpl app in Hrun, Hcnt.
  destruct (sort_loop_spec g Hsh (S (length (_structure g))) _
              (Inv_start g cnt Hsh Hcnt))
    as ([cnt' T A] & Hrun' & HInv & HA).
  { cbn [tsort]. simpl. lia. }
  cbn [available] in HA. subst A.
  destruct HInv as [Hk Hcn Hnd Hv Hz Ho _].
  cbn [inedgecount tsort available] in *.
  assert (Hsub : T ⊆+ Some <$> dict_keys (_structure g)).
  { apply NoDup_submseteq; [exact Hnd |]. intros y Hy.
    destruct (Hv y Hy) as (v & -> & Hvg).
    apply list_elem_of_fmap. exists v. split; [reflexivity |].
    apply dict_mem_keys, Hvg. }
  assert (Hlen : length (Some <$> dict_keys (_structure g))
                 = length (_structure g))
    by (unfold dict_keys; rewrite !length_fmap; reflexivity).
  eexists. split.
  { unfold topological_sort.
    erewrite bind_Return by exact Hrun. rewrite Hrun'. reflexivity. }
  cbn [tsort]. destruct (decide (length T = length (_structure g))) as [HT|HT].
  - assert (HP : T ≡ₚ Some <$> dict_keys (_structure g)).
    { apply submseteq_length_Permutation; [exact Hsub |].
      rewrite Hlen, HT. reflexivity. }
    split; [exact HP |].
    intros v w e He.
    assert (Hw : Some w ∈ T).
    { rewrite HP. apply list_elem_of_fmap. exists w.
      split; [reflexivity |]. eapply dict_mem_keys, sh_target; eauto. }
    apply list_elem_of_split in Hw as (t1 & t2 & Heq).
    exists t1, t2. split; [exact Heq |].
    apply (Ho w t1 t2 Heq). apply preds_spec.
    rewrite <- (sh_agree g Hsh). eauto.
  - exists (filter (fun v => Some v ∉ T) (dict_keys (_structure g))).
    split.
    + intros Hnil. apply HT. apply Nat.le_antisymm.
      * rewrite <- Hlen. apply submseteq_length, Hsub.
      * rewrite <- Hlen. apply submseteq_length, NoDup_submseteq.
        -- apply NoDup_fmap_2; [intros ? ? [=]; auto |].
           apply (sh_keys g Hsh).
        -- intros y Hy. apply list_elem_of_fmap in Hy as (v & -> & Hvk).
           destruct (decide (Some v ∈ T)) as [Hin|Hout]; [exact Hin |].
           exfalso.
           assert (Hf : v ∈ filter (fun v => Some v ∉ T)
                              (dict_keys (_structure g)))
             by (apply list_elem_of_filter; auto).
           rewrite Hnil in Hf. inversion Hf.
    + intros u Hu. apply list_elem_of_filter in Hu as [HuT Huk].
      assert (Hug : dict_mem u (_structure g) = true)
        by apply dict_mem_keys, Huk.
      split; [exact Hug |].
      assert (Hnz : dict_get (Some u) cnt' <> Some 0%Z).
      { intros Hzero. apply (Hz u Hug) in Hzero. contradiction. }
      rewrite (Hcn u Hug) in Hnz.
      destruct (filter (fun p => live T None u p = true) (preds g u))
        as [|p l] eqn:Hf; [contradiction Hnz; reflexivity |].
      assert (Hp : p ∈ filter (fun p => live T None u p = true) (preds g u))
        by (rewrite Hf; apply list_elem_of_here).
      apply list_elem_of_filter in Hp as [Hlive Hp].
      apply live_true in Hlive as [HpT|(c & r & [=] & _)].
      pose proof Hp as Hpe. apply preds_spec in Hpe.
      rewrite <- (sh_agree g Hsh) in Hpe. destruct Hpe as [e He].
      exists p, e. split; [| exact He].
      apply list_elem_of_filter. split; [exact HpT |].
      apply dict_mem_keys. eapply preds_vertex; eauto.
Qed.

End TopSortFacts.

Lemma topological_sort_contract_witness :
  exists r, TopSort.topological_sort example_dag = Return r
    /\ match r with
       | Some t =>
           t ≡ₚ Some <$> dict_keys (DirectedGraph._structure example_dag)
           /\ forall v w e,
                DirectedInv.out_edge_at example_dag v w = Some e ->
                exists t1 t2, t = t1 ++ Some w :: t2 /\ Some v ∈ t1
       | None =>
           exists C : list Vertex, C <> []
             /\ forall u, u ∈ C ->
                  dict_mem u (DirectedGraph._structure example_dag) = true
                  /\ exists p e,
                       p ∈ C
                       /\ DirectedInv.out_edge_at example_dag p u = Some e
       end.
Proof. apply topological_sort_contract. exact example_dag_constructed. Defined.

(** The chain A->B->C is sorted as it stands; with the edge C->A added
    there is a cycle and no sort. *)
Example topological_sort_chain :
  TopSort.topological_sort example_dag = Return (Some [Some vA; Some vB; Some vC]).
Proof. vm_compute. reflexivity. Qed.

Example topological_sort_cycle :
  TopSort.topological_sort (DirectedGraph.add_edge vC vA 3 example_dag).2
  = Return None.
Proof. vm_compute. reflexivity. Qed.
